(** * Quantum Tic-Tac-Toe: the rule engine of [quantum_ttt.py]

    A shallow embedding of the class [QuantumTicTacToeLogic] and the
    properties of its cycle detection, collapse protocol and win
    evaluation.

    Conventions of the embedding.
    - Square indices, sequence numbers and the collapse cursor are
      Python ints that the engine only ever produces or receives as
      non-negative values; they are modelled as [nat].
    - A Python list subscript outside the list raises [IndexError]; an
      [assert] that fails raises [AssertionError].  Fallible operations
      return a [result].
    - A [Move] object lives in exactly one of the two lists [moves] and
      [collapse_moves]; lists of objects are modelled as lists of
      values, an object's identity being its position in its list.
    - Python dicts and sets are [gmap] and [gset]; iterating over a set
      uses [elements]. *)

From Equations Require Import Equations.
From stdpp Require Import gmap list relations.

Set Default Proof Using "Type".
Set Warnings "-clear-no-such-hyp".

(** ** Exceptions and results *)

Inductive exn : Set := AssertionError | IndexError.

Inductive result (A : Type) : Type :=
| Ok (a : A)
| Raise (e : exn).
Arguments Ok {A} a.
Arguments Raise {A} e.

Definition rbind {A B} (r : result A) (k : A -> result B) : result B :=
  match r with
  | Ok a => k a
  | Raise e => Raise e
  end.

Global Instance result_bind : MBind result := fun A B k r => rbind r k.
Global Instance result_ret : MRet result := fun A a => Ok a.

Definition inspect {A} (a : A) : {b : A | a = b} := exist _ a eq_refl.

(** [l[i]] and [l[i] = x] on a Python list. *)
Definition getitem {A} (l : list A) (i : nat) : result A :=
  match l !! i with
  | Some x => Ok x
  | None => Raise IndexError
  end.

Definition setitem {A} (l : list A) (i : nat) (x : A) : result (list A) :=
  if decide (i < length l) then Ok (<[i:=x]> l) else Raise IndexError.

(** ** Data model *)

Inductive Player : Set := X | O.

Global Instance Player_eq_dec : EqDecision Player.
Proof. solve_decision. Defined.

Inductive Mode : Set := PLAY | COLLAPSE.

Global Instance Mode_eq_dec : EqDecision Mode.
Proof. solve_decision. Defined.

Record Move : Set := mkMove {
  player : Player;
  index : nat;
  cells : nat * nat;
  collapsed_to : option nat
}.

Global Instance Move_eq_dec : EqDecision Move.
Proof. solve_decision. Defined.

(** The dict [move_counter] has exactly the keys ['X'] and ['O']. *)
Record Counters : Set := mkCounters { count_X : nat; count_O : nat }.

Definition counter_get (c : Counters) (p : Player) : nat :=
  match p with X => count_X c | O => count_O c end.

Definition counter_incr (c : Counters) (p : Player) : Counters :=
  match p with
  | X => mkCounters (S (count_X c)) (count_O c)
  | O => mkCounters (count_X c) (S (count_O c))
  end.

Abbreviation Ident := (Player * nat)%type.

Record Logic : Set := mkLogic {
  moves : list Move;
  collapsed_board : list (option Ident);
  move_counter : Counters;
  current_player : Player;
  mode : Mode;
  collapse_chooser : option Player;
  cycle_creator : option Player;
  next_player_after_collapse : option Player;
  collapse_moves : list Move;
  collapse_index : nat
}.

Definition reset : Logic :=
  {| moves := [];
     collapsed_board := replicate 9 None;
     move_counter := mkCounters 0 0;
     current_player := X;
     mode := PLAY;
     collapse_chooser := None;
     cycle_creator := None;
     next_player_after_collapse := None;
     collapse_moves := [];
     collapse_index := 0 |}.

Definition other_player (p : Player) : Player :=
  match p with X => O | O => X end.

(** ** Adjacency and cycle detection *)

Module Graph.

(** [adj.setdefault(a, set()).add(b)] *)
Definition add_neighbour (adj : gmap nat (gset nat)) (a b : nat) : gmap nat (gset nat) :=
  <[a := {[b]} ∪ default ∅ (adj !! a)]> adj.

Definition add_edge (adj : gmap nat (gset nat)) (m : Move) : gmap nat (gset nat) :=
  let '(a, b) := cells m in
  add_neighbour (add_neighbour adj a b) b a.

Definition build_adjacency (ms : list Move) : gmap nat (gset nat) :=
  foldl add_edge ∅ ms.

(** [adj.get(u, [])], iterated. *)
Definition neighbours (adj : gmap nat (gset nat)) (u : nat) : list nat :=
  match adj !! u with
  | Some s => elements s
  | None => []
  end.

(** Every square the adjacency mentions, as a key or as a neighbour;
    it only serves to bound the two traversals. *)
Definition vertices (adj : gmap nat (gset nat)) : gset nat :=
  dom adj ∪ ⋃ (map_to_list adj).*2.

(** The [for v in adj.get(u, [])] loop of [bfs_reachable]; [None] is the
    early [return True]. *)
Fixpoint bfs_scan (target : nat) (vs q : list nat) (visited : gset nat)
  : option (list nat * gset nat) :=
  match vs with
  | [] => Some (q, visited)
  | v :: vs' =>
      if decide (v = target) then None
      else if decide (v ∈ visited) then bfs_scan target vs' q visited
      else bfs_scan target vs' (q ++ [v]) ({[v]} ∪ visited)
  end.

Definition bfs_measure (adj : gmap nat (gset nat)) (q : list nat) (visited : gset nat) : nat :=
  size (vertices adj ∖ visited) + length q.

Lemma neighbours_vertices adj u v :
  v ∈ neighbours adj u -> v ∈ vertices adj.
Proof.
  unfold neighbours, vertices. destruct (adj !! u) as [s|] eqn:E.
  - intros Hv%elem_of_elements. apply elem_of_union_r, elem_of_union_list.
    exists s. split; [|done].
    apply list_elem_of_fmap. exists (u, s). split; [done|].
    by apply elem_of_map_to_list.
  - by intros ?%elem_of_nil.
Qed.

Lemma neighbours_length adj u : length (neighbours adj u) <= size (vertices adj).
Proof.
  unfold neighbours. destruct (adj !! u) as [s|] eqn:E; simpl; [|lia].
  change (length (elements s)) with (size s). apply subseteq_size.
  intros v Hv. apply (neighbours_vertices adj u). unfold neighbours.
  rewrite E. by apply elem_of_elements.
Qed.

Lemma size_difference_fresh (V W : gset nat) v :
  v ∈ V -> v ∉ W -> S (size (V ∖ ({[v]} ∪ W))) = size (V ∖ W).
Proof.
  intros HV HS.
  assert (V ∖ W = {[v]} ∪ V ∖ ({[v]} ∪ W)) as ->.
  { apply set_eq. intros x. destruct (decide (x = v)); set_solver. }
  rewrite (size_union (C:=gset nat) {[v]}) by set_solver.
  by rewrite size_singleton.
Qed.

Lemma size_difference_mono (V W W' : gset nat) :
  W ⊆ W' -> size (V ∖ W') <= size (V ∖ W).
Proof. intros. apply subseteq_size. set_solver. Qed.

Lemma bfs_scan_measure adj target vs q visited q' visited' :
  (forall v, v ∈ vs -> v ∈ vertices adj) ->
  bfs_scan target vs q visited = Some (q', visited') ->
  bfs_measure adj q' visited' <= bfs_measure adj q visited.
Proof.
  revert q visited. induction vs as [|v vs IH]; intros q visited Hvs; simpl.
  - intros [= <- <-]. done.
  - destruct (decide (v = target)); [done|].
    destruct (decide (v ∈ visited)) as [Hin|Hin]; intros Hscan.
    + apply IH in Hscan; [done|]. intros; apply Hvs; by right.
    + apply IH in Hscan; [|intros; apply Hvs; by right].
      etrans; [exact Hscan|]. unfold bfs_measure. rewrite length_app. simpl.
      pose proof (size_difference_fresh (vertices adj) visited v) as Hsz.
      rewrite <- Hsz; [lia| |done]. apply Hvs. by left.
Qed.

(** The [while q] loop of [bfs_reachable]. *)
Equations? bfs_loop (adj : gmap nat (gset nat)) (target : nat)
    (q : list nat) (visited : gset nat) : bool
  by wf (bfs_measure adj q visited) lt :=
  bfs_loop adj target [] visited := false;
  bfs_loop adj target (u :: q) visited
    with inspect (bfs_scan target (neighbours adj u) q visited) => {
    | exist _ None _ := true;
    | exist _ (Some (q', visited')) Hscan := bfs_loop adj target q' visited' }.
Proof.
  apply (bfs_scan_measure adj) in Hscan.
  - unfold bfs_measure in *. simpl. lia.
  - intros v. apply neighbours_vertices.
Qed.

Definition bfs_reachable (adj : gmap nat (gset nat)) (start target : nat) : bool :=
  if decide (start = target) then true
  else bfs_loop adj target [start] {[start]}.

(** The inner loop of [get_connected_component]: push the neighbours
    that are not yet in the component.  The head of the list is the top
    of the Python stack. *)
Fixpoint dfs_push (vs : list nat) (component : gset nat) (stack : list nat) : list nat :=
  match vs with
  | [] => stack
  | v :: vs' =>
      if decide (v ∈ component) then dfs_push vs' component stack
      else dfs_push vs' component (v :: stack)
  end.

Definition dfs_measure (adj : gmap nat (gset nat)) (stack : list nat) (component : gset nat) : nat :=
  size (vertices adj ∖ component) * S (size (vertices adj)) + length stack.

Lemma dfs_push_length vs component stack :
  length (dfs_push vs component stack) <= length vs + length stack.
Proof.
  revert stack. induction vs as [|v vs IH]; intros stack; simpl; [lia|].
  destruct (decide (v ∈ component)).
  - specialize (IH stack). lia.
  - specialize (IH (v :: stack)). simpl in IH. lia.
Qed.

Lemma dfs_visit_measure adj node stack component :
  node ∉ component ->
  dfs_measure adj (dfs_push (neighbours adj node) ({[node]} ∪ component) stack)
              ({[node]} ∪ component)
  < dfs_measure adj (node :: stack) component.
Proof.
  intros Hnode. unfold dfs_measure.
  pose proof (dfs_push_length (neighbours adj node) ({[node]} ∪ component) stack) as Hlen.
  pose proof (neighbours_length adj node) as Hdeg.
  destruct (adj !! node) as [s|] eqn:E.
  - assert (node ∈ vertices adj) as HV.
    { apply elem_of_union_l, elem_of_dom. eauto. }
    pose proof (size_difference_fresh (vertices adj) component node HV Hnode) as Hsz.
    simpl. nia.
  - unfold neighbours in *. rewrite E in *. simpl in *.
    pose proof (size_difference_mono (vertices adj) component ({[node]} ∪ component)) as Hsz.
    assert (component ⊆ {[node]} ∪ component) as Hsub by set_solver.
    specialize (Hsz Hsub). nia.
Qed.

(** The [while stack] loop of [get_connected_component]. *)
Equations? dfs_loop (adj : gmap nat (gset nat)) (stack : list nat)
    (component : gset nat) : gset nat
  by wf (dfs_measure adj stack component) lt :=
  dfs_loop adj [] component := component;
  dfs_loop adj (node :: stack) component with decide (node ∈ component) => {
    | left _ := dfs_loop adj stack component;
    | right Hnew :=
        dfs_loop adj
          (dfs_push (neighbours adj node) ({[node]} ∪ component) stack)
          ({[node]} ∪ component) }.
Proof.
  - unfold dfs_measure. simpl. lia.
  - by apply dfs_visit_measure.
Qed.

Definition get_connected_component (adj : gmap nat (gset nat)) (start_node : nat) : gset nat :=
  dfs_loop adj [start_node] ∅.

End Graph.

(** ** The engine *)

Definition would_create_loop (st : Logic) (new_cells : nat * nat) : bool :=
  let '(a, b) := new_cells in
  let adj := Graph.build_adjacency (moves st) in
  Graph.bfs_reachable adj a b.

(** The objects of a list, each paired with its position, which stands
    for the object's identity ([m is mv]). *)
Fixpoint tagged_from (i : nat) (ms : list Move) : list (nat * Move) :=
  match ms with
  | [] => []
  | m :: ms' => (i, m) :: tagged_from (S i) ms'
  end.

Definition tagged (ms : list Move) : list (nat * Move) := tagged_from 0 ms.

(** The loop filling [to_collapse] and [to_keep]. *)
Fixpoint partition_moves (involved : gset nat) (ms to_collapse to_keep : list (nat * Move))
  : list (nat * Move) * list (nat * Move) :=
  match ms with
  | [] => (to_collapse, to_keep)
  | m :: ms' =>
      if decide ((cells m.2).1 ∈ involved)
      then partition_moves involved ms' (to_collapse ++ [m]) to_keep
      else partition_moves involved ms' to_collapse (to_keep ++ [m])
  end.

(** [for i, m in enumerate(...): if m is mv: ...; break] *)
Fixpoint find_identity (mv : nat) (ms : list (nat * Move)) (i : nat) : option nat :=
  match ms with
  | [] => None
  | m :: ms' => if decide (m.1 = mv) then Some i else find_identity mv ms' (S i)
  end.

Definition add_spooky_move (st : Logic) (cell1 cell2 : nat) : result Logic :=
  if decide (mode st = PLAY) then
    if decide (cell1 ≠ cell2) then
      let loop := would_create_loop st (cell1, cell2) in
      let counter := counter_incr (move_counter st) (current_player st) in
      let idx := counter_get counter (current_player st) in
      let mv := mkMove (current_player st) idx (cell1, cell2) None in
      let ms := moves st ++ [mv] in
      if loop then
        let chooser := other_player (current_player st) in
        let adj := Graph.build_adjacency ms in
        let involved_squares := Graph.get_connected_component adj cell1 in
        let '(to_collapse, to_keep) :=
          partition_moves involved_squares (tagged ms) [] [] in
        Ok {| moves := to_keep.*2;
              collapsed_board := collapsed_board st;
              move_counter := counter;
              current_player := current_player st;
              mode := COLLAPSE;
              collapse_chooser := Some chooser;
              cycle_creator := Some (current_player st);
              next_player_after_collapse := Some chooser;
              collapse_moves := to_collapse.*2;
              collapse_index :=
                default 0 (find_identity (length (moves st)) to_collapse 0) |}
      else
        Ok {| moves := ms;
              collapsed_board := collapsed_board st;
              move_counter := counter;
              current_player := other_player (current_player st);
              mode := mode st;
              collapse_chooser := collapse_chooser st;
              cycle_creator := cycle_creator st;
              next_player_after_collapse := next_player_after_collapse st;
              collapse_moves := collapse_moves st;
              collapse_index := collapse_index st |}
    else Raise AssertionError
  else Raise AssertionError.

(** [chosen_cell in mv.cells] *)
Definition cell_in (c : nat) (cs : nat * nat) : bool :=
  bool_decide (c = cs.1) || bool_decide (c = cs.2).

(** [m.collapsed_to = c] *)
Definition resolve (m : Move) (c : nat) : Move :=
  {| player := player m; index := index m; cells := cells m; collapsed_to := Some c |}.

(** [[c for c in m.cells if self.collapsed_board[c] is None]] *)
Definition free_cells (board : list (option Ident)) (cs : nat * nat) : result (list nat) :=
  oa ← getitem board cs.1;
  ob ← getitem board cs.2;
  Ok ((if oa is None then [cs.1] else []) ++ (if ob is None then [cs.2] else [])).

(** One [for m in self.collapse_moves] pass of the forced propagation;
    the flag is [changed]. *)
Fixpoint propagate_pass (board : list (option Ident)) (ms : list Move) (changed : bool)
  : result (list Move * list (option Ident) * bool) :=
  match ms with
  | [] => Ok ([], board, changed)
  | m :: rest =>
      match collapsed_to m with
      | None =>
          free ← free_cells board (cells m);
          match free with
          | [c] =>
              board' ← setitem board c (Some (player m, index m));
              '(rest', board'', changed') ← propagate_pass board' rest true;
              Ok (resolve m c :: rest', board'', changed')
          | _ =>
              '(rest', board', changed') ← propagate_pass board rest changed;
              Ok (m :: rest', board', changed')
          end
      | Some _ =>
          '(rest', board', changed') ← propagate_pass board rest changed;
          Ok (m :: rest', board', changed')
      end
  end.

Definition unresolved (ms : list Move) : nat :=
  length (filter (fun m => collapsed_to m = None) ms).

Lemma propagate_pass_unresolved board ms changed ms' board' changed' :
  propagate_pass board ms changed = Ok (ms', board', changed') ->
  unresolved ms' <= unresolved ms /\
  (changed' = true -> changed = true \/ unresolved ms' < unresolved ms).
Proof.
  revert board changed ms' board' changed'.
  induction ms as [|m rest IH]; intros board changed ms' board' changed'; simpl.
  - intros [= <- <- <-]. auto.
  - assert (forall b ch, ('(rest', b', ch') ← propagate_pass b rest ch;
                           Ok (m :: rest', b', ch')) = Ok (ms', board', changed') ->
              unresolved ms' <= unresolved (m :: rest) /\
              (changed' = true -> ch = true \/ unresolved ms' < unresolved (m :: rest)))
      as Hskip.
    { intros b ch. destruct (propagate_pass b rest ch) as [[[r1 b1] c1]|] eqn:E; [|done].
      simpl. intros [= <- <- <-]. apply IH in E as [??].
      unfold unresolved in *. rewrite !filter_cons.
      destruct (decide (collapsed_to m = None)); simpl; split; try lia;
        intros Hc; destruct (H0 Hc); auto; right; lia. }
    destruct (collapsed_to m) as [c|] eqn:Hm; [apply Hskip|].
    destruct (free_cells board (cells m)) as [free|] eqn:Hf; [|done]. simpl.
    destruct free as [|c [|c' free]]; [apply Hskip| |apply Hskip].
    destruct (setitem board c (Some (player m, index m))) as [b1|] eqn:Hs; [|done].
    simpl. destruct (propagate_pass b1 rest true) as [[[r2 b2] c2]|] eqn:E; [|done].
    simpl. intros [= <- <- <-]. apply IH in E as [??].
    unfold unresolved in *. rewrite !filter_cons. simpl.
    rewrite decide_True by done. simpl.
    split; [lia|]. intros _. right. lia.
Qed.

(** The [while changed] loop: passes are repeated until one changes
    nothing. *)
Equations? propagate (board : list (option Ident)) (ms : list Move)
  : result (list Move * list (option Ident))
  by wf (unresolved ms) lt :=
  propagate board ms with inspect (propagate_pass board ms false) => {
    | exist _ (Raise e) _ := Raise e;
    | exist _ (Ok (ms', board', false)) _ := Ok (ms', board');
    | exist _ (Ok (ms', board', true)) Hpass := propagate board' ms' }.
Proof.
  apply propagate_pass_unresolved in Hpass as [_ Hlt].
  destruct Hlt as [?|?]; done.
Qed.

(** The cursor loop: [rest] is what the list holds from position [i] on. *)
Fixpoint advance (rest : list Move) (i : nat) : nat :=
  match rest with
  | [] => i
  | m :: rest' => if collapsed_to m is Some _ then advance rest' (S i) else i
  end.

Definition collapse_step (st : Logic) (chosen_cell : nat) : result (bool * Logic) :=
  if decide (mode st = COLLAPSE) then
    if decide (length (collapse_moves st) <= collapse_index st) then Ok (true, st)
    else
      mv ← getitem (collapse_moves st) (collapse_index st);
      if negb (cell_in chosen_cell (cells mv)) then Ok (false, st)
      else
        occupant ← getitem (collapsed_board st) chosen_cell;
        if occupant is Some _ then Ok (false, st)
        else
          let cms := <[collapse_index st := resolve mv chosen_cell]> (collapse_moves st) in
          board ← setitem (collapsed_board st) chosen_cell (Some (player mv, index mv));
          '(cms', board') ← propagate board cms;
          let i := advance (drop (collapse_index st) cms') (collapse_index st) in
          if decide (length cms' <= i) then
            Ok (true,
                {| moves := moves st;
                   collapsed_board := board';
                   move_counter := move_counter st;
                   current_player :=
                     match next_player_after_collapse st with
                     | Some p => p
                     | None => current_player st
                     end;
                   mode := PLAY;
                   collapse_chooser := collapse_chooser st;
                   cycle_creator := cycle_creator st;
                   next_player_after_collapse := next_player_after_collapse st;
                   collapse_moves := cms';
                   collapse_index := i |})
          else
            Ok (true,
                {| moves := moves st;
                   collapsed_board := board';
                   move_counter := move_counter st;
                   current_player := current_player st;
                   mode := mode st;
                   collapse_chooser := collapse_chooser st;
                   cycle_creator := cycle_creator st;
                   next_player_after_collapse := next_player_after_collapse st;
                   collapse_moves := cms';
                   collapse_index := i |})
  else Raise AssertionError.

(** ** Win evaluation *)

Abbreviation Line := (nat * nat * nat)%type.

Definition lines : list Line :=
  [ (0, 1, 2); (3, 4, 5); (6, 7, 8);
    (0, 3, 6); (1, 4, 7); (2, 5, 8);
    (0, 4, 8); (2, 4, 6) ].

Inductive Outcome : Set :=
| Winner (p : Player) (line : Line) (s : nat)
| WinnerOver (p : Player) (line : Line) (s : nat) (loser : Player * Line * nat)
| DRAW (s : nat).

(** The dict [wins], with its two keys. *)
Record Wins : Set := mkWins { wins_X : list (Line * nat); wins_O : list (Line * nat) }.

Definition wins_get (w : Wins) (p : Player) : list (Line * nat) :=
  match p with X => wins_X w | O => wins_O w end.

Definition wins_append (w : Wins) (p : Player) (e : Line * nat) : Wins :=
  match p with
  | X => mkWins (wins_X w ++ [e]) (wins_O w)
  | O => mkWins (wins_X w) (wins_O w ++ [e])
  end.

Fixpoint scan_lines (board : list (option Ident)) (ls : list Line) (wins : Wins)
  : result Wins :=
  match ls with
  | [] => Ok wins
  | (a, b, c) :: ls' =>
      ca ← getitem board a;
      cb ← getitem board b;
      cc ← getitem board c;
      match ca, cb, cc with
      | Some (pa, ia), Some (pb, ib), Some (pc, ic) =>
          if decide (pa = pb /\ pb = pc)
          then scan_lines board ls' (wins_append wins pa ((a, b, c), ia + ib + ic))
          else scan_lines board ls' wins
      | _, _, _ => scan_lines board ls' wins
      end
  end.

(** [min(ws, key=lambda t: t[1])] on a non-empty list [best :: ws]: the
    first element of least key. *)
Fixpoint min_by_sum (best : Line * nat) (ws : list (Line * nat)) : Line * nat :=
  match ws with
  | [] => best
  | w :: ws' => min_by_sum (if decide (w.2 < best.2) then w else best) ws'
  end.

Definition check_winner (st : Logic) : result (option Outcome) :=
  wins ← scan_lines (collapsed_board st) lines (mkWins [] []);
  match wins_X wins, wins_O wins with
  | [], [] => Ok None
  | x :: xs, [] => let '(line, s) := min_by_sum x xs in Ok (Some (Winner X line s))
  | [], o :: os => let '(line, s) := min_by_sum o os in Ok (Some (Winner O line s))
  | x :: xs, o :: os =>
      let '(x_line, x_sum) := min_by_sum x xs in
      let '(o_line, o_sum) := min_by_sum o os in
      if decide (x_sum < o_sum) then
        Ok (Some (WinnerOver X x_line x_sum (O, o_line, o_sum)))
      else if decide (o_sum < x_sum) then
        Ok (Some (WinnerOver O o_line o_sum (X, x_line, x_sum)))
      else Ok (Some (DRAW x_sum))
  end.

(** * Vocabulary of the properties *)

(** ** Connectivity *)

(** [edge ms x y]: some move of [ms] spans the squares [x] and [y]. *)
Definition edge (ms : list Move) (x y : nat) : Prop :=
  exists m, m ∈ ms /\ (cells m = (x, y) \/ cells m = (y, x)).

(** Reachability along the moves' edges; every square reaches itself. *)
Definition connected (ms : list Move) : nat -> nat -> Prop := rtc (edge ms).

(** [y] is a neighbour of [x] in the adjacency. *)
Definition adj_rel (adj : gmap nat (gset nat)) (x y : nat) : Prop :=
  exists s, adj !! x = Some s /\ y ∈ s.

(** What the search maintains: the queue is visited, the target is not,
    and a visited square that left the queue has all its neighbours
    visited. *)
Definition bfs_inv (adj : gmap nat (gset nat)) (target : nat)
    (q : list nat) (visited : gset nat) : Prop :=
  (forall x, x ∈ q -> x ∈ visited) /\
  (target ∉ visited) /\
  (forall x, x ∈ visited -> x ∈ q \/ forall y, adj_rel adj x y -> y ∈ visited).

(** What the traversal maintains: a neighbour of a collected square is
    collected or waits on the stack. *)
Definition dfs_inv (adj : gmap nat (gset nat)) (stack : list nat) (component : gset nat) : Prop :=
  forall x y, x ∈ component -> adj_rel adj x y -> y ∈ component \/ y ∈ stack.

(** ** Placement and collapse *)

(** The move object that a placement creates. *)
Definition new_move (st : Logic) (cell1 cell2 : nat) : Move :=
  {| player := current_player st;
     index := S (counter_get (move_counter st) (current_player st));
     cells := (cell1, cell2);
     collapsed_to := None |}.

(** The squares swept into an episode opened by the placement
    [(cell1, cell2)]. *)
Definition involved (st : Logic) (cell1 cell2 : nat) : gset nat :=
  Graph.get_connected_component
    (Graph.build_adjacency (moves st ++ [new_move st cell1 cell2])) cell1.

(** What the board records of a move. *)
Definition ident (m : Move) : Ident := (player m, index m).

(** One write of the collapse engine: an implicated move is resolved to
    one of its cells, which was unoccupied, and the board records it. *)
Inductive resolution : list (option Ident) * list Move ->
                       list (option Ident) * list Move -> Prop :=
| resolution_at board ms i m c :
    ms !! i = Some m ->
    cell_in c (cells m) = true ->
    board !! c = Some None ->
    resolution (board, ms)
               (<[c := Some (ident m)]> board, <[i := resolve m c]> ms).

(** The state an accepted selection returns. *)
Definition accepted_state (st : Logic) (cms : list Move) (board : list (option Ident))
    (i : nat) : Logic :=
  {| moves := moves st;
     collapsed_board := board;
     move_counter := move_counter st;
     current_player :=
       if decide (length cms <= i)
       then match next_player_after_collapse st with
            | Some p => p
            | None => current_player st
            end
       else current_player st;
     mode := if decide (length cms <= i) then PLAY else mode st;
     collapse_chooser := collapse_chooser st;
     cycle_creator := cycle_creator st;
     next_player_after_collapse := next_player_after_collapse st;
     collapse_moves := cms;
     collapse_index := i |}.

(** The four ways [collapse_step] returns. *)
Inductive step_case (st : Logic) (chosen_cell : nat) : bool -> Logic -> Prop :=
| case_exhausted :
    length (collapse_moves st) <= collapse_index st ->
    step_case st chosen_cell true st
| case_foreign mv :
    collapse_moves st !! collapse_index st = Some mv ->
    cell_in chosen_cell (cells mv) = false ->
    step_case st chosen_cell false st
| case_occupied mv occupant :
    collapse_moves st !! collapse_index st = Some mv ->
    cell_in chosen_cell (cells mv) = true ->
    collapsed_board st !! chosen_cell = Some (Some occupant) ->
    step_case st chosen_cell false st
| case_accepted mv cms' board' :
    collapse_moves st !! collapse_index st = Some mv ->
    cell_in chosen_cell (cells mv) = true ->
    collapsed_board st !! chosen_cell = Some None ->
    propagate (<[chosen_cell := Some (ident mv)]> (collapsed_board st))
              (<[collapse_index st := resolve mv chosen_cell]> (collapse_moves st))
      = Ok (cms', board') ->
    step_case st chosen_cell true
      (accepted_state st cms' board'
         (advance (drop (collapse_index st) cms') (collapse_index st))).

(** ** Sessions and what they maintain *)

(** The states a session can be in: [reset], then calls that return.  A
    failed assertion raises before anything is written, and a session
    played on the nine squares raises no [IndexError]. *)
Inductive reachable : Logic -> Prop :=
| reach_reset : reachable reset
| reach_place st cell1 cell2 st' :
    reachable st -> add_spooky_move st cell1 cell2 = Ok st' -> reachable st'
| reach_collapse st chosen_cell b st' :
    reachable st -> collapse_step st chosen_cell = Ok (b, st') -> reachable st'.

(** A resolved implicated move is the occupant of its square. *)
Definition board_records (board : list (option Ident)) (ms : list Move) : Prop :=
  forall m s, m ∈ ms -> collapsed_to m = Some s -> board !! s = Some (Some (ident m)).

(** No two implicated moves are resolved to the same square. *)
Definition one_per_square (ms : list Move) : Prop :=
  forall i j m1 m2 s,
    ms !! i = Some m1 -> ms !! j = Some m2 ->
    collapsed_to m1 = Some s -> collapsed_to m2 = Some s -> i = j.

(** An occupied square keeps its occupant. *)
Definition board_grows (board board' : list (option Ident)) : Prop :=
  length board' = length board /\
  forall s occupant, board !! s = Some (Some occupant) -> board' !! s = Some (Some occupant).

(** Moves keep their player, number and cells; a resolved move stays as it is. *)
Definition same_moves (ms ms' : list Move) : Prop :=
  Forall2 (fun m m' => ident m' = ident m /\ cells m' = cells m /\
                       (m' = m \/ exists c, m' = resolve m c)) ms ms'.

(** What every reachable state satisfies. *)
Record engine_inv (st : Logic) : Prop := {
  inv_cursor :
    mode st = COLLAPSE ->
    exists mv, collapse_moves st !! collapse_index st = Some mv /\ collapsed_to mv = None;
  inv_chooser :
    mode st = COLLAPSE ->
    exists creator,
      cycle_creator st = Some creator /\
      collapse_chooser st = Some (other_player creator) /\
      next_player_after_collapse st = Some (other_player creator);
  inv_ledger : forall m, m ∈ moves st -> collapsed_to m = None;
  inv_records : board_records (collapsed_board st) (collapse_moves st);
  inv_unique : one_per_square (collapse_moves st)
}.

(** The cells of the moves are squares of a board of [n] squares. *)
Definition covered (n : nat) (ms : list Move) : Prop :=
  Forall (fun m => (cells m).1 < n /\ (cells m).2 < n) ms.

(** Sessions played on the nine squares. *)
Inductive reachable_on_board : Logic -> Prop :=
| on_board_reset : reachable_on_board reset
| on_board_place st cell1 cell2 st' :
    reachable_on_board st -> cell1 < 9 -> cell2 < 9 ->
    add_spooky_move st cell1 cell2 = Ok st' -> reachable_on_board st'
| on_board_collapse st chosen_cell b st' :
    reachable_on_board st -> collapse_step st chosen_cell = Ok (b, st') ->
    reachable_on_board st'.

(** A move is forced when it is unresolved and exactly one of its cells
    is unoccupied. *)
Definition forced (board : list (option Ident)) (m : Move) : Prop :=
  collapsed_to m = None /\
  exists free, free_cells board (cells m) = Ok free /\ length free = 1.

(** ** Winning lines *)

(** [line_win board p l s]: the three squares of [l] are resolved, all
    belong to [p], and their sequence numbers add up to [s]. *)
Definition line_win (board : list (option Ident)) (p : Player) (l : Line) (s : nat) : Prop :=
  exists ia ib ic,
    board !! l.1.1 = Some (Some (p, ia)) /\
    board !! l.1.2 = Some (Some (p, ib)) /\
    board !! l.2 = Some (Some (p, ic)) /\
    s = ia + ib + ic.



(** The squares of a line are squares of a board of [n] squares. *)
Definition on_board (n : nat) (l : Line) : Prop := l.1.1 < n /\ l.1.2 < n /\ l.2 < n.

(** ** Sample states *)

(** After X places (1,2). *)
Definition one_move : Logic :=
  {| moves := [mkMove X 1 (1, 2) None];
     collapsed_board := replicate 9 None;
     move_counter := mkCounters 1 0;
     current_player := O;
     mode := PLAY;
     collapse_chooser := None;
     cycle_creator := None;
     next_player_after_collapse := None;
     collapse_moves := [];
     collapse_index := 0 |}.

(** After X places (1,2) and O places (0,1). *)
Definition two_moves : Logic :=
  {| moves := [mkMove X 1 (1, 2) None; mkMove O 1 (0, 1) None];
     collapsed_board := replicate 9 None;
     move_counter := mkCounters 1 1;
     current_player := X;
     mode := PLAY;
     collapse_chooser := None;
     cycle_creator := None;
     next_player_after_collapse := None;
     collapse_moves := [];
     collapse_index := 0 |}.

(** X then places (0,2) and closes the loop 0-1-2-0. *)
Definition episode : Logic :=
  {| moves := [];
     collapsed_board := replicate 9 None;
     move_counter := mkCounters 2 1;
     current_player := X;
     mode := COLLAPSE;
     collapse_chooser := Some O;
     cycle_creator := Some X;
     next_player_after_collapse := Some O;
     collapse_moves :=
       [mkMove X 1 (1, 2) None; mkMove O 1 (0, 1) None; mkMove X 2 (0, 2) None];
     collapse_index := 2 |}.

(** O resolves X's second move to square 0.  That forces O's move to
    square 1 in the first pass, which forces X's first move to square 2
    in the second pass. *)
Definition collapsed : Logic :=
  {| moves := [];
     collapsed_board :=
       [Some (X, 2); Some (O, 1); Some (X, 1); None; None; None; None; None; None];
     move_counter := mkCounters 2 1;
     current_player := O;
     mode := PLAY;
     collapse_chooser := Some O;
     cycle_creator := Some X;
     next_player_after_collapse := Some O;
     collapse_moves :=
       [mkMove X 1 (1, 2) (Some 2); mkMove O 1 (0, 1) (Some 1); mkMove X 2 (0, 2) (Some 0)];
     collapse_index := 3 |}.

(** A state no session reaches: COLLAPSE mode with nothing to resolve. *)
Definition stale_episode : Logic :=
  {| moves := [];
     collapsed_board := replicate 9 None;
     move_counter := mkCounters 0 0;
     current_player := X;
     mode := COLLAPSE;
     collapse_chooser := None;
     cycle_creator := None;
     next_player_after_collapse := None;
     collapse_moves := [];
     collapse_index := 0 |}.


(** ** Two claims as the specification words them *)

(** C1, as the specification words it: in COLLAPSE mode a call is
    rejected, returning false and leaving the state as it was, when the
    cursor is past the end, or the square is not a cell of the current
    move, or the square is occupied. *)
Definition rejects_as_specified : Prop :=
  forall st s,
    mode st = COLLAPSE ->
    length (collapse_moves st) <= collapse_index st \/
    (exists mv, collapse_moves st !! collapse_index st = Some mv /\
                cell_in s (cells mv) = false) \/
    (exists occupant, collapsed_board st !! s = Some (Some occupant)) ->
    collapse_step st s = Ok (false, st).

(** C8, as the specification words it: [collapse_step] raises for no
    state and no square. *)
Definition never_raises_as_specified : Prop :=
  forall st s, exists b st', collapse_step st s = Ok (b, st').

(** ** Forced resolutions *)

(** One step of the propagation scan: an unresolved implicated move with
    exactly one unoccupied cell is resolved to that cell. *)
Inductive forcing : list (option Ident) * list Move ->
                    list (option Ident) * list Move -> Prop :=
| forcing_at board ms i m c :
    ms !! i = Some m ->
    collapsed_to m = None ->
    free_cells board (cells m) = Ok [c] ->
    forcing (board, ms)
            (<[c := Some (ident m)]> board, <[i := resolve m c]> ms).

(** ** Move identities *)

(** The identities the board holds, square by square. *)
Definition marks (board : list (option Ident)) : list Ident := omap id board.

(** The identities of the unresolved moves of a list. *)
Definition pending (ms : list Move) : list Ident :=
  ident <$> filter (fun m => collapsed_to m = None) ms.

(** Every identity in play: on the board, in the ledger, or unresolved in
    the implicated list. *)
Definition tokens (st : Logic) : list Ident :=
  marks (collapsed_board st) ++ (ident <$> moves st) ++ pending (collapse_moves st).

(** They are pairwise different and numbered within the counters. *)
Definition tokens_inv (st : Logic) : Prop :=
  NoDup (tokens st) /\
  forall t, t ∈ tokens st -> 1 <= t.2 <= counter_get (move_counter st) t.1.

(** ** The two players exchanged *)

Definition swap_ident (i : Ident) : Ident := (other_player i.1, i.2).

Definition swap_board (board : list (option Ident)) : list (option Ident) :=
  (fun o : option Ident => swap_ident <$> o) <$> board.

Definition swap_wins (w : Wins) : Wins := mkWins (wins_O w) (wins_X w).

Definition swap_outcome (o : Outcome) : Outcome :=
  match o with
  | Winner p l s => Winner (other_player p) l s
  | WinnerOver p l s (q, l', s') => WinnerOver (other_player p) l s (other_player q, l', s')
  | DRAW s => DRAW s
  end.

(** The state with another board. *)
Definition with_board (st : Logic) (board : list (option Ident)) : Logic :=
  {| moves := moves st;
     collapsed_board := board;
     move_counter := move_counter st;
     current_player := current_player st;
     mode := mode st;
     collapse_chooser := collapse_chooser st;
     cycle_creator := cycle_creator st;
     next_player_after_collapse := next_player_after_collapse st;
     collapse_moves := collapse_moves st;
     collapse_index := collapse_index st |}.

(** ** Forests of cell pairs *)

(** [link es x y]: some pair of [es] joins [x] and [y], in either order. *)
Definition link (es : list (nat * nat)) (x y : nat) : Prop :=
  (x, y) ∈ es \/ (y, x) ∈ es.

Definition joined (es : list (nat * nat)) : nat -> nat -> Prop := rtc (link es).

(** A list of pairs in which no pair closes a loop with the pairs before it. *)
Inductive acyclic : list (nat * nat) -> Prop :=
| acyclic_nil : acyclic []
| acyclic_snoc es e :
    acyclic es -> ~ joined es e.1 e.2 -> acyclic (es ++ [e]).

(** ** Legal play *)

(** The square holds a mark. *)
Definition occupied (board : list (option Ident)) (v : nat) : Prop :=
  exists o, board !! v = Some (Some o).

(** Two different squares of the board, both without a mark. *)
Definition free_pair (board : list (option Ident)) (cs : nat * nat) : Prop :=
  cs.1 <> cs.2 /\ board !! cs.1 = Some None /\ board !! cs.2 = Some None.

(** Sessions in which every placement is on two unoccupied squares, as
    the window enforces before it calls the engine. *)
Inductive legal : Logic -> Prop :=
| legal_reset : legal reset
| legal_place st cell1 cell2 st' :
    legal st ->
    collapsed_board st !! cell1 = Some None ->
    collapsed_board st !! cell2 = Some None ->
    add_spooky_move st cell1 cell2 = Ok st' -> legal st'
| legal_collapse st chosen_cell b st' :
    legal st -> collapse_step st chosen_cell = Ok (b, st') -> legal st'.

(** What a run of forced resolutions keeps, [board0] being the board
    before the selection and [nT] the position of the selected move: a
    resolved move sits on one of its cells, and, the selected move apart,
    has both cells occupied; a square occupied since [board0] is the
    square of a resolved move. *)
Definition run_inv (board0 : list (option Ident)) (nT : nat)
    (x : list (option Ident) * list Move) : Prop :=
  (forall i m c, x.2 !! i = Some m -> collapsed_to m = Some c ->
     cell_in c (cells m) = true /\ occupied x.1 c /\
     (i <> nT -> occupied x.1 (cells m).1 /\ occupied x.1 (cells m).2)) /\
  (forall v, occupied x.1 v ->
     occupied board0 v \/ exists i m, x.2 !! i = Some m /\ collapsed_to m = Some v).

(** An episode that has just been opened: the implicated list is a tree
    of unresolved moves on unoccupied squares followed by the move that
    closed the loop, the cursor is on that move, and the ledger shares no
    square with them. *)
Definition fresh_episode (st : Logic) : Prop :=
  exists T new,
    collapse_moves st = T ++ [new] /\
    collapse_index st = length T /\
    (forall m, m ∈ T ++ [new] ->
       collapsed_to m = None /\ free_pair (collapsed_board st) (cells m)) /\
    acyclic (cells <$> T) /\
    (forall m, m ∈ T ++ [new] ->
       joined (cells <$> T) (cells new).1 (cells m).1 /\
       joined (cells <$> T) (cells new).1 (cells m).2) /\
    (forall m m', m ∈ moves st -> m' ∈ T ++ [new] ->
       cell_in (cells m).1 (cells m') = false /\
       cell_in (cells m).2 (cells m') = false).

(** What every legal session maintains. *)
Record legal_inv (st : Logic) : Prop := {
  li_board : length (collapsed_board st) = 9;
  li_ledger : forall m, m ∈ moves st -> free_pair (collapsed_board st) (cells m);
  li_forest : acyclic (cells <$> moves st);
  li_episode : mode st = COLLAPSE -> fresh_episode st;
  li_done : mode st = PLAY -> forall m, m ∈ collapse_moves st -> is_Some (collapsed_to m)
}.

(** The squares that the moves of a list span. *)
Definition squares_of (ms : list Move) : gset nat :=
  list_to_set ((cells <$> ms).*1 ++ (cells <$> ms).*2).

(** * The window: [QuantumTicTacToeGUI]

    The controller of the Tk window, without its pixel geometry.
    - The texts that the window shows are kept by their variable parts:
      a status line is a [Status], a message box a [Dialog], the text of
      a square a list of [Label]s (the lines that ["\n".join] glues).
    - The canvas is the list of its nine squares, each with the options
      that [itemconfig] sets, and the list of the segments drawn between
      the centres of two squares.
    - A message box is an output: a handler returns the new state of the
      window and the boxes it has shown, in order.
    - [QuantumCoin.flip] is an outside call; a handler that makes it
      takes its outcome as an argument: [Some bit], or [None] when the
      call raised. *)

Inductive Label : Set :=
| Classical (p : Player) (idx : nat)
| Spooky (p : Player) (idx : nat).

Inductive Status : Set :=
| Blank
| ChooseFirst (p : Player)
| ChooseSecond (p : Player)
| CollapsePrompt (chooser : option Player) (p : Player) (idx : nat) (a b : nat)
| Finishing
| Contacting (p : Player) (idx : nat)
| Measured (bit : nat) (p : Player) (idx : nat) (first : bool) (cell : nat).

Inductive Dialog : Set :=
| Occupied
| MustBeDifferent
| LoopDetected (creator chooser : option Player)
| NotACell
| SquareOccupied
| ResultDraw (s : nat)
| ResultWinner (p : Player) (line : Line) (s : nat)
| ResultBoth (p : Player) (s : nat) (other : Player) (o_s : nat)
| NotInCollapse
| QuantumError
| AlreadyCollapsed
| CollapseFailed.

Inductive Fill : Set := default_bg | x_classical_bg | o_classical_bg.
Inductive Ink : Set := black | x_fg | o_fg | mixed_fg.
Inductive Font : Set := spooky_font | classical_font.

(** The options of the rectangle and of the text of one square. *)
Record CellView : Set := mkCellView {
  cv_fill : Fill;
  cv_outline : bool;
  cv_text : list Label;
  cv_ink : Ink;
  cv_font : Font
}.

(** A segment between the centres of two squares. *)
Abbreviation Segment := (nat * nat * Ink)%type.

Record Gui : Set := mkGui {
  logic : Logic;
  cell_size : Z;
  temp_first_cell : option nat;
  status_var : Status;
  board_canvas : list CellView;
  line_ids : list Segment
}.

Global Instance Player_countable : Countable Player.
Proof.
  refine (inj_countable' (fun p => match p with X => true | O => false end)
                         (fun b : bool => if b then X else O) _).
  by intros [].
Defined.

Definition with_logic (g : Gui) (st : Logic) : Gui :=
  {| logic := st; cell_size := cell_size g; temp_first_cell := temp_first_cell g;
     status_var := status_var g; board_canvas := board_canvas g; line_ids := line_ids g |}.

Definition with_temp (g : Gui) (t : option nat) : Gui :=
  {| logic := logic g; cell_size := cell_size g; temp_first_cell := t;
     status_var := status_var g; board_canvas := board_canvas g; line_ids := line_ids g |}.

Definition with_status (g : Gui) (s : Status) : Gui :=
  {| logic := logic g; cell_size := cell_size g; temp_first_cell := temp_first_cell g;
     status_var := s; board_canvas := board_canvas g; line_ids := line_ids g |}.

Definition status_text (st : Logic) (temp : option nat) : Status :=
  if decide (mode st = PLAY) then
    if temp is None then ChooseFirst (current_player st)
    else ChooseSecond (current_player st)
  else
    match collapse_moves st !! collapse_index st with
    | Some mv =>
        CollapsePrompt (collapse_chooser st) (player mv) (index mv) (cells mv).1 (cells mv).2
    | None => Finishing
    end.

Definition update_status (g : Gui) : Gui :=
  with_status g (status_text (logic g) (temp_first_cell g)).

(** [f"{m.player}{m.index}"] *)
Definition label_of (m : Move) : Label := Spooky (player m) (index m).

(** [cell_texts[i].append(x)] *)
Definition append_at (texts : list (list Label)) (i : nat) (x : Label)
  : result (list (list Label)) :=
  xs ← getitem texts i; Ok (<[i := xs ++ [x]]> texts).

(** [players_in_cell[i].add(p)] *)
Definition add_at (players : list (gset Player)) (i : nat) (p : Player)
  : result (list (gset Player)) :=
  s ← getitem players i; Ok (<[i := s ∪ {[p]}]> players).

(** The first loop of [update_board_display], over the squares. *)
Fixpoint mark_board (board : list (option Ident)) (squares : list nat)
    (texts : list (list Label)) (players : list (gset Player))
  : result (list (list Label) * list (gset Player)) :=
  match squares with
  | [] => Ok (texts, players)
  | i :: rest =>
      cb ← getitem board i;
      match cb with
      | Some (p, idx) =>
          texts' ← append_at texts i (Classical p idx);
          players' ← add_at players i p;
          mark_board board rest texts' players'
      | None => mark_board board rest texts players
      end
  end.

(** The body of the loops over the moves. *)
Definition mark_move (texts : list (list Label)) (players : list (gset Player)) (m : Move)
  : result (list (list Label) * list (gset Player)) :=
  texts1 ← append_at texts (cells m).1 (label_of m);
  texts2 ← append_at texts1 (cells m).2 (label_of m);
  players1 ← add_at players (cells m).1 (player m);
  players2 ← add_at players1 (cells m).2 (player m);
  Ok (texts2, players2).

(** The loop over [moves] or [collapse_moves]; [unresolved_only] is the
    test [m.collapsed_to is None] of the second. *)
Fixpoint mark_moves (unresolved_only : bool) (ms : list Move)
    (texts : list (list Label)) (players : list (gset Player))
  : result (list (list Label) * list (gset Player)) :=
  match ms with
  | [] => Ok (texts, players)
  | m :: rest =>
      if unresolved_only && bool_decide (collapsed_to m <> None)
      then mark_moves unresolved_only rest texts players
      else
        '(texts', players') ← mark_move texts players m;
        mark_moves unresolved_only rest texts' players'
  end.

(** What the last loop sets on square [i]. *)
Definition cell_view (st : Logic) (temp : option nat) (i : nat)
    (label : list Label) (cb : option Ident) (pset : gset Player) : CellView :=
  match cb with
  | Some (p, _) =>
      {| cv_fill := if p is X then x_classical_bg else o_classical_bg;
         cv_outline := false;
         cv_text := label;
         cv_ink := if p is X then x_fg else o_fg;
         cv_font := classical_font |}
  | None =>
      {| cv_fill := default_bg;
         cv_outline := bool_decide (mode st = PLAY) && bool_decide (temp = Some i);
         cv_text := label;
         cv_ink :=
           if bool_decide (X ∈ pset) && negb (bool_decide (O ∈ pset)) then x_fg
           else if bool_decide (O ∈ pset) && negb (bool_decide (X ∈ pset)) then o_fg
           else if bool_decide (X ∈ pset) && bool_decide (O ∈ pset) then mixed_fg
           else black;
         cv_font := spooky_font |}
  end.

(** The last loop of [update_board_display]. *)
Fixpoint paint (st : Logic) (temp : option nat)
    (texts : list (list Label)) (players : list (gset Player)) (squares : list nat)
  : result (list CellView) :=
  match squares with
  | [] => Ok []
  | i :: rest =>
      label ← getitem texts i;
      cb ← getitem (collapsed_board st) i;
      pset ← getitem players i;
      views ← paint st temp texts players rest;
      Ok (cell_view st temp i label cb pset :: views)
  end.

Definition segment_of (m : Move) : Segment :=
  ((cells m).1, (cells m).2, if player m is X then x_fg else o_fg).

Definition redraw_lines (st : Logic) : list Segment :=
  (segment_of <$> moves st) ++
  (if decide (mode st = COLLAPSE)
   then segment_of <$> filter (fun m => collapsed_to m = None) (collapse_moves st)
   else []).

Definition update_board_display (g : Gui) : result Gui :=
  let st := logic g in
  '(texts, players) ← mark_board (collapsed_board st) (seq 0 9)
                                 (replicate 9 []) (replicate 9 ∅);
  '(texts, players) ← mark_moves false (moves st) texts players;
  '(texts, players) ← (if decide (mode st = COLLAPSE)
                       then mark_moves true (collapse_moves st) texts players
                       else Ok (texts, players));
  views ← paint st (temp_first_cell g) texts players (seq 0 9);
  Ok {| logic := st; cell_size := cell_size g; temp_first_cell := temp_first_cell g;
        status_var := status_var g; board_canvas := views;
        line_ids := redraw_lines st |}.

(** The window as [__init__] leaves it. *)
Definition init (cell_size : Z) : result Gui :=
  update_board_display
    (update_status
       {| logic := reset; cell_size := cell_size; temp_first_cell := None;
          status_var := Blank;
          board_canvas := replicate 9 (mkCellView default_bg false [] black spooky_font);
          line_ids := [] |}).

Definition reset_game (g : Gui) : result Gui :=
  g' ← update_board_display (with_temp (with_logic g reset) None);
  Ok (update_status g').

Definition announce_result_if_any (g : Gui) : result (list Dialog) :=
  r ← check_winner (logic g);
  Ok match r with
     | None => []
     | Some (DRAW s) => [ResultDraw s]
     | Some (Winner p line s) => [ResultWinner p line s]
     | Some (WinnerOver p line s (other, o_line, o_s)) => [ResultBoth p s other o_s]
     end.

Definition handle_play_click (g : Gui) (idx : nat) : result (Gui * list Dialog) :=
  cb ← getitem (collapsed_board (logic g)) idx;
  if cb is Some _ then Ok (g, [Occupied])
  else
    match temp_first_cell g with
    | None =>
        g' ← update_board_display (with_temp g (Some idx));
        Ok (update_status g', [])
    | Some first =>
        if decide (idx = first) then Ok (g, [MustBeDifferent])
        else
          st ← add_spooky_move (logic g) first idx;
          g' ← update_board_display (with_temp (with_logic g st) None);
          Ok (update_status g',
              if decide (mode st = COLLAPSE)
              then [LoopDetected (cycle_creator st) (collapse_chooser st)]
              else [])
    end.

(** What both collapse handlers do once [collapse_step] has returned
    true. *)
Definition after_collapse (g : Gui) (st : Logic) : result (Gui * list Dialog) :=
  g' ← update_board_display (with_logic g st);
  let g'' := update_status g' in
  if decide (mode st = PLAY)
  then ds ← announce_result_if_any g''; Ok (g'', ds)
  else Ok (g'', []).

Definition handle_collapse_click (g : Gui) (idx : nat) : result (Gui * list Dialog) :=
  let st := logic g in
  if decide (length (collapse_moves st) <= collapse_index st) then Ok (g, [])
  else
    mv ← getitem (collapse_moves st) (collapse_index st);
    if negb (cell_in idx (cells mv)) then Ok (g, [NotACell])
    else
      cb ← getitem (collapsed_board st) idx;
      if cb is Some _ then Ok (g, [SquareOccupied])
      else
        '(accepted, st') ← collapse_step st idx;
        if negb accepted then Ok (with_logic g st', [])
        else after_collapse g st'.

Definition on_cell_click (g : Gui) (idx : nat) : result (Gui * list Dialog) :=
  if decide (mode (logic g) = PLAY) then handle_play_click g idx
  else handle_collapse_click g idx.

(** What [on_canvas_click] can raise: [event.x // self.cell_size] with a
    cell size of zero, or what the handler it delegates to raises. *)
Inductive click_exn : Set :=
| ZeroDivisionError
| Raised (e : exn).

(** [event.x] and [event.y] are the pixel coordinates of the click. *)
Definition on_canvas_click (g : Gui) (x y : Z) : click_exn + Gui * list Dialog :=
  if decide (cell_size g = 0%Z) then inl ZeroDivisionError
  else
    let col := (x / cell_size g)%Z in
    let row := (y / cell_size g)%Z in
    if decide ((0 <= col < 3)%Z /\ (0 <= row < 3)%Z) then
      match on_cell_click g (Z.to_nat (row * 3 + col)) with
      | Ok r => inr r
      | Raise e => inl (Raised e)
      end
    else inr (g, []).

Definition quantum_collapse_current_move (g : Gui) (flip : option nat)
  : result (Gui * list Dialog) :=
  let st := logic g in
  if decide (mode st <> COLLAPSE) then Ok (g, [NotInCollapse])
  else if decide (length (collapse_moves st) <= collapse_index st) then Ok (g, [])
  else
    mv ← getitem (collapse_moves st) (collapse_index st);
    let '(a, b) := cells mv in
    let g1 := with_status g (Contacting (player mv) (index mv)) in
    match flip with
    | None => Ok (update_status g1, [QuantumError])
    | Some bit =>
        let chosen_cell := if decide (bit = 0) then a else b in
        cb ← getitem (collapsed_board st) chosen_cell;
        let apply_choice (chosen_cell : nat) : result (Gui * list Dialog) :=
          let g2 := with_status g1
                      (Measured bit (player mv) (index mv)
                                (bool_decide (chosen_cell = a)) chosen_cell) in
          '(accepted, st') ← collapse_step st chosen_cell;
          if negb accepted then Ok (update_status (with_logic g2 st'), [CollapseFailed])
          else after_collapse g2 st' in
        match cb with
        | Some _ =>
            let other := if decide (chosen_cell = a) then b else a in
            cbo ← getitem (collapsed_board st) other;
            if cbo is Some _ then Ok (update_status g1, [AlreadyCollapsed])
            else apply_choice other
        | None => apply_choice chosen_cell
        end
    end.

(** ** Sessions of the window *)

(** What the user can do: click on the canvas, press "New Game", press
    "Quantum collapse" (with the outcome of the coin). *)
Inductive Event : Set :=
| Click (x y : Z)
| NewGame
| QuantumCollapse (flip : option nat).

Definition handle (g : Gui) (e : Event) : click_exn + Gui * list Dialog :=
  match e with
  | Click x y => on_canvas_click g x y
  | NewGame =>
      match reset_game g with
      | Ok g' => inr (g', [])
      | Raise e => inl (Raised e)
      end
  | QuantumCollapse flip =>
      match quantum_collapse_current_move g flip with
      | Ok r => inr r
      | Raise e => inl (Raised e)
      end
  end.

(** The states of a window whose cell size is [size], after any number
    of events that were handled without an exception. *)
Inductive session (size : Z) : Gui -> Prop :=
| session_init g : init size = Ok g -> session size g
| session_event g e g' ds :
    session size g -> handle g e = inr (g', ds) -> session size g'.

(** The window shows the state of the engine. *)
Definition in_sync (g : Gui) : Prop :=
  update_board_display g = Ok g /\ update_status g = g.

(** The labels of the moves of [ms] that touch square [i], in order. *)
Definition labels_on (i : nat) (ms : list Move) : list Label :=
  ms ≫= fun m =>
    (if decide ((cells m).1 = i) then [Spooky (player m) (index m)] else []) ++
    (if decide ((cells m).2 = i) then [Spooky (player m) (index m)] else []).

(** The moves that the window shows as pending. *)
Definition shown_moves (st : Logic) : list Move :=
  moves st ++
  (if decide (mode st = COLLAPSE)
   then filter (fun m => collapsed_to m = None) (collapse_moves st)
   else []).

(** ** What the window shows *)

(** The players with a move of [ms] on square [i]. *)
Definition owners_on (i : nat) (ms : list Move) : gset Player :=
  list_to_set (player <$> filter (fun m => cell_in i (cells m) = true) ms).

(** The label and the owner of a classical mark. *)
Definition mark_label (cb : option Ident) : list Label :=
  match cb with Some (p, idx) => [Classical p idx] | None => [] end.

Definition mark_owner (cb : option Ident) : gset Player :=
  match cb with Some (p, _) => {[p]} | None => ∅ end.

(** Square [i] as it is shown for the state [st] and the selection
    [temp]. *)
Definition view_of (st : Logic) (temp : option nat) (i : nat) : CellView :=
  let cb := default None (collapsed_board st !! i) in
  cell_view st temp i (mark_label cb ++ labels_on i (shown_moves st)) cb
            (mark_owner cb ∪ owners_on i (shown_moves st)).

(** The window with its canvas drawn anew. *)
Definition rendered (g : Gui) : Gui :=
  {| logic := logic g; cell_size := cell_size g; temp_first_cell := temp_first_cell g;
     status_var := status_var g;
     board_canvas := view_of (logic g) (temp_first_cell g) <$> seq 0 9;
     line_ids := redraw_lines (logic g) |}.

(** The moves that a loop of [update_board_display] marks. *)
Definition marked (unresolved_only : bool) (ms : list Move) : list Move :=
  if unresolved_only then filter (fun m => collapsed_to m = None) ms else ms.

(** What every state of a session satisfies: the engine is in a legal
    session, the cell size is the one of the window, a selected first
    square is unoccupied and is only kept in PLAY mode, and the window
    is in sync. *)
Record session_inv (size : Z) (g : Gui) : Prop := {
  si_legal : legal (logic g);
  si_size : cell_size g = size;
  si_temp : forall c, temp_first_cell g = Some c ->
              mode (logic g) = PLAY /\ collapsed_board (logic g) !! c = Some None;
  si_sync : in_sync g
}.

(** A window outside any session, for examples. *)
Definition sample_gui (st : Logic) : Gui :=
  {| logic := st; cell_size := 100; temp_first_cell := None; status_var := Blank;
     board_canvas := []; line_ids := [] |}.

(** The window after a list of events, if none of them raised. *)
Fixpoint run (g : Gui) (es : list Event) : option Gui :=
  match es with
  | [] => Some g
  | e :: es' =>
      match handle g e with
      | inr (g', _) => run g' es'
      | inl _ => None
      end
  end.

(** The window of cell size 100 as it opens, and after the three
    placements (1,2), (0,1), (0,2) of the sample session. *)
Definition start : Gui := rendered (update_status (sample_gui reset)).

Definition loop_closed : Gui := update_status (rendered (sample_gui episode)).

(** The click in the middle of a square, for cell size 100. *)
Definition click_on (idx : nat) : Event :=
  Click (Z.of_nat (idx mod 3) * 100 + 50) (Z.of_nat (idx / 3) * 100 + 50).

(** What a handler returns to its caller. *)
Definition returned (r : result (Gui * list Dialog)) : click_exn + Gui * list Dialog :=
  match r with
  | Ok r => inr r
  | Raise e => inl (Raised e)
  end.

(** Player [p] has a move of [ms] on square [i]. *)
Definition plays_on (p : Player) (i : nat) (ms : list Move) : Prop :=
  exists m, m ∈ ms /\ player m = p /\ cell_in i (cells m) = true.

(** * Properties *)

(** ** The graph of the unresolved moves *)

Section GraphFacts.

Lemma adj_rel_neighbours adj x y :
  y ∈ Graph.neighbours adj x <-> adj_rel adj x y.
Proof.
  unfold Graph.neighbours, adj_rel. destruct (adj !! x) as [s|].
  - rewrite elem_of_elements. naive_solver.
  - rewrite elem_of_nil. naive_solver.
Qed.

Lemma adj_rel_add_neighbour adj a b x y :
  adj_rel (Graph.add_neighbour adj a b) x y <-> adj_rel adj x y \/ (x = a /\ y = b).
Proof.
  unfold adj_rel, Graph.add_neighbour. destruct (decide (x = a)) as [->|Hne].
  - rewrite lookup_insert_eq. destruct (adj !! a) as [s|]; simpl; split.
    + intros (s' & [= <-] & [->%elem_of_singleton|Hy]%elem_of_union); eauto.
    + intros [(s' & [= <-] & Hy)|[_ ->]]; eexists; split; try done; set_solver.
    + intros (s' & [= <-] & Hy). right. split; [done|]. set_solver.
    + intros [(s' & ? & _)|[_ ->]]; [done|]. eexists; split; [done|]. set_solver.
  - rewrite lookup_insert_ne by done. naive_solver.
Qed.

Lemma adj_rel_add_edge adj m x y :
  adj_rel (Graph.add_edge adj m) x y <->
  adj_rel adj x y \/ cells m = (x, y) \/ cells m = (y, x).
Proof.
  unfold Graph.add_edge. destruct (cells m) as [a b].
  rewrite !adj_rel_add_neighbour. naive_solver.
Qed.

Lemma adj_rel_foldl ms adj x y :
  adj_rel (foldl Graph.add_edge adj ms) x y <-> adj_rel adj x y \/ edge ms x y.
Proof.
  revert adj. induction ms as [|m ms IH]; intros adj; simpl.
  - unfold edge. split; [auto|]. intros [?|(m & Hm%elem_of_nil & _)]; done.
  - rewrite IH, adj_rel_add_edge. unfold edge. split.
    + intros [[?|?]|(m' & ? & ?)]; auto.
      * right. exists m. split; [left|]; done.
      * right. exists m'. split; [by right|done].
    + intros [?|(m' & [->|?]%elem_of_cons & ?)]; auto.
      right. by exists m'.
Qed.

Lemma adj_rel_build ms x y :
  adj_rel (Graph.build_adjacency ms) x y <-> edge ms x y.
Proof.
  unfold Graph.build_adjacency. rewrite adj_rel_foldl. unfold adj_rel.
  rewrite lookup_empty. naive_solver.
Qed.

(** *** Breadth-first search *)

Lemma bfs_scan_found target vs q visited :
  Graph.bfs_scan target vs q visited = None -> target ∈ vs.
Proof.
  revert q visited. induction vs as [|v vs IH]; intros q visited; simpl; [done|].
  destruct (decide (v = target)) as [->|]; [intros; by left|].
  destruct (decide (v ∈ visited)); intros ?%IH; by right.
Qed.

Lemma bfs_scan_next target vs q visited q' visited' :
  Graph.bfs_scan target vs q visited = Some (q', visited') ->
  (target ∉ vs) /\
  (forall x, x ∈ q' <-> x ∈ q \/ (x ∈ vs /\ x ∉ visited)) /\
  (forall x, x ∈ visited' <-> x ∈ visited \/ x ∈ vs).
Proof.
  revert q visited. induction vs as [|v vs IH]; intros q visited; simpl.
  - intros [= <- <-]. set_solver.
  - destruct (decide (v = target)); [done|].
    destruct (decide (v ∈ visited)); intros (Ht & Hq & Hv)%IH.
    + split; [set_solver|]. split; intros x; [rewrite Hq|rewrite Hv]; set_solver.
    + split; [set_solver|]. split; intros x; [rewrite Hq|rewrite Hv].
      * rewrite elem_of_app. destruct (decide (x = v)); set_solver.
      * set_solver.
Qed.

Lemma bfs_loop_sound adj target q visited :
  Graph.bfs_loop adj target q visited = true ->
  exists u, u ∈ q /\ rtc (adj_rel adj) u target.
Proof.
  funelim (Graph.bfs_loop adj target q visited); [done| |].
  - intros Hres.
    match goal with IH : _ -> exists _, _ |- _ => destruct (IH Hres) as (w & Hw & Hpath) end.
    destruct (bfs_scan_next _ _ _ _ _ _ Hscan) as (_ & Hq & _).
    apply Hq in Hw as [Hw|[Hw _]].
    + exists w. split; [by right|done].
    + exists u. split; [by left|].
      eapply rtc_l; [|exact Hpath]. by apply adj_rel_neighbours.
  - intros _. exists u. split; [by left|]. apply rtc_once.
    apply adj_rel_neighbours.
    match goal with E : Graph.bfs_scan _ _ _ _ = None |- _ =>
      exact (bfs_scan_found _ _ _ _ E) end.
Qed.

Lemma bfs_loop_complete adj target q visited :
  bfs_inv adj target q visited ->
  Graph.bfs_loop adj target q visited = false ->
  exists W : gset nat,
    visited ⊆ W /\ (target ∉ W) /\ (forall x y, x ∈ W -> adj_rel adj x y -> y ∈ W).
Proof.
  funelim (Graph.bfs_loop adj target q visited); [| |done].
  - intros (_ & Ht & Hclosed) _. exists visited. split; [done|]. split; [done|].
    intros x y Hx. destruct (Hclosed x Hx) as [[]%elem_of_nil|Hc]. apply Hc.
  - intros (Hq & Ht & Hclosed) Hres.
    destruct (bfs_scan_next _ _ _ _ _ _ Hscan) as (Hnt & Hq' & Hv').
    match goal with IH : bfs_inv _ _ _ _ -> _ |- _ =>
      destruct IH as (W & HW & HtW & HWc) end; [|done|].
    + split; [|split].
      * intros x [Hx|[Hx _]]%Hq'; apply Hv'; [left; apply Hq; by right|by right].
      * rewrite Hv'. intros [?|?]; done.
      * intros x [Hx|Hx]%Hv'.
        -- destruct (Hclosed x Hx) as [[->|Hxq]%elem_of_cons|Hc].
           ++ right. intros y Hy%adj_rel_neighbours. apply Hv'. by right.
           ++ left. apply Hq'. by left.
           ++ right. intros y Hy. apply Hv'. left. by apply Hc.
        -- destruct (decide (x ∈ visited)) as [Hin|Hnin].
           ++ destruct (Hclosed x Hin) as [[->|Hxq]%elem_of_cons|Hc].
              ** right. intros y Hy%adj_rel_neighbours. apply Hv'. by right.
              ** left. apply Hq'. by left.
              ** right. intros y Hy. apply Hv'. left. by apply Hc.
           ++ left. apply Hq'. by right.
    + exists W. split; [|done]. intros x Hx. apply HW, Hv'. by left.
Qed.

Lemma rtc_closed {A} (R : relation A) (P : A -> Prop) x y :
  (forall a b, P a -> R a b -> P b) -> rtc R x y -> P x -> P y.
Proof. intros Hc. induction 1; eauto. Qed.

Lemma bfs_reachable_spec adj start target :
  Graph.bfs_reachable adj start target = true <-> rtc (adj_rel adj) start target.
Proof.
  unfold Graph.bfs_reachable. destruct (decide (start = target)) as [->|Hne].
  { split; [intros _; apply rtc_refl|done]. }
  split.
  - intros (u & ->%list_elem_of_singleton & Hp)%bfs_loop_sound. done.
  - intros Hpath.
    destruct (Graph.bfs_loop adj target [start] {[start]}) eqn:Hres; [done|].
    apply bfs_loop_complete in Hres as (W & HW & HtW & HWc).
    + exfalso. apply HtW.
      apply (rtc_closed (adj_rel adj) (fun x => x ∈ W) start target); [eauto|done|].
      apply HW. set_solver.
    + split; [|split].
      * intros x ->%list_elem_of_singleton. set_solver.
      * set_solver.
      * intros x ->%elem_of_singleton. left. by left.
Qed.

Lemma rtc_adj_rel_build ms x y :
  rtc (adj_rel (Graph.build_adjacency ms)) x y <-> connected ms x y.
Proof.
  unfold connected. split; induction 1; try apply rtc_refl;
    (eapply rtc_l; [|eassumption]); by apply adj_rel_build.
Qed.

(** *** Depth-first traversal *)

Lemma dfs_push_elem vs component stack x :
  x ∈ Graph.dfs_push vs component stack <-> x ∈ stack \/ (x ∈ vs /\ x ∉ component).
Proof.
  revert stack. induction vs as [|v vs IH]; intros stack; simpl.
  - set_solver.
  - destruct (decide (v ∈ component)); rewrite IH.
    + set_solver.
    + rewrite !elem_of_cons. destruct (decide (x = v)); set_solver.
Qed.

Lemma dfs_loop_sound adj stack component x :
  x ∈ Graph.dfs_loop adj stack component ->
  x ∈ component \/ exists s, s ∈ stack /\ rtc (adj_rel adj) s x.
Proof.
  funelim (Graph.dfs_loop adj stack component).
  - auto.
  - intros Hx.
    match goal with IH : forall z, z ∈ _ -> _ |- _ => destruct (IH _ Hx) as [?|(s & Hs & Hp)] end;
      [by left|].
    right. exists s. split; [by right|done].
  - intros Hx.
    match goal with IH : forall z, z ∈ _ -> _ |- _ => destruct (IH _ Hx) as [Hc|(s & Hs & Hp)] end.
    + apply elem_of_union in Hc as [->%elem_of_singleton|Hc]; [|by left].
      right. exists node. split; [by left|apply rtc_refl].
    + right. apply dfs_push_elem in Hs as [Hs|[Hs _]].
      * exists s. split; [by right|done].
      * exists node. split; [by left|].
        eapply rtc_l; [|exact Hp]. by apply adj_rel_neighbours.
Qed.

Lemma dfs_loop_complete adj stack component :
  dfs_inv adj stack component ->
  let r := Graph.dfs_loop adj stack component in
  component ⊆ r /\ (forall s, s ∈ stack -> s ∈ r) /\
  (forall x y, x ∈ r -> adj_rel adj x y -> y ∈ r).
Proof.
  funelim (Graph.dfs_loop adj stack component); intros Hinv; simpl.
  - split; [done|]. split; [by intros ? ?%elem_of_nil|].
    intros x y Hx Hxy. destruct (Hinv x y Hx Hxy) as [?|?%elem_of_nil]; done.
  - match goal with IH : dfs_inv _ _ _ -> _ |- _ =>
      destruct IH as (Hc & Hs & Hcl) end.
    { intros x y Hx Hxy.
      destruct (Hinv x y Hx Hxy) as [?|[->|?]%elem_of_cons]; auto. }
    split; [done|]. split; [|done].
    intros s [->|?]%elem_of_cons; [by apply Hc|by apply Hs].
  - match goal with IH : dfs_inv _ _ _ -> _ |- _ =>
      destruct IH as (Hc & Hs & Hcl) end.
    { intros x y [->%elem_of_singleton|Hx]%elem_of_union Hxy.
      - destruct (decide (y ∈ {[node]} ∪ component)); [by left|].
        right. apply dfs_push_elem. right. split; [|done].
        by apply adj_rel_neighbours.
      - destruct (Hinv x y Hx Hxy) as [?|[->|?]%elem_of_cons].
        + left. set_solver.
        + left. set_solver.
        + right. apply dfs_push_elem. by left. }
    split; [set_solver|]. split; [|done].
    intros s [->|?]%elem_of_cons; [apply Hc; set_solver|].
    apply Hs, dfs_push_elem. by left.
Qed.

Lemma get_connected_component_spec adj start x :
  x ∈ Graph.get_connected_component adj start <-> rtc (adj_rel adj) start x.
Proof.
  unfold Graph.get_connected_component. split.
  - intros [[]%elem_of_empty|(s & ->%list_elem_of_singleton & Hp)]%dfs_loop_sound. done.
  - intros Hp. destruct (dfs_loop_complete adj [start] ∅) as (_ & Hs & Hcl).
    { intros ? ? []%elem_of_empty. }
    apply (rtc_closed (adj_rel adj)
             (fun z => z ∈ Graph.dfs_loop adj [start] ∅) start x); [eauto|done|].
    apply Hs. by left.
Qed.

End GraphFacts.

(** ** Placement *)

Section Placement.

Lemma tagged_from_app i l1 l2 :
  tagged_from i (l1 ++ l2) = tagged_from i l1 ++ tagged_from (i + length l1) l2.
Proof.
  revert i. induction l1 as [|m l1 IH]; intros i; simpl.
  - by rewrite Nat.add_0_r.
  - rewrite IH. do 3 f_equal. lia.
Qed.

Lemma tagged_from_bounds i l t m :
  (t, m) ∈ tagged_from i l -> i <= t < i + length l.
Proof.
  revert i. induction l as [|m' l IH]; intros i; simpl.
  - by intros ?%elem_of_nil.
  - intros [[= -> ->]|Hin%IH]%elem_of_cons; lia.
Qed.

Lemma filter_tagged_from (P : Move -> Prop) `{!forall m, Decision (P m)} i l :
  (filter (fun tm => P tm.2) (tagged_from i l)).*2 = filter P l.
Proof.
  revert i. induction l as [|m l IH]; intros i; simpl; [done|].
  rewrite !filter_cons. simpl. destruct (decide (P m)); simpl; by rewrite IH.
Qed.

Lemma partition_moves_spec involved ms to_collapse to_keep :
  partition_moves involved ms to_collapse to_keep =
  (to_collapse ++ filter (fun tm => (cells tm.2).1 ∈ involved) ms,
   to_keep ++ filter (fun tm => (cells tm.2).1 ∉ involved) ms).
Proof.
  revert to_collapse to_keep.
  induction ms as [|m ms IH]; intros to_collapse to_keep; simpl.
  - by rewrite !app_nil_r.
  - rewrite !filter_cons. destruct (decide ((cells m.2).1 ∈ involved)) as [Hin|Hin].
    + rewrite IH, decide_False by auto. by rewrite <- app_assoc.
    + rewrite IH, decide_True by auto. by rewrite <- app_assoc.
Qed.

Lemma find_identity_app t l m l' i :
  (forall tm, tm ∈ l -> tm.1 <> t) ->
  find_identity t (l ++ (t, m) :: l') i = Some (i + length l).
Proof.
  revert i. induction l as [|tm l IH]; intros i Hl; simpl.
  - rewrite decide_True by done. f_equal. lia.
  - rewrite decide_False by (apply Hl; by left).
    rewrite IH by (intros; apply Hl; by right). f_equal. lia.
Qed.

Lemma counter_get_incr c p : counter_get (counter_incr c p) p = S (counter_get c p).
Proof. by destruct p. Qed.

Lemma counter_get_incr_other c p : 
  counter_get (counter_incr c p) (other_player p) = counter_get c (other_player p).
Proof. by destruct p. Qed.

Lemma involved_spec st cell1 cell2 x :
  x ∈ involved st cell1 cell2 <->
  connected (moves st ++ [new_move st cell1 cell2]) cell1 x.
Proof.
  unfold involved. by rewrite get_connected_component_spec, rtc_adj_rel_build.
Qed.

Lemma add_spooky_move_loop st cell1 cell2 :
  mode st = PLAY -> cell1 <> cell2 ->
  would_create_loop st (cell1, cell2) = true ->
  let inv := involved st cell1 cell2 in
  add_spooky_move st cell1 cell2 =
  Ok {| moves := filter (fun m => (cells m).1 ∉ inv) (moves st);
        collapsed_board := collapsed_board st;
        move_counter := counter_incr (move_counter st) (current_player st);
        current_player := current_player st;
        mode := COLLAPSE;
        collapse_chooser := Some (other_player (current_player st));
        cycle_creator := Some (current_player st);
        next_player_after_collapse := Some (other_player (current_player st));
        collapse_moves :=
          filter (fun m => (cells m).1 ∈ inv) (moves st) ++ [new_move st cell1 cell2];
        collapse_index := length (filter (fun m => (cells m).1 ∈ inv) (moves st)) |}.
Proof.
  intros Hmode Hne Hloop inv. unfold add_spooky_move.
  rewrite decide_True by done. rewrite decide_True by done. rewrite Hloop.
  rewrite counter_get_incr. fold (new_move st cell1 cell2). fold (involved st cell1 cell2).
  fold inv. rewrite partition_moves_spec. simpl.
  assert (cell1 ∈ inv) as Hin by (apply involved_spec, rtc_refl).
  unfold tagged. rewrite tagged_from_app, !filter_app. simpl.
  rewrite !filter_cons, !filter_nil. simpl.
  destruct (decide (cell1 ∈ inv)); [|done].
  destruct (decide (cell1 ∉ inv)); [done|].
  rewrite app_nil_r, fmap_app.
  pose proof (filter_tagged_from (fun m => (cells m).1 ∈ inv) 0 (moves st)) as Hc.
  pose proof (filter_tagged_from (fun m => (cells m).1 ∉ inv) 0 (moves st)) as Hk.
  do 2 f_equal.
  - exact Hk.
  - simpl. f_equal. exact Hc.
  - rewrite find_identity_app.
    + simpl. rewrite <- Hc. by rewrite length_fmap.
    + intros [t m] [_ Htm]%list_elem_of_filter. apply tagged_from_bounds in Htm.
      simpl. lia.
Qed.

Lemma add_spooky_move_no_loop st cell1 cell2 :
  mode st = PLAY -> cell1 <> cell2 ->
  would_create_loop st (cell1, cell2) = false ->
  add_spooky_move st cell1 cell2 =
  Ok {| moves := moves st ++ [new_move st cell1 cell2];
        collapsed_board := collapsed_board st;
        move_counter := counter_incr (move_counter st) (current_player st);
        current_player := other_player (current_player st);
        mode := PLAY;
        collapse_chooser := collapse_chooser st;
        cycle_creator := cycle_creator st;
        next_player_after_collapse := next_player_after_collapse st;
        collapse_moves := collapse_moves st;
        collapse_index := collapse_index st |}.
Proof.
  intros Hmode Hne Hloop. unfold add_spooky_move.
  rewrite decide_True by done. rewrite decide_True by done. rewrite Hloop.
  rewrite counter_get_incr. by rewrite Hmode.
Qed.

Lemma add_spooky_move_inv st cell1 cell2 st' :
  add_spooky_move st cell1 cell2 = Ok st' -> mode st = PLAY /\ cell1 <> cell2.
Proof.
  unfold add_spooky_move. destruct (decide (mode st = PLAY)); [|done].
  destruct (decide (cell1 ≠ cell2)); done.
Qed.

Lemma would_create_loop_spec st a b :
  would_create_loop st (a, b) = true <-> connected (moves st) a b.
Proof.
  unfold would_create_loop. by rewrite bfs_reachable_spec, rtc_adj_rel_build.
Qed.

End Placement.

(** Case analysis on a placement that returned: it closed a loop or it
    did not; [Hplace] is replaced by the state it returned. *)
Ltac place_cases Hplace :=
  let Hmode := fresh "Hmode" in
  let Hne := fresh "Hne" in
  let Hloop := fresh "Hloop" in
  destruct (add_spooky_move_inv _ _ _ _ Hplace) as [Hmode Hne];
  match type of Hplace with
  | add_spooky_move ?st ?a ?b = _ =>
      destruct (would_create_loop st (a, b)) eqn:Hloop;
      [rewrite add_spooky_move_loop in Hplace by done
      |rewrite add_spooky_move_no_loop in Hplace by done];
      injection Hplace as <-
  end.

(** ** Collapse: every change is an elementary resolution *)

Section Resolution.

Lemma getitem_Ok {A} (l : list A) i x : getitem l i = Ok x <-> l !! i = Some x.
Proof. unfold getitem. destruct (l !! i); naive_solver. Qed.

Lemma setitem_Ok {A} (l l' : list A) i x :
  setitem l i x = Ok l' <-> i < length l /\ l' = <[i:=x]> l.
Proof. unfold setitem. destruct (decide (i < length l)); naive_solver. Qed.

Lemma free_cells_Ok board cs free :
  free_cells board cs = Ok free ->
  exists oa ob, board !! cs.1 = Some oa /\ board !! cs.2 = Some ob /\
    free = (if oa is None then [cs.1] else []) ++ (if ob is None then [cs.2] else []).
Proof.
  unfold free_cells. destruct (getitem board cs.1) as [oa|] eqn:Ha; [|done]. simpl.
  destruct (getitem board cs.2) as [ob|] eqn:Hb; [|done]. simpl.
  intros [= <-]. apply getitem_Ok in Ha, Hb. eauto.
Qed.

Lemma free_cells_single board cs c :
  free_cells board cs = Ok [c] -> cell_in c cs = true /\ board !! c = Some None.
Proof.
  intros (oa & ob & Ha & Hb & Hfree)%free_cells_Ok. unfold cell_in.
  destruct oa, ob; simplify_eq/=.
  - split; [|done]. rewrite orb_true_iff. right. by apply bool_decide_eq_true.
  - split; [|done]. rewrite orb_true_iff. left. by apply bool_decide_eq_true.
Qed.

Lemma propagate_pass_resolutions board ms changed ms' board' changed' prefix :
  propagate_pass board ms changed = Ok (ms', board', changed') ->
  rtc resolution (board, prefix ++ ms) (board', prefix ++ ms').
Proof.
  revert board changed ms' board' changed' prefix.
  induction ms as [|m rest IH]; intros board changed ms' board' changed' prefix; simpl.
  - intros [= <- <- <-]. apply rtc_refl.
  - assert (forall b ch, ('(rest', b', ch') ← propagate_pass b rest ch;
                           Ok (m :: rest', b', ch')) = Ok (ms', board', changed') ->
              rtc resolution (b, prefix ++ m :: rest) (board', prefix ++ ms')) as Hskip.
    { intros b ch. destruct (propagate_pass b rest ch) as [[[r1 b1] c1]|] eqn:E; [|done].
      simpl. intros [= <- <- <-]. rewrite !(cons_middle m), !app_assoc. by eapply IH. }
    destruct (collapsed_to m) as [c|] eqn:Hm; [apply Hskip|].
    destruct (free_cells board (cells m)) as [free|] eqn:Hf; [|done]. simpl.
    destruct free as [|c [|c' free]]; [apply Hskip| |apply Hskip].
    destruct (setitem board c (Some (player m, index m))) as [b1|] eqn:Hs; [|done].
    simpl. destruct (propagate_pass b1 rest true) as [[[r2 b2] c2]|] eqn:E; [|done].
    simpl. intros [= <- <- <-].
    apply free_cells_single in Hf as [Hin Hfree]. apply setitem_Ok in Hs as [_ ->].
    eapply rtc_l.
    + apply (resolution_at board (prefix ++ m :: rest) (length prefix) m c); [|done..].
      by apply list_lookup_middle.
    + replace (<[length prefix := resolve m c]> (prefix ++ m :: rest))
        with ((prefix ++ [resolve m c]) ++ rest).
      * replace (prefix ++ resolve m c :: r2)
          with ((prefix ++ [resolve m c]) ++ r2) by (by rewrite <- app_assoc).
        by eapply IH.
      * rewrite <- app_assoc. simpl.
        rewrite insert_app_r_alt by lia. by rewrite Nat.sub_diag.
Qed.

Lemma propagate_resolutions board ms ms' board' :
  propagate board ms = Ok (ms', board') ->
  rtc resolution (board, ms) (board', ms').
Proof.
  funelim (propagate board ms); [| |done].
  - intros Hres. etrans; [|eauto].
    exact (propagate_pass_resolutions _ _ _ _ _ _ [] Hpass).
  - intros [= <- <-].
    match goal with E : propagate_pass _ _ _ = _ |- _ =>
      exact (propagate_pass_resolutions _ _ _ _ _ _ [] E) end.
Qed.

Lemma collapse_step_cases st chosen_cell b st' :
  collapse_step st chosen_cell = Ok (b, st') <->
  mode st = COLLAPSE /\ step_case st chosen_cell b st'.
Proof.
  unfold collapse_step. destruct (decide (mode st = COLLAPSE)) as [Hmode|Hmode];
    [|split; [done|by intros [? _]]].
  destruct (decide (length (collapse_moves st) <= collapse_index st)) as [Hend|Hend].
  { split.
    - intros [= <- <-]. split; [done|]. by constructor.
    - intros [_ Hcase]. destruct Hcase as [?|mv Hmv|mv ? Hmv|mv ? ? Hmv]; try done;
        apply lookup_lt_Some in Hmv; lia. }
  destruct (collapse_moves st !! collapse_index st) as [mv|] eqn:Hmv;
    [|apply lookup_ge_None in Hmv; lia].
  rewrite (proj2 (getitem_Ok _ _ _) Hmv). simpl.
  destruct (cell_in chosen_cell (cells mv)) eqn:Hin; simpl.
  2:{ split.
      - intros [= <- <-]. split; [done|]. by econstructor 2.
      - intros [_ Hcase]. destruct Hcase; simplify_eq; solve [done|lia|congruence]. }
  destruct (collapsed_board st !! chosen_cell) as [occ|] eqn:Hocc.
  2:{ unfold getitem. rewrite Hocc. simpl.
      split; [done|]. intros [_ Hcase]. destruct Hcase; simplify_eq; solve [done|lia|congruence]. }
  rewrite (proj2 (getitem_Ok _ _ _) Hocc). simpl.
  destruct occ as [occ|].
  { split.
    - intros [= <- <-]. split; [done|]. by econstructor 3.
    - intros [_ Hcase]. destruct Hcase; simplify_eq; solve [done|lia|congruence]. }
  unfold setitem. rewrite decide_True by (by eapply lookup_lt_Some). simpl.
  fold (ident mv).
  destruct (propagate _ _) as [[cms' board']|] eqn:Hprop; simpl.
  2:{ split; [done|]. intros [_ Hcase]. destruct Hcase; simplify_eq; solve [done|lia|congruence]. }
  split.
  - intros Hres. split; [done|].
    assert ((b, st') = (true, accepted_state st cms' board'
              (advance (drop (collapse_index st) cms') (collapse_index st)))) as [= -> ->].
    { unfold accepted_state. destruct (decide _); by simplify_eq. }
    by econstructor 4.
  - intros [_ Hcase]. destruct Hcase; simplify_eq; try solve [done|lia|congruence].
    match goal with H : propagate _ _ = Ok (_, _) |- _ =>
      rewrite Hprop in H; simplify_eq end.
    unfold accepted_state. by destruct (decide _).
Qed.

End Resolution.

(** ** Invariants of the reachable states *)

Section Invariants.

Lemma same_moves_refl ms : same_moves ms ms.
Proof. apply Forall2_same_length_lookup_2; [done|]. intros i m m' ? ?. simplify_eq. eauto. Qed.

Lemma same_moves_trans ms1 ms2 ms3 :
  same_moves ms1 ms2 -> same_moves ms2 ms3 -> same_moves ms1 ms3.
Proof.
  unfold same_moves. intros H12 H23. revert ms3 H23.
  induction H12 as [|m1 m2 l1 l2 (Hid & Hc & H12) _ IH]; intros ms3 H23.
  - by inversion H23.
  - inversion H23 as [|? m3 ? l3 (Hid' & Hc' & H23') Hl]; subst.
    constructor; [|by apply IH]. split; [congruence|]. split; [congruence|].
    destruct H12 as [->|[c ->]], H23' as [->|[c' ->]]; eauto.
Qed.

Lemma resolution_same_moves board ms board' ms' :
  resolution (board, ms) (board', ms') -> same_moves ms ms'.
Proof.
  inversion 1 as [? ? i m c Hm Hin Hfree]; subst.
  apply Forall2_same_length_lookup_2; [by rewrite length_insert|].
  intros j m1 m2 H1 H2. destruct (decide (i = j)) as [->|Hne].
  - rewrite list_lookup_insert_eq in H2 by (by eapply lookup_lt_Some).
    simplify_eq. eauto.
  - rewrite list_lookup_insert_ne in H2 by done. simplify_eq. eauto.
Qed.

Lemma resolution_board_grows board ms board' ms' :
  resolution (board, ms) (board', ms') -> board_grows board board'.
Proof.
  inversion 1 as [? ? i m c Hm Hin Hfree]; subst. split; [by rewrite length_insert|].
  intros s occ Hs. rewrite list_lookup_insert_ne; [done|]. congruence.
Qed.

Lemma resolution_board_records board ms board' ms' :
  resolution (board, ms) (board', ms') ->
  board_records board ms -> board_records board' ms'.
Proof.
  inversion 1 as [? ? i m c Hm Hin Hfree]; subst. intros Hrec m' s Hm' Hs.
  apply list_elem_of_lookup in Hm' as [j Hj].
  destruct (decide (i = j)) as [->|Hne].
  - rewrite list_lookup_insert_eq in Hj by (by eapply lookup_lt_Some).
    simplify_eq/=. apply list_lookup_insert_eq. by eapply lookup_lt_Some.
  - rewrite list_lookup_insert_ne in Hj by done.
    assert (board !! s = Some (Some (ident m'))) as Hold.
    { apply Hrec; [|done]. apply list_elem_of_lookup. eauto. }
    rewrite list_lookup_insert_ne; [done|]. congruence.
Qed.

Lemma resolution_one_per_square board ms board' ms' :
  resolution (board, ms) (board', ms') ->
  board_records board ms -> one_per_square ms -> one_per_square ms'.
Proof.
  inversion 1 as [? ? i m c Hm Hin Hfree]; subst. intros Hrec Huniq j k m1 m2 s H1 H2 Hs1 Hs2.
  assert (forall n m', n <> i -> ms !! n = Some m' -> collapsed_to m' = Some c -> False)
    as Hfresh.
  { intros n m' _ Hn Hc. assert (board !! c = Some (Some (ident m'))); [|congruence].
    apply Hrec; [|done]. apply list_elem_of_lookup. eauto. }
  assert (i < length ms) by (by eapply lookup_lt_Some).
  destruct (decide (j = i)) as [->|Hj], (decide (k = i)) as [->|Hk]; [done|..].
  - rewrite list_lookup_insert_eq in H1 by done.
    rewrite list_lookup_insert_ne in H2 by done. simplify_eq/=.
    by destruct (Hfresh k m2).
  - rewrite list_lookup_insert_ne in H1 by done.
    rewrite list_lookup_insert_eq in H2 by done. simplify_eq/=.
    by destruct (Hfresh j m1).
  - rewrite list_lookup_insert_ne in H1, H2 by done. by eapply Huniq.
Qed.

(** What a run of resolutions keeps. *)
Lemma resolutions_preserve x y :
  rtc resolution x y ->
  same_moves x.2 y.2 /\ board_grows x.1 y.1 /\
  (board_records x.1 x.2 -> one_per_square x.2 ->
   board_records y.1 y.2 /\ one_per_square y.2).
Proof.
  induction 1 as [[b ms]|[b ms] [b1 ms1] [b2 ms2] Hstep _ (Hsame & Hgrow & Hinv)]; simpl in *.
  - split; [apply same_moves_refl|]. split; [by split|]. auto.
  - split; [|split].
    + eapply same_moves_trans; [|done]. by eapply resolution_same_moves.
    + apply resolution_board_grows in Hstep as [Hl Hocc]. destruct Hgrow as [Hl' Hocc'].
      split; [congruence|auto].
    + intros Hrec Huniq. apply Hinv.
      * by eapply resolution_board_records.
      * by eapply resolution_one_per_square.
Qed.

Lemma same_moves_length ms ms' : same_moves ms ms' -> length ms' = length ms.
Proof. intros H. symmetry. by eapply Forall2_length. Qed.

Lemma advance_spec rest i :
  let j := advance rest i in
  i <= j <= i + length rest /\
  (j < i + length rest ->
   exists m, rest !! (j - i) = Some m /\ collapsed_to m = None).
Proof.
  revert i. induction rest as [|m rest IH]; intros i; simpl.
  - split; lia.
  - destruct (collapsed_to m) as [c|] eqn:Hm.
    + destruct (IH (S i)) as [Hb Hnext]. split; [lia|]. intros Hlt.
      destruct Hnext as (m' & Hm' & Hnone); [lia|]. exists m'. split; [|done].
      replace (advance rest (S i) - i) with (S (advance rest (S i) - S i)) by lia. done.
    + split; [lia|]. intros _. exists m. by rewrite Nat.sub_diag.
Qed.

Lemma advance_cursor cms i :
  i <= length cms ->
  let j := advance (drop i cms) i in
  j <= length cms /\
  (j < length cms -> exists m, cms !! j = Some m /\ collapsed_to m = None).
Proof.
  intros Hi. destruct (advance_spec (drop i cms) i) as [Hb Hnext].
  rewrite length_drop in Hb, Hnext. simpl. split; [lia|]. intros Hlt.
  destruct Hnext as (m & Hm & Hnone); [lia|]. exists m. split; [|done].
  rewrite lookup_drop in Hm. by replace (i + (advance (drop i cms) i - i))
    with (advance (drop i cms) i) in Hm by lia.
Qed.

Lemma engine_inv_reset : engine_inv reset.
Proof.
  split; simpl; try done.
  - by intros ? ?%elem_of_nil.
  - by intros ? ? ?%elem_of_nil.
Qed.

Lemma engine_inv_place st cell1 cell2 st' :
  engine_inv st -> add_spooky_move st cell1 cell2 = Ok st' -> engine_inv st'.
Proof.
  intros Hinv Hplace. place_cases Hplace.
  - set (P := fun m : Move => (cells m).1 ∈ involved st cell1 cell2).
    assert (forall m, m ∈ filter P (moves st) ++ [new_move st cell1 cell2] ->
                      collapsed_to m = None) as Hfresh.
    { intros m [[_ Hm]%list_elem_of_filter| ->%list_elem_of_singleton]%elem_of_app;
        [by apply (inv_ledger st)|done]. }
    split; simpl.
    + intros _. exists (new_move st cell1 cell2). split; [|done].
      by apply list_lookup_middle.
    + intros _. by exists (current_player st).
    + intros m [_ Hm]%list_elem_of_filter. by apply (inv_ledger st).
    + intros m s Hm Hs. rewrite (Hfresh m Hm) in Hs. done.
    + intros i j m1 m2 s H1 H2 Hs1. apply list_elem_of_lookup_2 in H1.
      rewrite (Hfresh m1 H1) in Hs1. done.
  - destruct Hinv as [Hcur Hch Hled Hrec Huniq]. split; simpl; try done.
    intros m [Hm| ->%list_elem_of_singleton]%elem_of_app; [by apply Hled|done].
Qed.

Lemma engine_inv_collapse st chosen_cell b st' :
  engine_inv st -> collapse_step st chosen_cell = Ok (b, st') -> engine_inv st'.
Proof.
  intros Hinv [Hmode Hcase]%collapse_step_cases.
  destruct Hcase as [?|?|?|mv cms' board' Hmv Hin Hfree Hprop]; try done.
  apply propagate_resolutions in Hprop.
  assert (rtc resolution (collapsed_board st, collapse_moves st) (board', cms')) as Hrun.
  { eapply rtc_l; [|exact Hprop]. by constructor. }
  apply resolutions_preserve in Hrun as (Hsame & Hgrow & Hkeep). simpl in *.
  destruct Hkeep as [Hrec Huniq]; [apply Hinv..|].
  apply same_moves_length in Hsame.
  assert (collapse_index st <= length cms') as Hle.
  { apply lookup_lt_Some in Hmv. lia. }
  destruct (advance_cursor cms' (collapse_index st) Hle) as [Hb Hnext].
  split; simpl; try done.
  - destruct (decide _) as [|Hlt]; [done|]. intros _. apply Hnext. lia.
  - destruct (decide _); [done|]. apply Hinv.
  - apply Hinv.
Qed.

Lemma reachable_inv st : reachable st -> engine_inv st.
Proof.
  induction 1; eauto using engine_inv_reset, engine_inv_place, engine_inv_collapse.
Qed.

End Invariants.

(** ** When [collapse_step] returns *)

Section Totality.

Lemma covered_same_moves n ms ms' : same_moves ms ms' -> covered n ms -> covered n ms'.
Proof.
  unfold covered. induction 1 as [|m m' l l' (_ & Hc & _) _ IH]; [done|].
  intros [Hm Hl]%Forall_cons. constructor; [by rewrite Hc|by apply IH].
Qed.

Lemma covered_filter (P : Move -> Prop) `{!forall m, Decision (P m)} n ms :
  covered n ms -> covered n (filter P ms).
Proof.
  unfold covered. rewrite !Forall_forall. intros Hcov m [_ Hm]%list_elem_of_filter. auto.
Qed.

Lemma free_cells_covered board cs :
  cs.1 < length board -> cs.2 < length board ->
  exists free, free_cells board cs = Ok free /\ forall c, c ∈ free -> c < length board.
Proof.
  intros [oa Ha]%lookup_lt_is_Some [ob Hb]%lookup_lt_is_Some. unfold free_cells.
  rewrite (proj2 (getitem_Ok _ _ _) Ha), (proj2 (getitem_Ok _ _ _) Hb). simpl.
  eexists. split; [done|]. apply lookup_lt_Some in Ha, Hb.
  intros c. destruct oa, ob; simpl; rewrite ?elem_of_cons, ?elem_of_nil; naive_solver.
Qed.

Lemma propagate_pass_total board ms changed :
  covered (length board) ms ->
  exists ms' board' changed', propagate_pass board ms changed = Ok (ms', board', changed').
Proof.
  revert board changed. induction ms as [|m rest IH]; intros board changed Hcov; simpl.
  - eauto.
  - apply Forall_cons in Hcov as [[Ha Hb] Hrest].
    assert (forall ch, exists ms' board' changed',
              ('(rest', b', ch') ← propagate_pass board rest ch;
               Ok (m :: rest', b', ch')) = Ok (ms', board', changed')) as Hskip.
    { intros ch. destruct (IH board ch Hrest) as (r & b & c & ->). simpl. eauto. }
    destruct (collapsed_to m); [apply Hskip|].
    destruct (free_cells_covered board (cells m) Ha Hb) as (free & -> & Hfree). simpl.
    destruct free as [|c [|c' free]]; [apply Hskip| |apply Hskip].
    unfold setitem. rewrite decide_True by (apply Hfree; by left). simpl.
    destruct (IH (<[c:=Some (player m, index m)]> board) true) as (r & b & ch & ->).
    { by rewrite length_insert. }
    simpl. eauto.
Qed.

Lemma propagate_total board ms :
  covered (length board) ms ->
  exists ms' board', propagate board ms = Ok (ms', board').
Proof.
  funelim (propagate board ms); intros Hcov.
  - match goal with IH : covered _ _ -> _ |- _ => apply IH end.
    pose proof (propagate_pass_resolutions _ _ _ _ _ _ [] Hpass) as Hrun.
    apply resolutions_preserve in Hrun as (Hsame & [Hlen _] & _). simpl in *.
    rewrite Hlen. by eapply covered_same_moves.
  - eauto.
  - destruct (propagate_pass_total board ms false Hcov) as (? & ? & ? & ?). congruence.
Qed.

Lemma cell_in_covered c m n :
  cell_in c (cells m) = true -> (cells m).1 < n -> (cells m).2 < n -> c < n.
Proof.
  unfold cell_in. intros [->%bool_decide_eq_true| ->%bool_decide_eq_true]%orb_true_iff; done.
Qed.

Lemma collapse_step_total st chosen_cell :
  mode st = COLLAPSE ->
  covered (length (collapsed_board st)) (collapse_moves st) ->
  exists b st', collapse_step st chosen_cell = Ok (b, st').
Proof.
  intros Hmode Hcov.
  destruct (decide (length (collapse_moves st) <= collapse_index st)) as [Hend|Hend].
  { exists true, st. apply collapse_step_cases. split; [done|]. by constructor. }
  destruct (lookup_lt_is_Some_2 (collapse_moves st) (collapse_index st)) as [mv Hmv]; [lia|].
  destruct (cell_in chosen_cell (cells mv)) eqn:Hin.
  2:{ exists false, st. apply collapse_step_cases. split; [done|]. by econstructor 2. }
  pose proof (proj1 (Forall_lookup _ _) Hcov _ _ Hmv) as [Ha Hb].
  pose proof (cell_in_covered _ _ _ Hin Ha Hb) as Hlt.
  destruct (lookup_lt_is_Some_2 _ _ Hlt) as [[occ|] Hocc].
  { exists false, st. apply collapse_step_cases. split; [done|]. by econstructor 3. }
  destruct (propagate_total (<[chosen_cell := Some (ident mv)]> (collapsed_board st))
              (<[collapse_index st := resolve mv chosen_cell]> (collapse_moves st)))
    as (cms' & board' & Hprop).
  { rewrite length_insert. eapply covered_same_moves; [|exact Hcov].
    eapply (resolution_same_moves (collapsed_board st)). by constructor. }
  eexists true, _. apply collapse_step_cases. split; [done|]. by econstructor 4.
Qed.

Lemma reachable_on_board_reachable st : reachable_on_board st -> reachable st.
Proof. induction 1; eauto using reachable. Qed.

Lemma reachable_on_board_covered st :
  reachable_on_board st ->
  length (collapsed_board st) = 9 /\ covered 9 (moves st) /\ covered 9 (collapse_moves st).
Proof.
  induction 1 as [|st c1 c2 st' _ (Hlen & Hled & Hcm) H1 H2 Hplace
                  |st c b st' _ (Hlen & Hled & Hcm) Hstep].
  - split; [done|]. split; constructor.
  - destruct (add_spooky_move_inv _ _ _ _ Hplace) as [Hmode Hne].
    assert (covered 9 [new_move st c1 c2]) as Hnew.
    { apply Forall_singleton. by split. }
    destruct (would_create_loop st (c1, c2)) eqn:Hloop.
    + rewrite add_spooky_move_loop in Hplace by done. injection Hplace as <-. simpl.
      split; [done|]. split; [by apply covered_filter|].
      apply Forall_app. split; [by apply covered_filter|done].
    + rewrite add_spooky_move_no_loop in Hplace by done. injection Hplace as <-. simpl.
      split; [done|]. split; [|done]. by apply Forall_app.
  - apply collapse_step_cases in Hstep as [Hmode Hcase].
    destruct Hcase as [?|?|?|mv cms' board' Hmv Hin Hfree Hprop]; try done.
    apply propagate_resolutions in Hprop.
    assert (rtc resolution (collapsed_board st, collapse_moves st) (board', cms')) as Hrun.
    { eapply rtc_l; [|exact Hprop]. by constructor. }
    apply resolutions_preserve in Hrun as (Hsame & [Hl _] & _). simpl in *.
    split; [congruence|]. split; [done|]. by eapply covered_same_moves.
Qed.

End Totality.

(** ** Forced propagation stops at a fixpoint *)

Section ForcedPropagation.

Lemma propagate_pass_quiet board ms changed ms' board' :
  propagate_pass board ms changed = Ok (ms', board', false) ->
  ms' = ms /\ board' = board /\ changed = false /\
  forall m, m ∈ ms -> ~ forced board m.
Proof.
  revert board changed ms' board'.
  induction ms as [|m rest IH]; intros board changed ms' board'; simpl.
  - intros [= <- <- <-]. repeat split. by intros ? ?%elem_of_nil.
  - assert (~ forced board m ->
            ('(rest', b', ch') ← propagate_pass board rest changed;
             Ok (m :: rest', b', ch')) = Ok (ms', board', false) ->
            ms' = m :: rest /\ board' = board /\ changed = false /\
            forall m0, m0 ∈ m :: rest -> ~ forced board m0) as Hskip.
    { intros Hm. destruct (propagate_pass board rest changed) as [[[r1 b1] c1]|] eqn:E;
        [|done]. simpl. intros [= <- <- ->]. apply IH in E as (-> & -> & -> & Hrest).
      repeat split. intros m0 [->|?]%elem_of_cons; auto. }
    destruct (collapsed_to m) as [c|] eqn:Hm.
    { apply Hskip. intros [? _]. congruence. }
    destruct (free_cells board (cells m)) as [free|] eqn:Hf; [|done]. simpl.
    assert (length free <> 1 -> ~ forced board m) as Hfree.
    { intros Hlen (_ & free' & Hf' & Hlen'). congruence. }
    destruct free as [|c [|c' free]]; [by apply Hskip, Hfree| |by apply Hskip, Hfree].
    destruct (setitem board c (Some (player m, index m))) as [b1|]; [|done]. simpl.
    destruct (propagate_pass b1 rest true) as [[[r2 b2] c2]|] eqn:E; [|done]. simpl.
    intros [= <- <- ->]. by apply IH in E as (_ & _ & ? & _).
Qed.

Lemma propagate_fixpoint board ms ms' board' :
  propagate board ms = Ok (ms', board') ->
  propagate_pass board' ms' false = Ok (ms', board', false).
Proof.
  funelim (propagate board ms); [| |done].
  - eauto.
  - intros [= <- <-].
    match goal with E : propagate_pass _ _ _ = _ |- _ =>
      by destruct (propagate_pass_quiet _ _ _ _ _ E) as (-> & -> & _) end.
Qed.


End ForcedPropagation.

(** ** The win evaluator *)

Section Winner.

Lemma lines_on_board : Forall (on_board 9) lines.
Proof. unfold lines, on_board. repeat constructor; simpl; lia. Qed.

Lemma scan_lines_spec board ls wins :
  Forall (on_board (length board)) ls ->
  exists wins',
    scan_lines board ls wins = Ok wins' /\
    forall p, exists found,
      wins_get wins' p = wins_get wins p ++ found /\
      forall l s, (l, s) ∈ found <-> l ∈ ls /\ line_win board p l s.
Proof.
  revert wins. induction ls as [|[[a b] c] ls IH]; intros wins Hon; simpl.
  - exists wins. split; [done|]. intros p. exists []. rewrite app_nil_r. split; [done|].
    intros l s. rewrite !elem_of_nil. naive_solver.
  - apply Forall_cons in Hon as [(Ha & Hb & Hc) Hon]. simpl in *.
    apply lookup_lt_is_Some in Ha as [ca Ha], Hb as [cb Hb], Hc as [cc Hc].
    rewrite (proj2 (getitem_Ok _ _ _) Ha), (proj2 (getitem_Ok _ _ _) Hb),
      (proj2 (getitem_Ok _ _ _) Hc). simpl.
    assert (forall p, (forall s, ~ line_win board p (a, b, c) s) ->
              forall (found : list (Line * nat)) l s,
                ((l, s) ∈ found <-> l ∈ ls /\ line_win board p l s) ->
                ((l, s) ∈ found <-> l ∈ (a, b, c) :: ls /\ line_win board p l s)) as Hmiss.
    { intros p Hno found l s ->. rewrite elem_of_cons. naive_solver. }
    assert ((forall p s, ~ line_win board p (a, b, c) s) ->
            exists wins',
              scan_lines board ls wins = Ok wins' /\
              forall p, exists found,
                wins_get wins' p = wins_get wins p ++ found /\
                forall l s, (l, s) ∈ found <->
                            l ∈ (a, b, c) :: ls /\ line_win board p l s) as Hskip.
    { intros Hno. destruct (IH wins Hon) as (wins' & -> & Hw). exists wins'.
      split; [done|]. intros p. destruct (Hw p) as (found & -> & Hf). exists found.
      split; [done|]. intros l s. by apply Hmiss. }
    destruct ca as [[pa ia]|]; [|apply Hskip; intros p s (? & ? & ? & ? & _); naive_solver].
    destruct cb as [[pb ib]|]; [|apply Hskip; intros p s (? & ? & ? & ? & ? & _); naive_solver].
    destruct cc as [[pc ic]|];
      [|apply Hskip; intros p s (? & ? & ? & ? & ? & ? & _); naive_solver].
    destruct (decide (pa = pb /\ pb = pc)) as [[<- <-]|Hdiff];
      [|apply Hskip; intros p s (? & ? & ? & ? & ? & ? & _); simpl in *; naive_solver].
    destruct (IH (wins_append wins pa (a, b, c, ia + ib + ic)) Hon) as (wins' & -> & Hw).
    exists wins'. split; [done|]. intros p. destruct (Hw p) as (found & -> & Hf).
    destruct (decide (p = pa)) as [->|Hp].
    + exists ((a, b, c, ia + ib + ic) :: found). split.
      * destruct pa; simpl; by rewrite <- app_assoc.
      * intros l s. rewrite !elem_of_cons, Hf. split.
        -- intros [[= -> ->]|[? ?]]; [|by auto]. split; [by left|].
           by exists ia, ib, ic.
        -- intros [[->|?] Hwin]; [|by auto]. left.
           destruct Hwin as (? & ? & ? & ? & ? & ? & ->). simpl in *. by simplify_eq.
    + exists found. split.
      * destruct pa, p; simpl; done.
      * intros l s. apply Hmiss; [|done].
        intros s' (? & ? & ? & ? & _). simpl in *. congruence.
Qed.



End Winner.

(** ** An accepted selection ends the episode *)

Section EpisodeEnd.

Lemma forcing_resolution x y : forcing x y -> resolution x y.
Proof.
  inversion 1 as [board ms i m c Hm Hnone Hfree]; subst.
  apply free_cells_single in Hfree as [Hin Hfree]. by constructor.
Qed.

Lemma propagate_pass_forcings board ms changed ms' board' changed' prefix :
  propagate_pass board ms changed = Ok (ms', board', changed') ->
  rtc forcing (board, prefix ++ ms) (board', prefix ++ ms').
Proof.
  revert board changed ms' board' changed' prefix.
  induction ms as [|m rest IH]; intros board changed ms' board' changed' prefix; simpl.
  - intros [= <- <- <-]. apply rtc_refl.
  - assert (forall b ch, ('(rest', b', ch') ← propagate_pass b rest ch;
                           Ok (m :: rest', b', ch')) = Ok (ms', board', changed') ->
              rtc forcing (b, prefix ++ m :: rest) (board', prefix ++ ms')) as Hskip.
    { intros b ch. destruct (propagate_pass b rest ch) as [[[r1 b1] c1]|] eqn:E; [|done].
      simpl. intros [= <- <- <-]. rewrite !(cons_middle m), !app_assoc. by eapply IH. }
    destruct (collapsed_to m) as [c|] eqn:Hm; [apply Hskip|].
    destruct (free_cells board (cells m)) as [free|] eqn:Hf; [|done]. simpl.
    destruct free as [|c [|c' free]]; [apply Hskip| |apply Hskip].
    destruct (setitem board c (Some (player m, index m))) as [b1|] eqn:Hs; [|done].
    simpl. destruct (propagate_pass b1 rest true) as [[[r2 b2] c2]|] eqn:E; [|done].
    simpl. intros [= <- <- <-]. apply setitem_Ok in Hs as [_ ->].
    eapply rtc_l.
    + apply (forcing_at board (prefix ++ m :: rest) (length prefix) m c); [|done..].
      by apply list_lookup_middle.
    + replace (<[length prefix := resolve m c]> (prefix ++ m :: rest))
        with ((prefix ++ [resolve m c]) ++ rest).
      * replace (prefix ++ resolve m c :: r2)
          with ((prefix ++ [resolve m c]) ++ r2) by (by rewrite <- app_assoc).
        by eapply IH.
      * rewrite <- app_assoc. simpl.
        rewrite insert_app_r_alt by lia. by rewrite Nat.sub_diag.
Qed.

Lemma propagate_forcings board ms ms' board' :
  propagate board ms = Ok (ms', board') ->
  rtc forcing (board, ms) (board', ms').
Proof.
  funelim (propagate board ms); [| |done].
  - intros Hres. etrans; [|eauto].
    exact (propagate_pass_forcings _ _ _ _ _ _ [] Hpass).
  - intros [= <- <-].
    match goal with E : propagate_pass _ _ _ = _ |- _ =>
      exact (propagate_pass_forcings _ _ _ _ _ _ [] E) end.
Qed.

Lemma forcing_keeps_resolved x y j m c :
  forcing x y -> x.2 !! j = Some m -> collapsed_to m = Some c -> y.2 !! j = Some m.
Proof.
  inversion 1 as [board ms i m0 c0 Hm0 Hnone Hfree]; subst. simpl. intros Hm Hc.
  rewrite list_lookup_insert_ne; [done|]. intros ->. congruence.
Qed.

Lemma forcings_keep_resolved x y j m c :
  rtc forcing x y -> x.2 !! j = Some m -> collapsed_to m = Some c -> y.2 !! j = Some m.
Proof.
  induction 1 as [|x y z Hstep _ IH]; [done|]. intros Hm Hc.
  apply IH; [|done]. by eapply forcing_keeps_resolved.
Qed.

Lemma forcings_resolutions x y : rtc forcing x y -> rtc resolution x y.
Proof.
  induction 1 as [|x y z Hstep _ IH]; [apply rtc_refl|].
  eapply rtc_l; [by apply forcing_resolution|done].
Qed.

Lemma advance_last cms i m c :
  cms !! i = Some m -> collapsed_to m = Some c -> S i = length cms ->
  advance (drop i cms) i = length cms.
Proof.
  intros Hm Hc Hlen. rewrite (drop_S _ _ _ Hm). simpl. rewrite Hc.
  rewrite drop_ge by lia. simpl. done.
Qed.

Lemma cursor_last st :
  reachable st -> mode st = COLLAPSE -> S (collapse_index st) = length (collapse_moves st).
Proof.
  induction 1 as [|st a b st' Hreach IH Hplace|st s b st' Hreach IH Hstep].
  - done.
  - intros Hmode'. place_cases Hplace; simpl in *; [|done].
    rewrite length_app. simpl. lia.
  - apply collapse_step_cases in Hstep as [Hmode Hcase].
    destruct Hcase as [?|?|?|mv cms' board' Hmv Hin Hfree Hprop]; try (intros _; by apply IH).
    specialize (IH Hmode). simpl. intros Hmode'.
    apply propagate_forcings in Hprop.
    assert (cms' !! collapse_index st = Some (resolve mv s)) as Hsel.
    { eapply (forcings_keep_resolved _ (board', cms')); [exact Hprop| |done]. simpl.
      apply list_lookup_insert_eq. by eapply lookup_lt_Some. }
    assert (length cms' = length (collapse_moves st)) as Hlen.
    { apply forcings_resolutions, resolutions_preserve in Hprop as (Hs & _).
      apply same_moves_length in Hs. simpl in Hs. by rewrite length_insert in Hs. }
    rewrite (advance_last cms' (collapse_index st) (resolve mv s) s) in Hmode'
      by (done || congruence).
    rewrite decide_True in Hmode' by done. done.
Qed.

Lemma accepted_mode st s st' :
  reachable st -> collapse_step st s = Ok (true, st') -> mode st' = PLAY.
Proof.
  intros Hreach Hstep.
  apply collapse_step_cases in Hstep as [Hmode Hcase].
  pose proof (cursor_last st Hreach Hmode) as Hlast.
  inversion Hcase as [Hend| | |mv cms' board' Hmv Hin Hfree Hprop]; subst; [lia|].
  apply propagate_forcings in Hprop.
  assert (cms' !! collapse_index st = Some (resolve mv s)) as Hsel.
  { eapply (forcings_keep_resolved _ (board', cms')); [exact Hprop| |done]. simpl.
    apply list_lookup_insert_eq. by eapply lookup_lt_Some. }
  assert (length cms' = length (collapse_moves st)) as Hlen.
  { apply forcings_resolutions, resolutions_preserve in Hprop as (Hs & _).
    apply same_moves_length in Hs. simpl in Hs. by rewrite length_insert in Hs. }
  simpl. rewrite (advance_last cms' (collapse_index st) (resolve mv s) s)
    by (done || congruence).
  by rewrite decide_True.
Qed.

End EpisodeEnd.

(** ** Sample sessions *)

Section Samples.

Example run_one_move : add_spooky_move reset 1 2 = Ok one_move.
Proof. vm_compute. reflexivity. Qed.

Example run_two_moves : add_spooky_move one_move 0 1 = Ok two_moves.
Proof. vm_compute. reflexivity. Qed.

Example run_episode : add_spooky_move two_moves 0 2 = Ok episode.
Proof. vm_compute. reflexivity. Qed.

Example run_collapsed : collapse_step episode 0 = Ok (true, collapsed).
Proof. vm_compute. reflexivity. Qed.

(** In that call the first pass resolves O's move only; X's first move,
    scanned before it, is forced by it and waits for the second pass. *)
Example run_first_pass :
  propagate_pass
    (<[0 := Some (X, 2)]> (collapsed_board episode))
    (<[2 := mkMove X 2 (0, 2) (Some 0)]> (collapse_moves episode)) false
  = Ok ([mkMove X 1 (1, 2) None; mkMove O 1 (0, 1) (Some 1); mkMove X 2 (0, 2) (Some 0)],
        [Some (X, 2); Some (O, 1); None; None; None; None; None; None; None],
        true).
Proof. vm_compute. reflexivity. Qed.

End Samples.

(** * The claims *)

Lemma one_move_reachable : reachable one_move.
Proof. exact (reach_place _ _ _ _ reach_reset run_one_move). Qed.

Lemma two_moves_reachable : reachable two_moves.
Proof. exact (reach_place _ _ _ _ one_move_reachable run_two_moves). Qed.

Lemma episode_reachable : reachable episode.
Proof. exact (reach_place _ _ _ _ two_moves_reachable run_episode). Qed.

Lemma episode_on_board : reachable_on_board episode.
Proof.
  apply (on_board_place two_moves 0 2); [|lia|lia|exact run_episode].
  apply (on_board_place one_move 0 1); [|lia|lia|exact run_two_moves].
  apply (on_board_place reset 1 2); [|lia|lia|exact run_one_move].
  constructor.
Qed.

(** C1, counterexample: with the cursor past the end, [collapse_step]
    returns true, not false. *)
Lemma collapse_step_exhausted_returns_true :
  mode stale_episode = COLLAPSE /\
  length (collapse_moves stale_episode) <= collapse_index stale_episode /\
  collapse_step stale_episode 0 = Ok (true, stale_episode) /\
  ~ rejects_as_specified.
Proof.
  split; [done|]. split; [done|]. split; [done|].
  intros Hspec. specialize (Hspec stale_episode 0 eq_refl).
  discriminate Hspec. by left.
Qed.

(** C1, amended: in COLLAPSE mode, [collapse_step] changes no part of
    the state and returns true when the cursor is already past the end
    of the implicated list; it changes no part of the state and returns
    false when the square is not one of the current move's two cells, or
    is already occupied on the classical board. *)
Theorem collapse_step_rejections st s :
  mode st = COLLAPSE ->
  (length (collapse_moves st) <= collapse_index st ->
   collapse_step st s = Ok (true, st)) /\
  (forall mv,
     collapse_moves st !! collapse_index st = Some mv ->
     cell_in s (cells mv) = false ->
     collapse_step st s = Ok (false, st)) /\
  (forall mv occupant,
     collapse_moves st !! collapse_index st = Some mv ->
     collapsed_board st !! s = Some (Some occupant) ->
     collapse_step st s = Ok (false, st)).
Proof.
  intros Hmode. split; [|split].
  - intros Hend. apply collapse_step_cases. split; [done|]. by constructor.
  - intros mv Hmv Hin. apply collapse_step_cases. split; [done|]. by econstructor 2.
  - intros mv occupant Hmv Hocc. apply collapse_step_cases. split; [done|].
    destruct (cell_in s (cells mv)) eqn:Hin; [by econstructor 3|by econstructor 2].
Qed.

Lemma collapse_step_rejections_witness :
  collapse_step episode 5 = Ok (false, episode).
Proof.
  apply (proj1 (proj2 (collapse_step_rejections episode 5 eq_refl))
           (mkMove X 2 (0, 2) None)); reflexivity.
Defined.

(** C2: [would_create_loop (a, b)] is true exactly when [b] is reachable
    from [a] along the cell pairs of the unresolved moves of the ledger
    (every square reaches itself); a placement tests the ledger as it is
    before the new move is appended, so it opens a collapse episode
    exactly when the two cells were already connected. *)
Theorem would_create_loop_iff_connected st a b :
  (would_create_loop st (a, b) = true <-> connected (moves st) a b) /\
  (forall st', add_spooky_move st a b = Ok st' ->
               (mode st' = COLLAPSE <-> connected (moves st) a b)).
Proof.
  split; [apply would_create_loop_spec|]. intros st' Hplace.
  rewrite <- would_create_loop_spec. by place_cases Hplace.
Qed.

Lemma would_create_loop_iff_connected_witness :
  connected (moves two_moves) 0 2 /\ ~ connected (moves one_move) 0 1.
Proof.
  split.
  - apply (proj2 (would_create_loop_iff_connected two_moves 0 2)
             episode run_episode). reflexivity.
  - intros Hc.
    apply (proj2 (would_create_loop_iff_connected one_move 0 1)
             two_moves run_two_moves) in Hc. discriminate Hc.
Defined.

(** C3: a placement [(cell_a, cell_b)] that closes a loop splits the
    ledger, the new move included, by testing each move's first cell for
    membership in the connected component of [cell_a]: the moves that
    pass become the implicated list, in ledger order; the others stay in
    the ledger, in order and unchanged; the mode becomes COLLAPSE and the
    cursor is the position of the new move in the implicated list. *)
Theorem add_spooky_move_partition st cell_a cell_b :
  mode st = PLAY -> cell_a <> cell_b ->
  would_create_loop st (cell_a, cell_b) = true ->
  let mv := new_move st cell_a cell_b in
  let component := involved st cell_a cell_b in
  (forall x, x ∈ component <-> connected (moves st ++ [mv]) cell_a x) /\
  exists st',
    add_spooky_move st cell_a cell_b = Ok st' /\
    collapse_moves st' = filter (fun m => (cells m).1 ∈ component) (moves st ++ [mv]) /\
    moves st' = filter (fun m => (cells m).1 ∉ component) (moves st ++ [mv]) /\
    moves st' = filter (fun m => (cells m).1 ∉ component) (moves st) /\
    mode st' = COLLAPSE /\
    collapse_moves st' !! collapse_index st' = Some mv /\
    S (collapse_index st') = length (collapse_moves st').
Proof.
  intros Hmode Hne Hloop mv component.
  split; [intros x; apply involved_spec|].
  eexists. split; [by apply add_spooky_move_loop|]. simpl.
  assert (cell_a ∈ component) as Hin by (apply involved_spec, rtc_refl).
  rewrite !filter_app, !filter_cons, !filter_nil. simpl.
  destruct (decide (cell_a ∈ component)); [|done].
  destruct (decide (cell_a ∉ component)); [done|].
  rewrite app_nil_r. repeat split.
  - by apply list_lookup_middle.
  - rewrite length_app. simpl. lia.
Qed.

Lemma add_spooky_move_partition_witness :
  exists st',
    add_spooky_move two_moves 0 2 = Ok st' /\
    collapse_moves st' !! collapse_index st' = Some (mkMove X 2 (0, 2) None).
Proof.
  destruct (add_spooky_move_partition two_moves 0 2) as (_ & st' & Hplace & H);
    [reflexivity|lia|reflexivity|].
  exists st'. split; [exact Hplace|]. apply H.
Defined.

(** C9: a placement in PLAY mode on two distinct cells that closes no
    loop increments the mover's counter and leaves the other's, appends
    to the ledger the unresolved move with that next number and the pair
    [(cell_a, cell_b)], passes the turn to the other player and stays in
    PLAY mode; board and episode are untouched. *)
Theorem add_spooky_move_appends st cell_a cell_b :
  mode st = PLAY -> cell_a <> cell_b ->
  would_create_loop st (cell_a, cell_b) = false ->
  exists st',
    add_spooky_move st cell_a cell_b = Ok st' /\
    counter_get (move_counter st') (current_player st)
      = S (counter_get (move_counter st) (current_player st)) /\
    counter_get (move_counter st') (other_player (current_player st))
      = counter_get (move_counter st) (other_player (current_player st)) /\
    moves st' = moves st ++
      [ {| player := current_player st;
           index := S (counter_get (move_counter st) (current_player st));
           cells := (cell_a, cell_b);
           collapsed_to := None |} ] /\
    current_player st' = other_player (current_player st) /\
    mode st' = PLAY /\
    collapsed_board st' = collapsed_board st /\
    collapse_moves st' = collapse_moves st /\
    collapse_index st' = collapse_index st.
Proof.
  intros Hmode Hne Hloop. eexists. split; [by apply add_spooky_move_no_loop|]. simpl.
  rewrite counter_get_incr, counter_get_incr_other. done.
Qed.

Lemma add_spooky_move_appends_witness :
  exists st',
    add_spooky_move one_move 0 1 = Ok st' /\
    moves st' = [mkMove X 1 (1, 2) None; mkMove O 1 (0, 1) None] /\
    current_player st' = X.
Proof.
  destruct (add_spooky_move_appends one_move 0 1) as (st' & Hplace & _ & _ & Hm & Hp & _);
    [reflexivity|lia|reflexivity|].
  exists st'. split; [exact Hplace|]. split; [exact Hm|exact Hp].
Defined.

(** C10: in every reachable state in COLLAPSE mode the cursor is
    strictly less than the length of the implicated list and the move it
    points at is unresolved; so no call of [collapse_step] from a
    reachable state takes the cursor-past-the-end branch. *)
Theorem cursor_in_range st :
  reachable st -> mode st = COLLAPSE ->
  collapse_index st < length (collapse_moves st) /\
  (exists mv, collapse_moves st !! collapse_index st = Some mv /\
              collapsed_to mv = None) /\
  ~ length (collapse_moves st) <= collapse_index st.
Proof.
  intros Hreach Hmode.
  destruct (inv_cursor st (reachable_inv st Hreach) Hmode) as (mv & Hmv & Hnone).
  pose proof (lookup_lt_Some _ _ _ Hmv). split; [done|]. split; [eauto|lia].
Qed.

Lemma cursor_in_range_witness :
  collapse_index episode < length (collapse_moves episode).
Proof.
  exact (proj1 (cursor_in_range episode episode_reachable eq_refl)).
Defined.





(** C6: a placement that opens a collapse episode records the mover as
    cycle creator and the other player as chooser and as resuming
    player; in every reachable state in COLLAPSE mode the chooser is the
    player other than the cycle creator, and every [collapse_step] call
    that returns keeps both; when the call leaves the cursor at the end
    of the implicated list the mode is PLAY and the current player is
    that chooser, not the cycle creator; a call that returns true does
    leave the cursor there, and a call that returns false changes
    nothing. *)
Theorem collapse_resumes_with_chooser st :
  (forall cell_a cell_b st',
     add_spooky_move st cell_a cell_b = Ok st' -> mode st' = COLLAPSE ->
     cycle_creator st' = Some (current_player st) /\
     collapse_chooser st' = Some (other_player (current_player st)) /\
     next_player_after_collapse st' = collapse_chooser st') /\
  (reachable st -> mode st = COLLAPSE ->
   exists creator,
     cycle_creator st = Some creator /\
     collapse_chooser st = Some (other_player creator) /\
     forall s b st',
       collapse_step st s = Ok (b, st') ->
       cycle_creator st' = cycle_creator st /\
       collapse_chooser st' = collapse_chooser st /\
       (length (collapse_moves st') <= collapse_index st' ->
        mode st' = PLAY /\
        current_player st' = other_player creator /\
        current_player st' <> creator) /\
       (b = true ->
        length (collapse_moves st') <= collapse_index st' /\
        exists mv, collapse_moves st !! collapse_index st = Some mv /\
                   collapse_moves st' !! collapse_index st = Some (resolve mv s)) /\
       (b = false -> st' = st)).
Proof.
  split.
  - intros a b st' Hplace Hmode'. by place_cases Hplace.
  - intros Hreach Hmode. pose proof (reachable_inv st Hreach) as Hinv.
    destruct (inv_chooser st Hinv Hmode) as (creator & Hcr & Hch & Hnext).
    destruct (inv_cursor st Hinv Hmode) as (mv & Hmv & _).
    pose proof (lookup_lt_Some _ _ _ Hmv) as Hlt.
    pose proof (cursor_last st Hreach Hmode) as Hlast.
    exists creator. split; [done|]. split; [done|].
    intros s b st' [_ Hcase]%collapse_step_cases.
    destruct Hcase as [?|?|?|mv' cms' board' Hmv' Hin Hfree Hprop];
      [lia|split; [done|split; [done|split; [lia|by split]]]..|].
    pose proof (propagate_forcings _ _ _ _ Hprop) as Hrun.
    assert (cms' !! collapse_index st = Some (resolve mv' s)) as Hsel.
    { eapply (forcings_keep_resolved _ (board', cms')); [exact Hrun| |done]. simpl.
      by apply list_lookup_insert_eq. }
    assert (length cms' = length (collapse_moves st)) as Hlen.
    { apply forcings_resolutions, resolutions_preserve in Hrun as (Hs & _).
      apply same_moves_length in Hs. simpl in Hs. by rewrite length_insert in Hs. }
    pose proof (advance_last cms' (collapse_index st) (resolve mv' s) s Hsel eq_refl)
      as Hadv.
    simpl. split; [done|]. split; [done|]. split; [|split; [|done]].
    + intros Hend. rewrite !decide_True by done. rewrite Hnext.
      split; [done|]. split; [done|]. by destruct creator.
    + intros _. rewrite Hadv by lia. split; [done|]. eauto.
Qed.

Lemma collapse_resumes_with_chooser_witness :
  exists creator,
    cycle_creator episode = Some creator /\
    collapse_chooser episode = Some (other_player creator) /\
    collapse_step episode 0 = Ok (true, collapsed) /\
    mode collapsed = PLAY /\
    current_player collapsed = other_player creator /\
    current_player collapsed <> creator.
Proof.
  destruct (proj2 (collapse_resumes_with_chooser episode) episode_reachable eq_refl)
    as (creator & Hcr & Hch & Hstep).
  exists creator. split; [exact Hcr|]. split; [exact Hch|].
  split; [exact run_collapsed|].
  destruct (Hstep 0 true collapsed run_collapsed) as (_ & _ & Hend & Hacc & _).
  exact (Hend (proj1 (Hacc eq_refl))).
Defined.

(** C7: in every reachable state no two implicated moves are resolved
    to the same square, and a resolved move is the occupant the board
    records at its square.  A placement leaves the board as it is; what
    [collapse_step] does to board and implicated moves is a run of
    resolutions, each onto a square that is unoccupied when it is
    written, so an occupied square keeps its occupant.  In COLLAPSE mode
    an explicit choice of an occupied square is rejected. *)
Theorem board_uniqueness st :
  reachable st ->
  one_per_square (collapse_moves st) /\
  board_records (collapsed_board st) (collapse_moves st) /\
  (forall cell_a cell_b st',
     add_spooky_move st cell_a cell_b = Ok st' ->
     collapsed_board st' = collapsed_board st) /\
  (forall s b st',
     collapse_step st s = Ok (b, st') ->
     rtc resolution (collapsed_board st, collapse_moves st)
                    (collapsed_board st', collapse_moves st') /\
     board_grows (collapsed_board st) (collapsed_board st')) /\
  (forall s occupant,
     mode st = COLLAPSE ->
     collapsed_board st !! s = Some (Some occupant) ->
     collapse_step st s = Ok (false, st)).
Proof.
  intros Hreach. pose proof (reachable_inv st Hreach) as Hinv.
  split; [apply Hinv|]. split; [apply Hinv|]. split; [|split].
  - intros a b st' Hplace. by place_cases Hplace.
  - intros s b st' [_ Hcase]%collapse_step_cases.
    assert (rtc resolution (collapsed_board st, collapse_moves st)
                           (collapsed_board st', collapse_moves st')) as Hrun.
    { destruct Hcase as [?|?|?|mv cms' board' Hmv Hin Hfree Hprop]; try apply rtc_refl.
      simpl. eapply rtc_l; [|by apply propagate_resolutions]. by constructor. }
    split; [done|]. by apply resolutions_preserve in Hrun as (_ & ? & _).
  - intros s occupant Hmode Hocc.
    destruct (inv_cursor st Hinv Hmode) as (mv & Hmv & _).
    apply collapse_step_cases. split; [done|].
    destruct (cell_in s (cells mv)) eqn:Hin; [by econstructor 3|by econstructor 2].
Qed.

Lemma collapsed_reachable : reachable collapsed.
Proof. exact (reach_collapse _ _ _ _ episode_reachable run_collapsed). Qed.

Lemma board_uniqueness_witness :
  one_per_square (collapse_moves collapsed) /\
  board_records (collapsed_board collapsed) (collapse_moves collapsed).
Proof.
  destruct (board_uniqueness collapsed collapsed_reachable) as (Huniq & Hrec & _).
  split; [exact Huniq|exact Hrec].
Defined.

(** C8, counterexample: in PLAY mode the assertion on the mode fails. *)
Lemma collapse_step_raises_in_play :
  mode reset = PLAY /\
  collapse_step reset 0 = Raise AssertionError /\
  ~ never_raises_as_specified.
Proof.
  split; [done|]. split; [done|].
  intros Hspec. destruct (Hspec reset 0) as (b & st' & Hstep). discriminate Hstep.
Qed.

(** C8, amended: in COLLAPSE mode, when the cells of the implicated moves
    are squares of the board (as they are in every session played on the
    nine squares), [collapse_step] raises for no square: it returns, and
    it returns false, with the state as it was, exactly for the invalid
    choices, a square that is not a cell of the current move or that is
    occupied.  In PLAY mode it raises [AssertionError]. *)
Theorem collapse_step_never_raises_in_collapse st s :
  (mode st = PLAY -> collapse_step st s = Raise AssertionError) /\
  (mode st = COLLAPSE ->
   covered (length (collapsed_board st)) (collapse_moves st) ->
   exists b st',
     collapse_step st s = Ok (b, st') /\
     (b = false -> st' = st) /\
     (b = false <->
      exists mv, collapse_moves st !! collapse_index st = Some mv /\
        (cell_in s (cells mv) = false \/
         exists occupant, collapsed_board st !! s = Some (Some occupant)))) /\
  (reachable_on_board st -> mode st = COLLAPSE ->
   exists b st', collapse_step st s = Ok (b, st')).
Proof.
  split; [|split].
  - intros Hmode. unfold collapse_step. rewrite Hmode. done.
  - intros Hmode Hcov.
    destruct (collapse_step_total st s Hmode Hcov) as (b & st' & Hstep).
    exists b, st'. split; [done|].
    apply collapse_step_cases in Hstep as [_ Hcase].
    destruct Hcase as [Hend|mv Hmv Hin|mv occ Hmv Hin Hocc|mv cms' board' Hmv Hin Hfree Hprop].
    + split; [done|]. split; [done|]. intros (mv & Hmv%lookup_lt_Some & _). lia.
    + split; [done|]. split; [|done]. intros _. exists mv. auto.
    + split; [done|]. split; [|done]. intros _. exists mv. split; [done|]. eauto.
    + split; [done|]. split; [done|]. intros (mv' & Hmv' & [Hout|[occ Hocc]]); congruence.
  - intros Hreach Hmode.
    destruct (reachable_on_board_covered st Hreach) as (Hlen & _ & Hcov).
    apply collapse_step_total; [done|]. by rewrite Hlen.
Qed.

Lemma collapse_step_never_raises_in_collapse_witness :
  exists b st', collapse_step episode 7 = Ok (b, st').
Proof.
  apply (proj2 (proj2 (collapse_step_never_raises_in_collapse episode 7))).
  - exact episode_on_board.
  - reflexivity.
Defined.

(** * Further properties of the engine *)

(** ** Adjacency and components *)

Section GraphExtras.

Lemma edge_sym ms x y : edge ms x y -> edge ms y x.
Proof. intros (m & Hm & [?|?]); exists m; auto. Qed.

Lemma connected_sym ms x y : connected ms x y -> connected ms y x.
Proof.
  unfold connected. induction 1 as [|x y z Hxy _ IH]; [apply rtc_refl|].
  eapply rtc_r; [exact IH|]. by apply edge_sym.
Qed.

Lemma connected_trans ms x y z : connected ms x y -> connected ms y z -> connected ms x z.
Proof. unfold connected. apply rtc_trans. Qed.

Lemma add_neighbour_nonempty adj a b :
  map_Forall (fun _ (s : gset nat) => s <> ∅) adj ->
  map_Forall (fun _ (s : gset nat) => s <> ∅) (Graph.add_neighbour adj a b).
Proof.
  intros Hadj. unfold Graph.add_neighbour. apply map_Forall_insert_2; [|done].
  set_solver.
Qed.

Lemma build_adjacency_nonempty ms :
  map_Forall (fun _ (s : gset nat) => s <> ∅) (Graph.build_adjacency ms).
Proof.
  unfold Graph.build_adjacency.
  assert (forall adj, map_Forall (fun _ (s : gset nat) => s <> ∅) adj ->
            map_Forall (fun _ (s : gset nat) => s <> ∅) (foldl Graph.add_edge adj ms)) as H.
  { induction ms as [|m ms IH]; intros adj Hadj; simpl; [done|].
    apply IH. unfold Graph.add_edge. destruct (cells m) as [a b].
    by do 2 apply add_neighbour_nonempty. }
  apply H, map_Forall_empty.
Qed.

(** X1: in the adjacency built from a list of moves, [y] is a neighbour
    of [x] exactly when some move spans the two squares, so the
    adjacency is symmetric; a square is a key exactly when it is a cell
    of some move, and no key has an empty neighbour set. *)
Theorem build_adjacency_symmetric ms x y :
  let adj := Graph.build_adjacency ms in
  (y ∈ Graph.neighbours adj x <-> edge ms x y) /\
  (y ∈ Graph.neighbours adj x <-> x ∈ Graph.neighbours adj y) /\
  (x ∈ dom adj <-> exists m, m ∈ ms /\ (x = (cells m).1 \/ x = (cells m).2)) /\
  (forall s, adj !! x = Some s -> s <> ∅).
Proof.
  intros adj. unfold adj.
  assert (forall u v, v ∈ Graph.neighbours (Graph.build_adjacency ms) u <-> edge ms u v)
    as Hn by (intros; by rewrite adj_rel_neighbours, adj_rel_build).
  split; [apply Hn|]. split; [|split].
  - rewrite !Hn. split; apply edge_sym.
  - rewrite elem_of_dom. split.
    + intros [s Hs]. pose proof (build_adjacency_nonempty ms x s Hs) as Hne.
      apply set_choose_L in Hne as [z Hz].
      assert (edge ms x z) as (m & Hm & Hc).
      { apply adj_rel_build. by exists s. }
      exists m. split; [done|]. destruct Hc as [-> | ->]; auto.
    + intros (m & Hm & Hx). destruct (cells m) as [a b] eqn:Hc. simpl in Hx.
      assert (exists z, edge ms x z) as [z Hz].
      { destruct Hx as [-> | ->]; [exists b|exists a]; exists m; auto. }
      apply adj_rel_build in Hz as (s & Hs & _). eauto.
  - intros s Hs. by apply (build_adjacency_nonempty ms x s).
Qed.

(** X2: the breadth-first reachability test and the depth-first
    component agree on every adjacency: [bfs_reachable adj a b] is true
    exactly when [b] is in [get_connected_component adj a]. *)
Theorem bfs_agrees_with_component adj a b :
  Graph.bfs_reachable adj a b = true <-> b ∈ Graph.get_connected_component adj a.
Proof. by rewrite bfs_reachable_spec, get_connected_component_spec. Qed.

(** X3: the loop test does not depend on the order of the two cells. *)
Theorem would_create_loop_symmetric st a b :
  would_create_loop st (a, b) = would_create_loop st (b, a).
Proof.
  destruct (would_create_loop st (a, b)) eqn:Hab, (would_create_loop st (b, a)) eqn:Hba;
    try done.
  - apply would_create_loop_spec, connected_sym, would_create_loop_spec in Hab. congruence.
  - apply would_create_loop_spec, connected_sym, would_create_loop_spec in Hba. congruence.
Qed.

Lemma component_build ms x y :
  y ∈ Graph.get_connected_component (Graph.build_adjacency ms) x <-> connected ms x y.
Proof. by rewrite get_connected_component_spec, rtc_adj_rel_build. Qed.

(** X4: the components of the adjacency built from a list of moves
    partition the squares: a square is in its own component, two squares
    of one component have the same component, and a square that no move
    touches is alone in its component. *)
Theorem components_partition ms x :
  let component := Graph.get_connected_component (Graph.build_adjacency ms) in
  x ∈ component x /\
  (forall y, y ∈ component x -> component y = component x) /\
  ((forall m, m ∈ ms -> x <> (cells m).1 /\ x <> (cells m).2) -> component x = {[x]}).
Proof.
  intros component. unfold component. split; [|split].
  - apply component_build, rtc_refl.
  - intros y Hy%component_build. apply set_eq. intros z. rewrite !component_build.
    split; intros Hz.
    + by eapply connected_trans.
    + eapply connected_trans; [|exact Hz]. by apply connected_sym.
  - intros Hfree. apply set_eq. intros z. rewrite component_build, elem_of_singleton.
    split; [|intros ->; apply rtc_refl].
    intros Hz. destruct Hz as [|x y z (m & Hm & Hc) _]; [done|].
    destruct (Hfree m Hm) as [H1 H2]. destruct Hc as [Hc|Hc]; rewrite Hc in *; done.
Qed.

End GraphExtras.

(** ** Placement *)

Section PlacementExtras.

Lemma involved_both_cells st a b m :
  m ∈ moves st ++ [new_move st a b] ->
  (cells m).1 ∈ involved st a b <-> (cells m).2 ∈ involved st a b.
Proof.
  intros Hm. rewrite !involved_spec.
  assert (edge (moves st ++ [new_move st a b]) (cells m).1 (cells m).2) as He.
  { exists m. split; [done|]. left. by destruct (cells m). }
  split; intros Hc.
  - eapply connected_trans; [exact Hc|]. by apply rtc_once.
  - eapply connected_trans; [exact Hc|]. by apply rtc_once, edge_sym.
Qed.

(** X5: when a placement opens a collapse episode, testing the first
    cell of each move sorts it as testing either cell would: both cells
    of every implicated move lie in the component of the first cell of
    the placement, neither cell of a move kept in the ledger does, and so
    no kept move shares a square with an implicated one. *)
Theorem first_cell_test_covers_both_cells st a b st' :
  add_spooky_move st a b = Ok st' -> mode st' = COLLAPSE ->
  let component := involved st a b in
  (forall m, m ∈ collapse_moves st' ->
             (cells m).1 ∈ component /\ (cells m).2 ∈ component) /\
  (forall m, m ∈ moves st' ->
             ((cells m).1 ∉ component) /\ ((cells m).2 ∉ component)) /\
  (forall m m', m ∈ moves st' -> m' ∈ collapse_moves st' ->
                cell_in (cells m).1 (cells m') = false /\
                cell_in (cells m).2 (cells m') = false).
Proof.
  intros Hplace Hmode' component. place_cases Hplace; [|simpl in Hmode'; congruence].
  simpl.
  assert (forall m, m ∈ filter (fun m => (cells m).1 ∈ involved st a b) (moves st)
                          ++ [new_move st a b] ->
            (cells m).1 ∈ component /\ (cells m).2 ∈ component) as Hin.
  { intros m Hm.
    assert (m ∈ moves st ++ [new_move st a b] /\ (cells m).1 ∈ component) as [Hm' H1].
    { apply elem_of_app in Hm as [[? ?]%list_elem_of_filter| ->%list_elem_of_singleton].
      - split; [apply elem_of_app; by left|done].
      - split; [apply elem_of_app; right; by left|]. apply involved_spec, rtc_refl. }
    split; [done|]. by apply involved_both_cells. }
  assert (forall m, m ∈ filter (fun m => (cells m).1 ∉ involved st a b) (moves st) ->
            ((cells m).1 ∉ component) /\ ((cells m).2 ∉ component)) as Hout.
  { intros m [H1 Hm]%list_elem_of_filter. split; [done|].
    intros H2. apply H1. apply involved_both_cells; [|done]. apply elem_of_app. by left. }
  split; [done|]. split; [done|].
  intros m m' [H1 H2]%Hout [H1' H2']%Hin. unfold cell_in.
  split; apply orb_false_iff; split; apply bool_decide_eq_false; congruence.
Qed.

Lemma first_cell_test_covers_both_cells_witness :
  2 ∈ involved two_moves 0 2 /\ 1 ∈ involved two_moves 0 2.
Proof.
  destruct (first_cell_test_covers_both_cells two_moves 0 2 episode run_episode eq_refl)
    as (Hin & _).
  split.
  - apply (Hin (mkMove X 1 (1, 2) None)). by left.
  - apply (Hin (mkMove O 1 (0, 1) None)). right. by left.
Defined.

End PlacementExtras.

(** ** Episodes *)

Section EpisodeExtras.

(** X7: in every reachable state in COLLAPSE mode the cursor is on the
    last implicated move, the one whose placement closed the loop; so a
    single accepted selection ends the episode: whenever [collapse_step]
    returns true, the engine is back in PLAY mode with the cursor past
    the end, and the move that was at the cursor is resolved to the
    chosen square. *)
Theorem accepted_selection_ends_episode st :
  reachable st ->
  (mode st = COLLAPSE -> S (collapse_index st) = length (collapse_moves st)) /\
  (forall s st',
     collapse_step st s = Ok (true, st') ->
     mode st' = PLAY /\
     collapse_index st' = length (collapse_moves st') /\
     exists mv, collapse_moves st !! collapse_index st = Some mv /\
                collapse_moves st' !! collapse_index st = Some (resolve mv s)).
Proof.
  intros Hreach. split; [by apply cursor_last|]. intros s st' Hstep.
  pose proof (reach_collapse _ _ _ _ Hreach Hstep) as Hreach'.
  apply collapse_step_cases in Hstep as [Hmode Hcase].
  pose proof (cursor_last st Hreach Hmode) as Hlast.
  inversion Hcase as [Hend| | |mv cms' board' Hmv Hin Hfree Hprop]; subst; [lia|].
  apply propagate_forcings in Hprop.
  assert (cms' !! collapse_index st = Some (resolve mv s)) as Hsel.
  { eapply (forcings_keep_resolved _ (board', cms')); [exact Hprop| |done]. simpl.
    apply list_lookup_insert_eq. by eapply lookup_lt_Some. }
  assert (length cms' = length (collapse_moves st)) as Hlen.
  { apply forcings_resolutions, resolutions_preserve in Hprop as (Hs & _).
    apply same_moves_length in Hs. simpl in Hs. by rewrite length_insert in Hs. }
  simpl. rewrite (advance_last cms' (collapse_index st) (resolve mv s) s)
    by (done || congruence).
  rewrite decide_True by done. split; [done|]. split; [done|]. eauto.
Qed.

Lemma accepted_selection_ends_episode_witness :
  mode collapsed = PLAY /\ collapse_index collapsed = length (collapse_moves collapsed).
Proof.
  destruct (proj2 (accepted_selection_ends_episode episode episode_reachable)
              0 collapsed run_collapsed) as (Hmode & Hcur & _).
  split; [exact Hmode|exact Hcur].
Defined.

End EpisodeExtras.

(** ** Move identities *)

Section IdentityExtras.

Lemma marks_insert board c x :
  board !! c = Some None -> marks (<[c := Some x]> board) ≡ₚ x :: marks board.
Proof.
  intros Hc. unfold marks. rewrite <- (take_drop_middle board c None Hc) at 2.
  rewrite <- (take_drop_middle board c None Hc) at 1.
  assert (length (take c board) = c) as Hlen.
  { rewrite length_take. apply lookup_lt_Some in Hc. lia. }
  rewrite insert_app_r_alt by lia. rewrite Hlen, Nat.sub_diag. simpl.
  rewrite !omap_app. simpl. by rewrite Permutation_middle.
Qed.

Lemma pending_resolve ms i m c :
  ms !! i = Some m -> collapsed_to m = None ->
  ident m :: pending (<[i := resolve m c]> ms) ≡ₚ pending ms.
Proof.
  intros Hm Hnone. unfold pending. rewrite <- (take_drop_middle ms i m Hm) at 2.
  rewrite <- (take_drop_middle ms i m Hm) at 1.
  assert (length (take i ms) = i) as Hlen.
  { rewrite length_take. apply lookup_lt_Some in Hm. lia. }
  rewrite insert_app_r_alt by lia. rewrite Hlen, Nat.sub_diag. simpl.
  rewrite !filter_app, !filter_cons. simpl. rewrite decide_True by done.
  rewrite !fmap_app. simpl. by rewrite Permutation_middle.
Qed.

Lemma tokens_resolve board ledger ms i m c :
  ms !! i = Some m -> collapsed_to m = None -> board !! c = Some None ->
  marks (<[c := Some (ident m)]> board) ++ ledger ++ pending (<[i := resolve m c]> ms)
  ≡ₚ marks board ++ ledger ++ pending ms.
Proof.
  intros Hm Hnone Hc. rewrite (marks_insert board c _ Hc).
  rewrite <- (pending_resolve ms i m c Hm Hnone). simpl.
  rewrite <- !Permutation_middle. done.
Qed.

Lemma tokens_forcings ledger x y :
  rtc forcing x y ->
  marks y.1 ++ ledger ++ pending y.2 ≡ₚ marks x.1 ++ ledger ++ pending x.2.
Proof.
  induction 1 as [|x y z Hstep _ IH]; [done|]. rewrite IH.
  inversion Hstep as [board ms i m c Hm Hnone Hfree]; subst. simpl.
  apply free_cells_single in Hfree as [_ Hfree]. by apply tokens_resolve.
Qed.

Lemma counter_get_incr_le c p q : counter_get c q <= counter_get (counter_incr c p) q.
Proof. destruct p, q; simpl; lia. Qed.

Lemma pending_unresolved ms :
  (forall m, m ∈ ms -> collapsed_to m = None) -> pending ms = ident <$> ms.
Proof.
  intros Hms. unfold pending. f_equal. induction ms as [|m ms IH]; [done|].
  rewrite filter_cons, decide_True by (apply Hms; by left).
  f_equal. apply IH. intros; apply Hms; by right.
Qed.

Lemma tokens_inv_fresh st a b (l : list Ident) :
  (forall t, t ∈ l -> 1 <= t.2 <= counter_get (move_counter st) t.1) ->
  NoDup l ->
  NoDup (ident (new_move st a b) :: l) /\
  forall t, t ∈ ident (new_move st a b) :: l ->
    1 <= t.2 <= counter_get (counter_incr (move_counter st) (current_player st)) t.1.
Proof.
  intros Hb Hnd. split.
  - constructor; [|done]. intros Hin%Hb. simpl in Hin. lia.
  - intros t [->|Ht%Hb]%elem_of_cons.
    + simpl. rewrite counter_get_incr. lia.
    + pose proof (counter_get_incr_le (move_counter st) (current_player st) t.1). lia.
Qed.

Lemma tokens_inv_reachable st : reachable st -> tokens_inv st.
Proof.
  induction 1 as [|st a b st' Hreach [Hnd Hb] Hplace|st s b st' Hreach [Hnd Hb] Hstep].
  - split; [apply NoDup_nil_2|]. by intros t ?%elem_of_nil.
  - pose proof (reachable_inv st Hreach) as Hinv.
    assert (NoDup (marks (collapsed_board st) ++ (ident <$> moves st)) /\
            forall t, t ∈ marks (collapsed_board st) ++ (ident <$> moves st) ->
                      1 <= t.2 <= counter_get (move_counter st) t.1) as [Hnd' Hb'].
    { unfold tokens in *. rewrite app_assoc in Hnd. apply NoDup_app in Hnd as (? & _ & _).
      split; [done|]. intros t Ht. apply Hb. rewrite app_assoc. apply elem_of_app. by left. }
    destruct (tokens_inv_fresh st a b _ Hb' Hnd') as [Hnd2 Hb2].
    place_cases Hplace; unfold tokens_inv, tokens; simpl.
    + set (P := fun m : Move => (cells m).1 ∈ involved st a b).
      assert (marks (collapsed_board st) ++
              (ident <$> filter (fun m => (cells m).1 ∉ involved st a b) (moves st)) ++
              pending (filter P (moves st) ++ [new_move st a b])
              ≡ₚ ident (new_move st a b) ::
                 marks (collapsed_board st) ++ (ident <$> moves st)) as Hperm.
      { rewrite pending_unresolved.
        - rewrite fmap_app. simpl. rewrite <- (filter_app_complement P (moves st)) at 3.
          rewrite fmap_app. rewrite !app_assoc, <- Permutation_cons_append.
          apply Permutation_skip. rewrite <- !app_assoc. apply Permutation_app_head.
          apply Permutation_app_comm.
        - intros m [[_ Hm]%list_elem_of_filter| ->%list_elem_of_singleton]%elem_of_app;
            [by apply (inv_ledger st)|done]. }
      split; [by rewrite Hperm|]. intros t Ht. apply Hb2. by rewrite <- Hperm.
    + assert (marks (collapsed_board st) ++
              (ident <$> moves st ++ [new_move st a b]) ++ pending (collapse_moves st)
              ≡ₚ ident (new_move st a b) :: tokens st) as Hperm.
      { unfold tokens. rewrite fmap_app. simpl. rewrite <- !app_assoc. simpl.
        by rewrite <- !Permutation_middle. }
      destruct (tokens_inv_fresh st a b _ Hb Hnd) as [Hnd3 Hb3].
      split; [by rewrite Hperm|]. intros t Ht. apply Hb3. by rewrite <- Hperm.
  - pose proof (reachable_inv st Hreach) as Hinv.
    apply collapse_step_cases in Hstep as [Hmode Hcase].
    destruct Hcase as [?|?|?|mv cms' board' Hmv Hin Hfree Hprop]; try done.
    destruct (inv_cursor st Hinv Hmode) as (mv' & Hmv' & Hnone).
    assert (mv' = mv) as -> by congruence.
    apply propagate_forcings in Hprop.
    pose proof (tokens_forcings (ident <$> moves st) _ _ Hprop) as Hperm. simpl in Hperm.
    rewrite (tokens_resolve _ _ _ _ _ _ Hmv Hnone Hfree) in Hperm.
    unfold tokens_inv, tokens. simpl. split; [by rewrite Hperm|].
    intros t Ht. apply Hb. unfold tokens. by rewrite <- Hperm.
Qed.

(** X8: in every reachable state the identities in play, those on the
    board, those of the ledger and those of the unresolved implicated
    moves, are pairwise different, so no move occupies two squares and a
    move on the board is no longer pending; each carries a sequence
    number between 1 and its player's counter. *)
Theorem identities_unique st :
  reachable st ->
  NoDup (marks (collapsed_board st) ++ (ident <$> moves st)
         ++ pending (collapse_moves st)) /\
  (forall s1 s2 occupant,
     collapsed_board st !! s1 = Some (Some occupant) ->
     collapsed_board st !! s2 = Some (Some occupant) -> s1 = s2) /\
  (forall p n, (p, n) ∈ tokens st -> 1 <= n <= counter_get (move_counter st) p).
Proof.
  intros Hreach. destruct (tokens_inv_reachable st Hreach) as [Hnd Hb].
  split; [exact Hnd|]. split; [|intros p n Ht; apply (Hb (p, n) Ht)].
  intros s1 s2 occ H1 H2. unfold tokens in Hnd. apply NoDup_app in Hnd as (Hnd & _).
  unfold marks in Hnd. clear -Hnd H1 H2.
  revert s1 s2 H1 H2. induction (collapsed_board st) as [|o l IH]; intros s1 s2 H1 H2.
  { by rewrite lookup_nil in H1. }
  assert (NoDup (omap id l)) as Hnd'.
  { destruct o; simpl in Hnd; [by apply NoDup_cons in Hnd as [_ ?]|done]. }
  assert (forall s, l !! s = Some (Some occ) -> o = Some occ -> False) as Hhead.
  { intros s Hs ->. simpl in Hnd. apply NoDup_cons in Hnd as [Hnin _]. apply Hnin.
    apply list_elem_of_omap. exists (Some occ). split; [|done].
    by eapply list_elem_of_lookup_2. }
  destruct s1 as [|s1], s2 as [|s2]; simpl in *; simplify_eq; try done.
  - by destruct (Hhead s2 H2).
  - by destruct (Hhead s1 H1).
  - f_equal. by apply IH.
Qed.

Lemma identities_unique_witness :
  1 <= 2 <= counter_get (move_counter collapsed) X.
Proof.
  apply (proj2 (proj2 (identities_unique collapsed collapsed_reachable)) X 2).
  by left.
Defined.

End IdentityExtras.

(** ** The win evaluator *)

Section WinnerExtras.

Lemma on_board_mono n n' l : n <= n' -> on_board n l -> on_board n' l.
Proof. unfold on_board. lia. Qed.

Lemma getitem_Raise {A} (l : list A) i e :
  getitem l i = Raise e -> e = IndexError /\ length l <= i.
Proof.
  unfold getitem. destruct (l !! i) eqn:E; [done|]. intros [= <-].
  split; [done|]. by apply lookup_ge_None.
Qed.

Lemma scan_lines_short board ls wins :
  Exists (fun l => ~ on_board (length board) l) ls ->
  scan_lines board ls wins = Raise IndexError.
Proof.
  revert wins. induction ls as [|[[a b] c] ls IH]; intros wins Hbad.
  { by apply Exists_nil in Hbad. }
  simpl.
  destruct (getitem board a) as [ca|e] eqn:Ha; [|by apply getitem_Raise in Ha as [-> _]].
  simpl.
  destruct (getitem board b) as [cb|e] eqn:Hb; [|by apply getitem_Raise in Hb as [-> _]].
  simpl.
  destruct (getitem board c) as [cc|e] eqn:Hc; [|by apply getitem_Raise in Hc as [-> _]].
  simpl. apply getitem_Ok in Ha, Hb, Hc.
  apply Exists_cons in Hbad as [Hbad|Hbad].
  { destruct Hbad. unfold on_board. simpl.
    apply lookup_lt_Some in Ha, Hb, Hc. done. }
  destruct ca as [[pa ia]|], cb as [[pb ib]|], cc as [[pc ic]|]; try by apply IH.
  destruct (decide _); by apply IH.
Qed.

(** X9: [check_winner] returns a result on every board of at least nine
    squares and raises [IndexError] on every shorter one. *)
Theorem check_winner_bounds st :
  (9 <= length (collapsed_board st) -> exists r, check_winner st = Ok r) /\
  (length (collapsed_board st) < 9 -> check_winner st = Raise IndexError).
Proof.
  unfold check_winner. split.
  - intros Hlen.
    destruct (scan_lines_spec (collapsed_board st) lines (mkWins [] [])) as (w & -> & _).
    { eapply Forall_impl; [apply lines_on_board|]. intros l. by apply on_board_mono. }
    simpl. destruct (wins_X w) as [|x xs], (wins_O w) as [|o os]; eauto.
    + destruct (min_by_sum o os). eauto.
    + destruct (min_by_sum x xs). eauto.
    + destruct (min_by_sum x xs), (min_by_sum o os).
      destruct (decide _); [eauto|]. destruct (decide _); eauto.
  - intros Hlen. rewrite scan_lines_short; [done|].
    apply Exists_exists. exists (6, 7, 8). split.
    + unfold lines. do 2 right. by left.
    + unfold on_board. simpl. lia.
Qed.

Lemma check_winner_bounds_witness :
  exists r, check_winner collapsed = Ok r.
Proof.
  apply (proj1 (check_winner_bounds collapsed)). vm_compute. lia.
Defined.

Lemma other_player_inj p q : other_player p = other_player q <-> p = q.
Proof. destruct p, q; simpl; split; congruence. Qed.

Lemma getitem_swap_board board a :
  getitem (swap_board board) a =
  match getitem board a with
  | Ok o => Ok (swap_ident <$> o)
  | Raise e => Raise e
  end.
Proof.
  unfold getitem, swap_board. rewrite list_lookup_fmap.
  by destruct (board !! a).
Qed.

Lemma wins_append_swap w p e :
  wins_append (swap_wins w) (other_player p) e = swap_wins (wins_append w p e).
Proof. by destruct p. Qed.

Lemma scan_lines_swap board ls w :
  scan_lines (swap_board board) ls (swap_wins w) =
  match scan_lines board ls w with
  | Ok w' => Ok (swap_wins w')
  | Raise e => Raise e
  end.
Proof.
  revert w. induction ls as [|[[a b] c] ls IH]; intros w; simpl; [done|].
  rewrite !getitem_swap_board.
  destruct (getitem board a) as [ca|]; [|done]. simpl.
  destruct (getitem board b) as [cb|]; [|done]. simpl.
  destruct (getitem board c) as [cc|]; [|done]. simpl.
  destruct ca as [[pa ia]|], cb as [[pb ib]|], cc as [[pc ic]|]; simpl; try apply IH.
  destruct (decide (pa = pb /\ pb = pc)) as [[-> ->]|Hne].
  - rewrite decide_True by done. rewrite wins_append_swap. apply IH.
  - rewrite decide_False; [apply IH|].
    intros [H1 H2]. apply Hne. split; by apply other_player_inj.
Qed.

(** X10: the evaluator treats the two players alike: on the board with
    the owners of all marks exchanged it returns the result with the two
    players exchanged, the same lines and the same sums. *)
Theorem check_winner_swap st :
  check_winner (with_board st (swap_board (collapsed_board st))) =
  match check_winner st with
  | Ok r => Ok (swap_outcome <$> r)
  | Raise e => Raise e
  end.
Proof.
  unfold check_winner, with_board. cbn [collapsed_board].
  change (mkWins [] []) with (swap_wins (mkWins [] [])) at 1.
  rewrite scan_lines_swap.
  destruct (scan_lines (collapsed_board st) lines (mkWins [] [])) as [w|]; [|done].
  cbn [mbind result_bind rbind swap_wins wins_X wins_O]. destruct (wins_X w) as [|x xs], (wins_O w) as [|o os]; simpl; try done.
  - by destruct (min_by_sum o os).
  - by destruct (min_by_sum x xs).
  - destruct (min_by_sum x xs) as [lx sx], (min_by_sum o os) as [lo so].
    destruct (decide (sx < so)), (decide (so < sx)); simpl; try done; try lia.
    f_equal. f_equal. f_equal. lia.
Qed.

End WinnerExtras.

(** ** Forests *)

Section Forests.

Lemma link_sym es x y : link es x y -> link es y x.
Proof. unfold link. tauto. Qed.

Lemma joined_sym es x y : joined es x y -> joined es y x.
Proof.
  unfold joined. induction 1 as [|x y z Hxy _ IH]; [apply rtc_refl|].
  eapply rtc_r; [exact IH|]. by apply link_sym.
Qed.

Lemma joined_trans es x y z : joined es x y -> joined es y z -> joined es x z.
Proof. apply rtc_trans. Qed.

Lemma joined_mono es es' x y :
  (forall e, e ∈ es -> e ∈ es') -> joined es x y -> joined es' x y.
Proof.
  intros Hsub. unfold joined. induction 1 as [|x y z Hxy _ IH]; [apply rtc_refl|].
  eapply rtc_l; [|exact IH]. destruct Hxy; [left|right]; auto.
Qed.

Lemma joined_nil x y : joined [] x y -> x = y.
Proof.
  destruct 1 as [|x y z [H|H] _]; [done|by apply elem_of_nil in H..].
Qed.

Lemma connected_joined ms x y : connected ms x y <-> joined (cells <$> ms) x y.
Proof.
  assert (forall u v, edge ms u v <-> link (cells <$> ms) u v) as Hstep.
  { intros u v. unfold edge, link. rewrite !list_elem_of_fmap. split.
    - intros (m & Hm & [Hc|Hc]); [left|right]; eauto.
    - intros [(m & Hc & Hm)|(m & Hc & Hm)]; exists m; auto. }
  unfold connected, joined. split; induction 1; try apply rtc_refl;
    (eapply rtc_l; [|eassumption]); by apply Hstep.
Qed.

(** A path through the pairs and one more pair avoids the new pair or
    crosses it. *)
Lemma joined_snoc es u v x y :
  joined (es ++ [(u, v)]) x y ->
  joined es x y \/ (joined es x u /\ joined es v y) \/ (joined es x v /\ joined es u y).
Proof.
  induction 1 as [x|x z y Hxz _ IH]; [left; apply rtc_refl|].
  assert (link es x z \/ (x = u /\ z = v) \/ (x = v /\ z = u)) as Hcase.
  { destruct Hxz as [H|H]; apply elem_of_app in H as [H|H%list_elem_of_singleton];
      [left; by left| |left; by right|]; simplify_eq; auto. }
  destruct Hcase as [Hold|[[-> ->]|[-> ->]]].
  - destruct IH as [IH|[[IH1 IH2]|[IH1 IH2]]].
    + left. by eapply rtc_l.
    + right. left. split; [by eapply rtc_l|done].
    + right. right. split; [by eapply rtc_l|done].
  - destruct IH as [IH|[[IH1 IH2]|[IH1 IH2]]].
    + right. left. split; [apply rtc_refl|done].
    + right. left. split; [apply rtc_refl|done].
    + left. done.
  - destruct IH as [IH|[[IH1 IH2]|[IH1 IH2]]].
    + right. right. split; [apply rtc_refl|done].
    + left. done.
    + right. right. split; [apply rtc_refl|done].
Qed.

Lemma acyclic_filter (P : nat * nat -> Prop) `{!forall e, Decision (P e)} es :
  acyclic es -> acyclic (filter P es).
Proof.
  induction 1 as [|es e Hes IH Hnj]; [constructor|].
  rewrite filter_app, filter_cons, filter_nil. destruct (decide (P e)).
  - constructor; [done|]. intros Hj. apply Hnj. eapply joined_mono; [|exact Hj].
    by intros e' [_ ?]%list_elem_of_filter.
  - by rewrite app_nil_r.
Qed.

(** The roots of a forest: one square in every tree. *)
Lemma forest_roots es (V : gset nat) :
  acyclic es ->
  (forall e, e ∈ es -> e.1 ∈ V /\ e.2 ∈ V) ->
  exists R : gset nat,
    R ⊆ V /\ length es + size R = size V /\
    (forall x, x ∈ V -> exists r, r ∈ R /\ joined es x r) /\
    (forall r r', r ∈ R -> r' ∈ R -> joined es r r' -> r = r').
Proof.
  induction 1 as [|es [u v] Hes IH Hnj]; intros Hin.
  - exists V. split; [done|]. split; [done|]. split.
    + intros x Hx. exists x. split; [done|apply rtc_refl].
    + intros r r' _ _. apply joined_nil.
  - simpl in Hnj.
    destruct IH as (R & HRS & Hcount & Hroot & Huniq).
    { intros e He. apply Hin, elem_of_app. by left. }
    destruct (Hin (u, v)) as [Hu Hv]; [apply elem_of_app; right; by left|]. simpl in *.
    destruct (Hroot u Hu) as (ru & Hru & Hjru), (Hroot v Hv) as (rv & Hrv & Hjrv).
    assert (ru <> rv) as Hne.
    { intros ->. apply Hnj. eapply joined_trans; [exact Hjru|]. by apply joined_sym. }
    assert (forall x y, joined es x y -> joined (es ++ [(u, v)]) x y) as Hmono.
    { intros x y. apply joined_mono. intros e He. apply elem_of_app. by left. }
    assert (joined (es ++ [(u, v)]) v u) as Hnew.
    { apply rtc_once. right. apply elem_of_app. right. by left. }
    exists (R ∖ {[rv]}). split; [set_solver|]. split; [|split].
    + rewrite length_app. simpl.
      assert (size R = S (size (R ∖ {[rv]}))) as HsR.
      { rewrite (union_difference_L {[rv]} R) at 1 by set_solver.
        rewrite size_union by set_solver. by rewrite size_singleton. }
      lia.
    + intros x Hx. destruct (Hroot x Hx) as (r & Hr & Hjr).
      destruct (decide (r = rv)) as [->|Hr'].
      * exists ru. split; [set_solver|].
        eapply joined_trans; [apply Hmono, Hjr|].
        eapply joined_trans; [apply Hmono, joined_sym, Hjrv|].
        eapply joined_trans; [exact Hnew|]. by apply Hmono.
      * exists r. split; [set_solver|]. by apply Hmono.
    + intros r r' [Hr Hr1]%elem_of_difference [Hr' Hr1']%elem_of_difference Hj.
      apply not_elem_of_singleton in Hr1, Hr1'.
      apply joined_snoc in Hj as [Hj|[[Hj1 Hj2]|[Hj1 Hj2]]].
      * by apply Huniq.
      * destruct Hr1'. apply Huniq; [done..|].
        eapply joined_trans; [apply joined_sym, Hj2|done].
      * destruct Hr1. apply Huniq; [done..|].
        eapply joined_trans; [exact Hj1|done].
Qed.

(** A forest has fewer pairs than squares. *)
Lemma forest_bound es (V : gset nat) x :
  acyclic es -> (forall e, e ∈ es -> e.1 ∈ V /\ e.2 ∈ V) -> x ∈ V ->
  length es < size V.
Proof.
  intros Hes Hin Hx. destruct (forest_roots es V Hes Hin) as (R & _ & Hcount & Hroot & _).
  destruct (Hroot x Hx) as (r & Hr & _).
  assert (size R <> 0); [|lia]. intros Hz%size_empty_inv. set_solver.
Qed.

(** A tree has one pair less than squares. *)
Lemma tree_count es (V : gset nat) a :
  acyclic es -> (forall e, e ∈ es -> e.1 ∈ V /\ e.2 ∈ V) ->
  a ∈ V -> (forall x, x ∈ V -> joined es a x) ->
  length es + 1 = size V.
Proof.
  intros Hes Hin Ha Hconn.
  destruct (forest_roots es V Hes Hin) as (R & HRS & Hcount & Hroot & Huniq).
  destruct (Hroot a Ha) as (r & Hr & _).
  assert (R = {[r]}) as ->.
  { apply set_eq. intros r'. rewrite elem_of_singleton. split; [|by intros ->].
    intros Hr'. apply Huniq; [done..|].
    eapply joined_trans; [apply joined_sym, Hconn|apply Hconn]; set_solver. }
  rewrite size_singleton in Hcount. lia.
Qed.

End Forests.

(** ** Collapsing a tree and one more pair *)

Section TreeCollapse.

Lemma one_per_square_NoDup ms : one_per_square ms -> NoDup (omap collapsed_to ms).
Proof.
  induction ms as [|m ms IH]; intros Huniq; [constructor|].
  assert (NoDup (omap collapsed_to ms)) as Hnd.
  { apply IH. intros i j m1 m2 s H1 H2 Hs1 Hs2.
    assert (S i = S j) by (by eapply (Huniq (S i) (S j))). lia. }
  simpl. destruct (collapsed_to m) as [c|] eqn:Hc; [|done].
  constructor; [|done]. intros (m' & Hm' & Hc')%list_elem_of_omap.
  apply list_elem_of_lookup in Hm' as [j Hj].
  assert (0 = S j) by (by eapply (Huniq 0 (S j) m m' c)). lia.
Qed.

Lemma length_omap_full {A B} (f : A -> option B) (l : list A) :
  length (omap f l) <= length l /\
  (length l <= length (omap f l) -> forall x, x ∈ l -> is_Some (f x)).
Proof.
  induction l as [|x l [IH1 IH2]]; csimpl.
  - split; [lia|]. by intros _ y ?%elem_of_nil.
  - destruct (f x) as [y|] eqn:Hx; csimpl.
    + split; [lia|]. intros Hlen z [->|Hz]%elem_of_cons; [by rewrite Hx|].
      apply IH2; [lia|done].
    + split; [lia|]. intros Hlen. lia.
Qed.

Lemma length_filter_cover {A} (P Q : A -> Prop)
    `{!forall x, Decision (P x)} `{!forall x, Decision (Q x)} (l : list A) :
  (forall x, x ∈ l -> P x \/ Q x) ->
  length l <= length (filter P l) + length (filter Q l).
Proof.
  induction l as [|x l IH]; intros Hcover; simpl; [lia|].
  rewrite !filter_cons.
  assert (length l <= length (filter P l) + length (filter Q l)) as Hl.
  { apply IH. intros; apply Hcover; by right. }
  destruct (Hcover x) as [HP|HQ]; [by left| |].
  - rewrite decide_True by done. destruct (decide (Q x)); simpl; lia.
  - rewrite (decide_True (P:=Q x)) by done. destruct (decide (P x)); simpl; lia.
Qed.

(** The counting argument: the implicated list is a tree of [nT] moves
    and the move that closed the loop; once one square is occupied and no
    unresolved move has exactly one occupied cell, every move is
    resolved. *)
Lemma all_resolved_at_fixpoint (B : list (option Ident)) (M : list Move)
    (V : gset nat) (r s nT : nat) :
  length M = S nT ->
  acyclic (cells <$> take nT M) ->
  (forall m, m ∈ M -> (cells m).1 ∈ V /\ (cells m).2 ∈ V) ->
  r ∈ V -> (forall x, x ∈ V -> joined (cells <$> take nT M) r x) ->
  s ∈ V -> occupied B s ->
  (forall m, m ∈ M -> collapsed_to m = None ->
     (occupied B (cells m).1 <-> occupied B (cells m).2)) ->
  (forall i m c, M !! i = Some m -> collapsed_to m = Some c ->
     c ∈ V /\ occupied B c /\
     (i < nT -> occupied B (cells m).1 /\ occupied B (cells m).2)) ->
  (forall v, v ∈ V -> occupied B v ->
     exists i m, M !! i = Some m /\ collapsed_to m = Some v) ->
  one_per_square M ->
  forall m, m ∈ M -> is_Some (collapsed_to m).
Proof.
  intros Hlen Hacyc HV Hr Htree Hs Hocc_s Hfix Hres Hocc Huniq.
  set (es := cells <$> take nT M) in *.
  set (sq := omap collapsed_to M).
  set (Occ := list_to_set sq : gset nat).
  assert (forall v, v ∈ Occ <-> exists i m, M !! i = Some m /\ collapsed_to m = Some v)
    as HOcc.
  { intros v. unfold Occ. rewrite elem_of_list_to_set. unfold sq.
    rewrite list_elem_of_omap. split.
    - intros (m & Hm & Hc). apply list_elem_of_lookup in Hm as [i Hi]. eauto.
    - intros (i & m & Hi & Hc). exists m. split; [|done]. by eapply list_elem_of_lookup_2. }
  assert (forall v, v ∈ V -> (v ∈ Occ <-> occupied B v)) as HOccB.
  { intros v Hv. rewrite HOcc. split; [|by apply Hocc].
    intros (i & m & Hi & Hc). by destruct (Hres i m v Hi Hc) as (_ & ? & _). }
  assert (Occ ⊆ V) as HsubV.
  { intros v (i & m & Hi & Hc)%HOcc. by destruct (Hres i m v Hi Hc) as (? & _). }
  assert (size Occ = length sq) as Hk.
  { unfold Occ. apply size_list_to_set. by apply one_per_square_NoDup. }
  assert (length es = nT) as Hes.
  { unfold es. rewrite length_fmap, length_take. lia. }
  assert (forall e, e ∈ es -> exists i m, i < nT /\ M !! i = Some m /\ e = cells m) as Hedge.
  { intros e (m & -> & Hm)%list_elem_of_fmap. apply list_elem_of_lookup in Hm as [i Hi].
    apply lookup_take_Some in Hi as [Hi Hlt]. eauto. }
  assert (forall e, e ∈ es -> e.1 ∈ V /\ e.2 ∈ V) as HesV.
  { intros e (i & m & _ & Hi & ->)%Hedge. apply HV. by eapply list_elem_of_lookup_2. }
  assert (length es + 1 = size V) as Hn by (by apply (tree_count es V r)).
  set (Pocc := fun e : nat * nat => e.1 ∈ Occ /\ e.2 ∈ Occ).
  set (Pfree := fun e : nat * nat => e.1 ∈ V ∖ Occ /\ e.2 ∈ V ∖ Occ).
  assert (length (filter Pocc es) < size Occ) as Hbound_occ.
  { apply (forest_bound _ _ s).
    - by apply acyclic_filter.
    - by intros e [He _]%list_elem_of_filter.
    - by apply HOccB. }
  assert (length es <= length (filter Pocc es) + length (filter Pfree es)) as Hcover.
  { apply length_filter_cover. intros e He. destruct (HesV e He) as [HV1 HV2].
    destruct (Hedge e He) as (i & m & Hlt & Hi & ->).
    destruct (collapsed_to m) as [c|] eqn:Hc.
    - left. destruct (Hres i m c Hi Hc) as (_ & _ & Hboth).
      destruct (Hboth Hlt) as [H1 H2]. split; by apply HOccB.
    - assert (occupied B (cells m).1 <-> occupied B (cells m).2) as Hiff.
      { apply Hfix; [|done]. by eapply list_elem_of_lookup_2. }
      destruct (decide ((cells m).1 ∈ Occ)) as [H1|H1].
      + left. split; [done|]. apply HOccB; [done|]. apply Hiff. by apply HOccB.
      + right. split; [set_solver|]. apply elem_of_difference. split; [done|].
        intros H2. apply H1. apply HOccB; [done|]. apply Hiff. by apply HOccB. }
  assert (length M <= length sq) as Hfull.
  { destruct (decide (V ∖ Occ = ∅)) as [Hempty|Hne].
    - assert (filter Pfree es = []) as Hnil.
      { destruct (filter Pfree es) as [|e l'] eqn:E; [done|].
        assert (e ∈ filter Pfree es) as [[H1 _] _]%list_elem_of_filter
          by (rewrite E; by left).
        rewrite Hempty in H1. by apply elem_of_empty in H1. }
      rewrite Hnil in Hcover. simpl in Hcover. lia.
    - apply set_choose_L in Hne as [x Hx].
      assert (length (filter Pfree es) < size (V ∖ Occ)) as Hbound_free.
      { apply (forest_bound _ _ x); [by apply acyclic_filter| |done].
        by intros e [He _]%list_elem_of_filter. }
      rewrite size_difference in Hbound_free by done.
      pose proof (subseteq_size _ _ HsubV). lia. }
  intros m Hm. by apply (proj2 (length_omap_full collapsed_to M) Hfull).
Qed.

End TreeCollapse.

(** ** Legal sessions *)

Section LegalPlay.

Lemma legal_reachable st : legal st -> reachable st.
Proof. induction 1; eauto using reachable. Qed.

Lemma occupied_insert board c x v :
  board !! c = Some None ->
  occupied (<[c := Some x]> board) v <-> v = c \/ occupied board v.
Proof.
  intros Hc. unfold occupied. destruct (decide (v = c)) as [->|Hne].
  - rewrite list_lookup_insert_eq by (by eapply lookup_lt_Some). split; eauto.
  - rewrite list_lookup_insert_ne by done. split; [auto|]. by intros [?|?].
Qed.

Lemma free_cells_one board cs c :
  free_cells board cs = Ok [c] ->
  board !! c = Some None /\ cell_in c cs = true /\
  forall x, cell_in x cs = true -> x = c \/ occupied board x.
Proof.
  intros Hf. destruct (free_cells_single _ _ _ Hf) as [Hin Hc]. split; [done|].
  split; [done|]. apply free_cells_Ok in Hf as (oa & ob & Ha & Hb & Hfree).
  intros x Hx. unfold cell_in in Hx. apply orb_true_iff in Hx.
  destruct oa as [oa|], ob as [ob|]; simplify_eq/=;
    destruct Hx as [->%bool_decide_eq_true| ->%bool_decide_eq_true];
    auto; right; by eexists.
Qed.

Lemma cell_in_fst cs : cell_in cs.1 cs = true.
Proof. unfold cell_in. by rewrite bool_decide_eq_true_2. Qed.

Lemma cell_in_snd cs : cell_in cs.2 cs = true.
Proof.
  unfold cell_in. rewrite (bool_decide_eq_true_2 (cs.2 = cs.2)) by done.
  apply orb_true_r.
Qed.

Lemma cell_in_cases c cs : cell_in c cs = true <-> c = cs.1 \/ c = cs.2.
Proof. unfold cell_in. rewrite orb_true_iff, !bool_decide_eq_true. done. Qed.

Lemma run_inv_forcing board0 nT x y :
  forcing x y -> run_inv board0 nT x -> run_inv board0 nT y.
Proof.
  inversion 1 as [board ms i m c Hm Hnone Hfree]; subst. intros [Hres Hocc]. simpl in *.
  destruct (free_cells_one _ _ _ Hfree) as (Hc & Hin & Hother).
  assert (i < length ms) as Hi by (by eapply lookup_lt_Some).
  split; simpl.
  - intros j m' c' Hj Hc'. destruct (decide (j = i)) as [->|Hne].
    + rewrite list_lookup_insert_eq in Hj by done. simplify_eq/=.
      split; [done|]. split; [apply occupied_insert; auto|]. intros _.
      split; apply occupied_insert; try done.
      * apply Hother, cell_in_fst.
      * apply Hother, cell_in_snd.
    + rewrite list_lookup_insert_ne in Hj by done.
      destruct (Hres j m' c' Hj Hc') as (? & ? & Hboth).
      split; [done|]. split; [apply occupied_insert; auto|]. intros Hn.
      destruct (Hboth Hn). split; apply occupied_insert; auto.
  - intros v [->|Hv]%occupied_insert; [| |done].
    + right. exists i, (resolve m c). split; [by apply list_lookup_insert_eq|done].
    + destruct (Hocc v Hv) as [?|(j & m' & Hj & Hc')]; [by left|]. right.
      exists j, m'. split; [|done]. rewrite list_lookup_insert_ne; [done|].
      intros ->. congruence.
Qed.

Lemma run_inv_forcings board0 nT x y :
  rtc forcing x y -> run_inv board0 nT x -> run_inv board0 nT y.
Proof. induction 1; eauto using run_inv_forcing. Qed.

Lemma run_inv_selection board0 T new s :
  (forall m, m ∈ T ++ [new] -> collapsed_to m = None) ->
  cell_in s (cells new) = true -> board0 !! s = Some None ->
  run_inv board0 (length T)
    (<[s := Some (ident new)]> board0, <[length T := resolve new s]> (T ++ [new])).
Proof.
  intros Hnone Hin Hs.
  assert (length T < length (T ++ [new])) as Hlen by (rewrite length_app; simpl; lia).
  split; simpl.
  - intros i m c Hi Hc. destruct (decide (i = length T)) as [->|Hne].
    + rewrite list_lookup_insert_eq in Hi by done. simplify_eq/=.
      split; [done|]. split; [apply occupied_insert; auto|done].
    + rewrite list_lookup_insert_ne in Hi by done.
      apply list_elem_of_lookup_2 in Hi. rewrite (Hnone m Hi) in Hc. done.
  - intros v [->|Hv]%occupied_insert; [|by left|done].
    right. exists (length T), (resolve new s). split; [by apply list_lookup_insert_eq|done].
Qed.

Lemma same_moves_cells ms ms' : same_moves ms ms' -> cells <$> ms' = cells <$> ms.
Proof.
  induction 1 as [|m m' l l' (_ & Hc & _) _ IH]; [done|]. csimpl. by rewrite Hc, IH.
Qed.

Lemma not_forced_balanced board m oa ob :
  ~ forced board m -> collapsed_to m = None ->
  board !! (cells m).1 = Some oa -> board !! (cells m).2 = Some ob ->
  (occupied board (cells m).1 <-> occupied board (cells m).2).
Proof.
  intros Hnf Hnone Ha Hb. unfold occupied. rewrite Ha, Hb.
  destruct oa as [oa|], ob as [ob|]; split; intros [o [= ?]]; eauto; destruct Hnf;
    (split; [done|]); unfold free_cells;
    rewrite (proj2 (getitem_Ok _ _ _) Ha), (proj2 (getitem_Ok _ _ _) Hb); simpl; eauto.
Qed.

End LegalPlay.

Section LegalInvariant.

Lemma fmap_filter_cells (Q : nat * nat -> Prop) `{!forall e, Decision (Q e)} (ms : list Move) :
  cells <$> filter (fun m => Q (cells m)) ms = filter Q (cells <$> ms).
Proof.
  induction ms as [|m ms IH]; [done|]. csimpl. rewrite !filter_cons.
  destruct (decide (Q (cells m))); csimpl; by rewrite IH.
Qed.

(** A path that starts inside a set closed under the links only uses
    pairs whose first square is in the set. *)
Lemma joined_inside (C : nat -> Prop) `{!forall x, Decision (C x)} es x y :
  (forall u v, C u -> link es u v -> C v) ->
  C x -> joined es x y -> joined (filter (fun e => C e.1) es) x y.
Proof.
  intros Hclosed Hx Hj. induction Hj as [x|x z y Hxz _ IH]; [apply rtc_refl|].
  assert (C z) as Hz by eauto.
  eapply rtc_l; [|by apply IH].
  destruct Hxz as [He|He]; [left|right]; apply list_elem_of_filter; auto.
Qed.

(** When the placement closes a loop, every square of the component is
    joined to the first cell by ledger moves of the component alone. *)
Lemma component_tree st a b x :
  connected (moves st) a b -> x ∈ involved st a b ->
  joined (cells <$> filter (fun m => (cells m).1 ∈ involved st a b) (moves st)) a x.
Proof.
  intros Hab Hx. apply connected_joined in Hab.
  apply involved_spec, connected_joined in Hx. rewrite fmap_app in Hx. simpl in Hx.
  assert (joined (cells <$> moves st) a x) as Hax.
  { apply joined_snoc in Hx as [?|[[_ ?]|[_ ?]]]; [done| |done].
    by eapply joined_trans. }
  cut (joined (filter (fun e => e.1 ∈ involved st a b) (cells <$> moves st)) a x).
  { intros Hg. rewrite <- (fmap_filter_cells (fun e => e.1 ∈ involved st a b)) in Hg.
    exact Hg. }
  pose proof (joined_inside (fun v => v ∈ involved st a b) (cells <$> moves st) a x) as Hin.
  apply Hin; [|apply involved_spec, rtc_refl|done].
  intros u v Hu Huv. apply involved_spec. apply involved_spec in Hu.
  eapply connected_trans; [exact Hu|].
  apply connected_joined. eapply joined_mono; [|apply rtc_once, Huv].
  intros e He. rewrite fmap_app. apply elem_of_app. by left.
Qed.

Lemma free_pair_lt board cs :
  free_pair board cs -> cs.1 < length board /\ cs.2 < length board.
Proof. intros (_ & Ha & Hb). split; by eapply lookup_lt_Some. Qed.

Lemma not_occupied_free board v : board !! v = Some None -> ~ occupied board v.
Proof. intros Hv [o Ho]. congruence. Qed.

Lemma free_or_occupied board v :
  v < length board -> board !! v = Some None \/ occupied board v.
Proof.
  intros [[o|] Hv]%lookup_lt_is_Some; [right; by exists o|by left].
Qed.

End LegalInvariant.

Section LegalSessions.

Lemma elem_of_squares_of ms v :
  v ∈ squares_of ms <-> exists m, m ∈ ms /\ cell_in v (cells m) = true.
Proof.
  unfold squares_of. rewrite elem_of_list_to_set, elem_of_app, !list_elem_of_fmap.
  split.
  - intros [(e & -> & (m & -> & Hm)%list_elem_of_fmap)|(e & -> & (m & -> & Hm)%list_elem_of_fmap)];
      exists m; (split; [done|]); [apply cell_in_fst|apply cell_in_snd].
  - intros (m & Hm & [->| ->]%cell_in_cases); [left|right];
      exists (cells m); (split; [done|]); apply list_elem_of_fmap; eauto.
Qed.

Lemma cells_insert_resolve (ms : list Move) (i : nat) m c :
  ms !! i = Some m -> cells <$> <[i := resolve m c]> ms = cells <$> ms.
Proof.
  intros Hm. rewrite list_fmap_insert. apply list_insert_id.
  rewrite list_lookup_fmap, Hm. done.
Qed.

Lemma cell_in_false c cs : c <> cs.1 -> c <> cs.2 -> cell_in c cs = false.
Proof.
  intros H1 H2. apply not_true_iff_false. rewrite cell_in_cases. by intros [?|?].
Qed.

Lemma legal_place_inv st a b st' :
  reachable st -> legal_inv st ->
  collapsed_board st !! a = Some None -> collapsed_board st !! b = Some None ->
  add_spooky_move st a b = Ok st' -> legal_inv st'.
Proof.
  intros Hreach Hinv Ha Hb Hplace. place_cases Hplace.
  - assert (connected (moves st) a b) as Hab by (by apply would_create_loop_spec).
    assert (forall m, m ∈ filter (fun m => (cells m).1 ∈ involved st a b) (moves st)
                            ++ [new_move st a b] ->
              m ∈ moves st ++ [new_move st a b] /\
              (cells m).1 ∈ involved st a b /\ (cells m).2 ∈ involved st a b) as Hinside.
    { intros m Hm.
      assert (m ∈ moves st ++ [new_move st a b] /\ (cells m).1 ∈ involved st a b) as [H0 H1].
      { apply elem_of_app in Hm as [[? ?]%list_elem_of_filter| ->%list_elem_of_singleton].
        - split; [apply elem_of_app; by left|done].
        - split; [apply elem_of_app; right; by apply list_elem_of_singleton|].
          apply involved_spec, rtc_refl. }
      split; [done|]. split; [done|]. by apply (involved_both_cells st a b m). }
    constructor; simpl.
    + apply Hinv.
    + intros m [_ Hm]%list_elem_of_filter. by apply Hinv.
    + cut (acyclic (filter (fun e => e.1 ∉ involved st a b) (cells <$> moves st))).
      { intros Hg. rewrite <- (fmap_filter_cells (fun e => e.1 ∉ involved st a b)) in Hg.
        exact Hg. }
      apply acyclic_filter, Hinv.
    + intros _. exists (filter (fun m => (cells m).1 ∈ involved st a b) (moves st)),
        (new_move st a b).
      split; [done|]. split; [done|]. split; [|split; [|split]].
      * intros m [[_ Hm]%list_elem_of_filter| ->%list_elem_of_singleton]%elem_of_app.
        -- split; [by apply (inv_ledger _ (reachable_inv _ Hreach))|by apply Hinv].
        -- split; [done|]. by repeat split.
      * cut (acyclic (filter (fun e => e.1 ∈ involved st a b) (cells <$> moves st))).
        { intros Hg. rewrite <- (fmap_filter_cells (fun e => e.1 ∈ involved st a b)) in Hg.
          exact Hg. }
        apply acyclic_filter, Hinv.
      * intros m (_ & H1 & H2)%Hinside. simpl. split; by apply component_tree.
      * intros m m' [Hm1 Hm]%list_elem_of_filter (_ & H1 & H2)%Hinside.
        assert ((cells m).2 ∉ involved st a b) as Hm2.
        { intros H. apply Hm1. apply (involved_both_cells st a b m); [|done].
          apply elem_of_app. by left. }
        split; apply cell_in_false; congruence.
    + done.
  - constructor; simpl.
    + apply Hinv.
    + intros m [Hm| ->%list_elem_of_singleton]%elem_of_app; [by apply Hinv|].
      by repeat split.
    + rewrite fmap_app. simpl. apply (acyclic_snoc _ (a, b)); [apply Hinv|]. simpl.
      intros Hj%connected_joined%would_create_loop_spec. congruence.
    + done.
    + intros _. by apply Hinv.
Qed.

Lemma legal_collapse_inv st s b st' :
  reachable st -> legal_inv st -> collapse_step st s = Ok (b, st') -> legal_inv st'.
Proof.
  intros Hreach Hinv Hstep.
  assert (reachable st') as Hreach' by eauto using reachable.
  apply collapse_step_cases in Hstep as [Hmode Hcase].
  destruct Hcase as [?|?|?|mv cms' board' Hmv Hin Hfree Hprop]; try done.
  destruct (li_episode _ Hinv Hmode) as (T & new & HT & Hidx & Hfresh & Hacy & Htree & Hdisj).
  pose proof (inv_unique _ (reachable_inv _ Hreach')) as Huniq. simpl in Huniq.
  revert Hreach'. rewrite HT, Hidx in *. intros _.
  assert (mv = new) as ->.
  { rewrite lookup_app_r, Nat.sub_diag in Hmv by lia. by injection Hmv. }
  pose proof (propagate_forcings _ _ _ _ Hprop) as Hrun.
  assert (forall m, m ∈ T ++ [new] -> collapsed_to m = None) as Hnone
    by (intros m Hm; by apply Hfresh).
  destruct (run_inv_forcings (collapsed_board st) (length T) _ _ Hrun
              (run_inv_selection _ T new s Hnone Hin Hfree)) as [Hres Hocc].
  destruct (resolutions_preserve _ _ (forcings_resolutions _ _ Hrun))
    as (Hsame & [Hlen Hgrow] & _).
  simpl in Hres, Hocc, Hsame, Hlen, Hgrow. rewrite length_insert in Hlen.
  pose proof (same_moves_cells _ _ Hsame) as Hcells.
  rewrite (cells_insert_resolve _ _ _ _ Hmv) in Hcells.
  pose proof (same_moves_length _ _ Hsame) as Hlen'.
  rewrite length_insert, length_app in Hlen'. simpl in Hlen'.
  assert (cms' !! length T = Some (resolve new s)) as Hsel.
  { eapply (forcings_keep_resolved _ (board', cms')); [exact Hrun| |done]. simpl.
    apply list_lookup_insert_eq. by eapply lookup_lt_Some. }
  assert (forall m, m ∈ cms' -> exists m0, m0 ∈ T ++ [new] /\ cells m0 = cells m) as Horig.
  { intros m Hm. assert (cells m ∈ cells <$> cms') as Hc by (apply list_elem_of_fmap; eauto).
    rewrite Hcells in Hc. apply list_elem_of_fmap in Hc as (m0 & ? & ?). eauto. }
  rewrite (advance_last cms' (length T) (resolve new s) s) by (done || lia).
  assert (forall v, collapsed_board st !! v = Some None ->
            (forall m0, m0 ∈ T ++ [new] -> cell_in v (cells m0) = false) ->
            board' !! v = Some None) as Hkeep.
  { intros v Hv Hout. destruct (free_or_occupied board' v) as [?|Hv']; [|done|].
    { rewrite Hlen. by eapply lookup_lt_Some. }
    destruct (Hocc v Hv') as [H0|(i & m & Hm & Hc)].
    - by apply not_occupied_free in H0.
    - destruct (Hres i m v Hm Hc) as (Hcell & _).
      apply list_elem_of_lookup_2 in Hm. destruct (Horig m Hm) as (m0 & Hm0 & Heq).
      rewrite <- Heq, (Hout m0 Hm0) in Hcell. done. }
  unfold accepted_state. rewrite !decide_True by lia.
  constructor; simpl.
  - rewrite Hlen. apply Hinv.
  - intros m Hm. destruct (li_ledger _ Hinv m Hm) as (Hne & H1 & H2).
    split; [done|]. split; apply Hkeep; try done; intros m0 Hm0; by apply (Hdisj m m0).
  - apply Hinv.
  - done.
  - intros _.
    apply (all_resolved_at_fixpoint board' cms' (squares_of (T ++ [new]))
             (cells new).1 s (length T)).
    + lia.
    + rewrite fmap_take, Hcells, fmap_app, take_app_length'; [done|by rewrite length_fmap].
    + intros m (m0 & Hm0 & Heq)%Horig. rewrite <- Heq.
      split; apply elem_of_squares_of; exists m0; (split; [done|]);
        [apply cell_in_fst|apply cell_in_snd].
    + apply elem_of_squares_of. exists new. split; [|apply cell_in_fst].
      apply elem_of_app. right. by apply list_elem_of_singleton.
    + intros x (m0 & Hm0 & Hx)%elem_of_squares_of.
      rewrite fmap_take, Hcells, fmap_app, take_app_length' by (by rewrite length_fmap).
      destruct (Htree m0 Hm0) as [H1 H2].
      apply cell_in_cases in Hx as [->| ->]; done.
    + apply elem_of_squares_of. exists new. split; [|done].
      apply elem_of_app. right. by apply list_elem_of_singleton.
    + apply list_elem_of_lookup_2 in Hsel as Hsel'.
      destruct (Hres (length T) (resolve new s) s Hsel eq_refl) as (_ & ? & _). done.
    + intros m Hm Hunres.
      destruct (propagate_pass_quiet _ _ _ _ _ (propagate_fixpoint _ _ _ _ Hprop))
        as (_ & _ & _ & Hquiet).
      destruct (Horig m Hm) as (m0 & Hm0 & Heq).
      destruct (Hfresh m0 Hm0) as [_ Hpair]. apply free_pair_lt in Hpair as [H1 H2].
      rewrite Heq, <- Hlen in H1, H2.
      apply lookup_lt_is_Some in H1 as [oa H1]. apply lookup_lt_is_Some in H2 as [ob H2].
      by apply (not_forced_balanced board' m oa ob); [apply Hquiet| | |].
    + intros i m c Hm Hc. destruct (Hres i m c Hm Hc) as (Hcell & Hoc & Hboth).
      split; [|split; [done|intros ?; apply Hboth; lia]].
      apply list_elem_of_lookup_2 in Hm. destruct (Horig m Hm) as (m0 & Hm0 & Heq).
      apply elem_of_squares_of. exists m0. by rewrite Heq.
    + intros v (m0 & Hm0 & Hv)%elem_of_squares_of Hoc.
      destruct (Hocc v Hoc) as [H0|?]; [|done].
      destruct (Hfresh m0 Hm0) as [_ (_ & H1 & H2)].
      apply cell_in_cases in Hv as [->| ->]; by apply not_occupied_free in H0.
    + done.
Qed.

Lemma legal_legal_inv st : legal st -> legal_inv st.
Proof.
  induction 1 as [|st a b st' Hlegal IH Ha Hb Hplace|st s b st' Hlegal IH Hstep].
  - constructor; simpl; try done.
    + intros m Hm. by apply elem_of_nil in Hm.
    + constructor.
    + intros _ m Hm. by apply elem_of_nil in Hm.
  - apply (legal_place_inv st a b); auto using legal_reachable.
  - apply (legal_collapse_inv st s b); auto using legal_reachable.
Qed.

Lemma legal_covered st :
  legal_inv st -> mode st = COLLAPSE ->
  covered (length (collapsed_board st)) (collapse_moves st).
Proof.
  intros Hinv Hmode. destruct (li_episode _ Hinv Hmode) as (T & new & HT & _ & Hfresh & _).
  rewrite HT. apply Forall_forall. intros m Hm.
  destruct (Hfresh m Hm) as [_ Hpair]. by apply free_pair_lt.
Qed.

Lemma two_moves_legal : legal two_moves.
Proof.
  apply (legal_place one_move 0 1); [|done|done|exact run_two_moves].
  apply (legal_place reset 1 2); [|done|done|exact run_one_move].
  constructor.
Qed.

Lemma episode_legal : legal episode.
Proof.
  apply (legal_place two_moves 0 2); [exact two_moves_legal|done|done|exact run_episode].
Qed.

(** X11: in a session whose placements are all on unoccupied squares,
    an accepted selection resolves the whole episode: when
    [collapse_step] returns true the engine is back in PLAY mode and
    every implicated move is resolved to a square on which the board
    records it. *)
Theorem legal_collapse_resolves_every_move st s st' :
  legal st -> collapse_step st s = Ok (true, st') ->
  mode st' = PLAY /\
  Forall (fun m => exists c, collapsed_to m = Some c /\
                             collapsed_board st' !! c = Some (Some (ident m)))
         (collapse_moves st').
Proof.
  intros Hlegal Hstep.
  pose proof (accepted_mode _ _ _ (legal_reachable _ Hlegal) Hstep) as Hmode.
  pose proof (legal_collapse _ _ _ _ Hlegal Hstep) as Hlegal'.
  split; [done|]. apply Forall_forall. intros m Hm.
  destruct (li_done _ (legal_legal_inv _ Hlegal') Hmode m Hm) as [c Hc].
  exists c. split; [done|].
  by apply (inv_records _ (reachable_inv _ (legal_reachable _ Hlegal'))).
Qed.

Lemma legal_collapse_resolves_every_move_witness :
  mode collapsed = PLAY /\
  Forall (fun m => exists c, collapsed_to m = Some c /\
                             collapsed_board collapsed !! c = Some (Some (ident m)))
         (collapse_moves collapsed).
Proof.
  exact (legal_collapse_resolves_every_move episode 0 collapsed episode_legal run_collapsed).
Defined.

(** X12: in a session whose placements are all on unoccupied squares,
    the moves of the ledger never contain a loop, every unresolved move
    (in the ledger and, during an episode, in the implicated list) lies
    on two different unoccupied squares, and the ledger holds at most
    eight moves. *)
Theorem legal_pending_moves st :
  legal st ->
  acyclic (cells <$> moves st) /\
  Forall (fun m => collapsed_to m = None /\ free_pair (collapsed_board st) (cells m))
         (moves st ++ if decide (mode st = COLLAPSE) then collapse_moves st else []) /\
  length (moves st) <= 8.
Proof.
  intros Hlegal. pose proof (legal_legal_inv _ Hlegal) as Hinv.
  pose proof (reachable_inv _ (legal_reachable _ Hlegal)) as Hreach.
  split; [apply Hinv|]. split.
  - apply Forall_app. split.
    + apply Forall_forall. intros m Hm. split; [by apply Hreach|by apply Hinv].
    + destruct (decide (mode st = COLLAPSE)) as [Hmode|]; [|constructor].
      destruct (li_episode _ Hinv Hmode) as (T & new & HT & _ & Hfresh & _).
      rewrite HT. apply Forall_forall. intros m Hm. by apply Hfresh.
  - destruct (moves st) as [|m0 ms] eqn:Hms; [simpl; lia|]. rewrite <- Hms.
    assert (length (moves st) < size (list_to_set (seq 0 9) : gset nat)) as Hlt.
    { assert (forall m, m ∈ moves st ->
                (cells m).1 ∈ (list_to_set (seq 0 9) : gset nat) /\
                (cells m).2 ∈ (list_to_set (seq 0 9) : gset nat)) as Hin.
      { intros m Hm. destruct (free_pair_lt _ _ (li_ledger _ Hinv m Hm)) as [H1 H2].
        rewrite (li_board _ Hinv) in H1, H2.
        rewrite !elem_of_list_to_set, !elem_of_seq. lia. }
      rewrite <- (length_fmap cells).
      apply (forest_bound _ _ (cells m0).1); [apply Hinv| |].
      - intros e (m & -> & Hm)%list_elem_of_fmap. by apply Hin.
      - apply Hin. rewrite Hms. by left. }
    rewrite size_list_to_set in Hlt by apply NoDup_seq. rewrite length_seq in Hlt. lia.
Qed.

Lemma legal_pending_moves_witness :
  acyclic (cells <$> moves two_moves) /\
  Forall (fun m => collapsed_to m = None /\ free_pair (collapsed_board two_moves) (cells m))
         (moves two_moves ++
          if decide (mode two_moves = COLLAPSE) then collapse_moves two_moves else []) /\
  length (moves two_moves) <= 8.
Proof.
  exact (legal_pending_moves two_moves two_moves_legal).
Defined.

(** X13: in a session whose placements are all on unoccupied squares,
    the chooser can always take either cell of the move at the cursor:
    in COLLAPSE mode [collapse_step] raises nothing, returns true
    exactly for the two cells of that move, and leaves the state as it
    is for every other square. *)
Theorem legal_selection_accepted st s :
  legal st -> mode st = COLLAPSE ->
  exists mv st',
    collapse_moves st !! collapse_index st = Some mv /\
    collapse_step st s = Ok (cell_in s (cells mv), st') /\
    (cell_in s (cells mv) = false -> st' = st).
Proof.
  intros Hlegal Hmode. pose proof (legal_legal_inv _ Hlegal) as Hinv.
  destruct (li_episode _ Hinv Hmode) as (T & new & HT & Hidx & Hfresh & _).
  assert (collapse_moves st !! collapse_index st = Some new) as Hmv.
  { rewrite HT, Hidx, lookup_app_r, Nat.sub_diag by lia. done. }
  destruct (collapse_step_total st s Hmode (legal_covered _ Hinv Hmode)) as (b & st' & Hstep).
  exists new, st'. split; [done|].
  pose proof Hstep as [_ Hcase]%collapse_step_cases.
  inversion Hcase as [Hend|mv Hmv' Hout|mv occupant Hmv' Hin Hocc|mv cms' board' Hmv' Hin];
    subst; simplify_eq.
  - apply lookup_lt_Some in Hmv. lia.
  - by rewrite Hout.
  - destruct (Hfresh new) as [_ (_ & H1 & H2)].
    { apply elem_of_app. right. by apply list_elem_of_singleton. }
    apply cell_in_cases in Hin as [->| ->]; congruence.
  - rewrite Hin. split; [done|]. done.
Qed.

Lemma legal_selection_accepted_witness :
  exists mv st',
    collapse_moves episode !! collapse_index episode = Some mv /\
    collapse_step episode 0 = Ok (cell_in 0 (cells mv), st') /\
    (cell_in 0 (cells mv) = false -> st' = episode).
Proof.
  exact (legal_selection_accepted episode 0 episode_legal eq_refl).
Defined.

End LegalSessions.

(** * The window *)

(** ** Drawing the board *)

Section Rendering.

Lemma append_at_Ok texts i x :
  i < length texts ->
  exists texts', append_at texts i x = Ok texts' /\ length texts' = length texts /\
    forall j t, texts !! j = Some t ->
      texts' !! j = Some (t ++ if decide (i = j) then [x] else []).
Proof.
  intros [xs Hxs]%lookup_lt_is_Some. unfold append_at.
  rewrite (proj2 (getitem_Ok _ _ _) Hxs). simpl. eexists. split; [done|].
  split; [by rewrite length_insert|]. intros j t Hj.
  destruct (decide (i = j)) as [<-|Hne].
  - rewrite list_lookup_insert_eq by (by eapply lookup_lt_Some). congruence.
  - rewrite list_lookup_insert_ne by done. by rewrite app_nil_r.
Qed.

Lemma add_at_Ok players i p :
  i < length players ->
  exists players', add_at players i p = Ok players' /\ length players' = length players /\
    forall j s, players !! j = Some s ->
      players' !! j = Some (s ∪ if decide (i = j) then {[p]} else ∅).
Proof.
  intros [s0 Hs0]%lookup_lt_is_Some. unfold add_at.
  rewrite (proj2 (getitem_Ok _ _ _) Hs0). simpl. eexists. split; [done|].
  split; [by rewrite length_insert|]. intros j s Hj.
  destruct (decide (i = j)) as [<-|Hne].
  - rewrite list_lookup_insert_eq by (by eapply lookup_lt_Some). congruence.
  - rewrite list_lookup_insert_ne by done. rewrite Hj. f_equal. set_solver.
Qed.

Lemma owners_on_cons i m ms :
  owners_on i (m :: ms) =
  (if cell_in i (cells m) then {[player m]} else ∅) ∪ owners_on i ms.
Proof.
  unfold owners_on. rewrite filter_cons.
  destruct (cell_in i (cells m)); simpl; [done|set_solver].
Qed.

Lemma owners_on_app i ms1 ms2 :
  owners_on i (ms1 ++ ms2) = owners_on i ms1 ∪ owners_on i ms2.
Proof.
  unfold owners_on. rewrite filter_app, fmap_app, list_to_set_app_L. done.
Qed.

Lemma labels_on_app i ms1 ms2 :
  labels_on i (ms1 ++ ms2) = labels_on i ms1 ++ labels_on i ms2.
Proof. unfold labels_on. by rewrite bind_app. Qed.

Lemma mark_move_Ok texts players m :
  (cells m).1 < length texts -> (cells m).2 < length texts ->
  length players = length texts ->
  exists texts' players',
    mark_move texts players m = Ok (texts', players') /\
    length texts' = length texts /\ length players' = length players /\
    (forall j t, texts !! j = Some t -> texts' !! j = Some (t ++ labels_on j [m])) /\
    (forall j s, players !! j = Some s -> players' !! j = Some (s ∪ owners_on j [m])).
Proof.
  intros Ha Hb Hlen. unfold mark_move.
  destruct (append_at_Ok texts (cells m).1 (label_of m) Ha) as (t1 & -> & Hl1 & Ht1).
  simpl. rewrite <- Hl1 in Hb.
  destruct (append_at_Ok t1 (cells m).2 (label_of m) Hb) as (t2 & -> & Hl2 & Ht2).
  simpl. rewrite <- Hlen in Ha. rewrite Hl1, <- Hlen in Hb.
  destruct (add_at_Ok players (cells m).1 (player m) Ha) as (p1 & -> & Hp1 & Hs1).
  simpl. rewrite <- Hp1 in Hb.
  destruct (add_at_Ok p1 (cells m).2 (player m) Hb) as (p2 & -> & Hp2 & Hs2).
  simpl. exists t2, p2. split; [done|]. split; [congruence|]. split; [congruence|]. split.
  - intros j t Hj. rewrite (Ht2 j _ (Ht1 j t Hj)), <- app_assoc.
    unfold labels_on. simpl. by rewrite app_nil_r.
  - intros j s Hj. rewrite (Hs2 j _ (Hs1 j s Hj)). f_equal.
    rewrite owners_on_cons. unfold owners_on, cell_in. rewrite filter_nil. simpl.
    destruct (decide ((cells m).1 = j)) as [H1|H1], (decide ((cells m).2 = j)) as [H2|H2];
      repeat case_bool_decide; simpl; try congruence; set_solver.
Qed.

Lemma marked_cons flag m ms :
  marked flag (m :: ms) =
  if flag && bool_decide (collapsed_to m <> None) then marked flag ms
  else m :: marked flag ms.
Proof.
  unfold marked. destruct flag; simpl; [|done]. rewrite filter_cons.
  destruct (decide (collapsed_to m = None)) as [H|H].
  - by rewrite bool_decide_eq_false_2 by (by intros ?).
  - by rewrite bool_decide_eq_true_2.
Qed.

Lemma mark_moves_Ok flag ms texts players :
  covered (length texts) (marked flag ms) -> length players = length texts ->
  exists texts' players',
    mark_moves flag ms texts players = Ok (texts', players') /\
    length texts' = length texts /\ length players' = length players /\
    (forall j t, texts !! j = Some t ->
       texts' !! j = Some (t ++ labels_on j (marked flag ms))) /\
    (forall j s, players !! j = Some s ->
       players' !! j = Some (s ∪ owners_on j (marked flag ms))).
Proof.
  revert texts players. induction ms as [|m ms IH]; intros texts players Hcov Hlen.
  - exists texts, players. split; [done|]. split; [done|]. split; [done|].
    assert (marked flag [] = []) as -> by (by destruct flag). split.
    + intros j t Hj. by rewrite app_nil_r.
    + intros j s Hj. rewrite Hj. f_equal. unfold owners_on. simpl. set_solver.
  - simpl. rewrite marked_cons in Hcov |- *.
    destruct (flag && bool_decide (collapsed_to m <> None)); [by apply IH|].
    apply Forall_cons in Hcov as [[Ha Hb] Hcov].
    destruct (mark_move_Ok texts players m Ha Hb Hlen)
      as (t1 & p1 & -> & Hl1 & Hp1 & Ht1 & Hs1). simpl.
    destruct (IH t1 p1) as (t2 & p2 & -> & Hl2 & Hp2 & Ht2 & Hs2).
    { by rewrite Hl1. }
    { congruence. }
    exists t2, p2. split; [done|]. split; [congruence|]. split; [congruence|]. split.
    + intros j t Hj. rewrite (Ht2 j _ (Ht1 j t Hj)), <- app_assoc.
      by rewrite <- (labels_on_app j [m]).
    + intros j s Hj. rewrite (Hs2 j _ (Hs1 j s Hj)). f_equal.
      rewrite <- (assoc_L (∪)). by rewrite <- (owners_on_app j [m]).
Qed.

Lemma mark_board_Ok board squares texts players :
  NoDup squares ->
  (forall i, i ∈ squares -> i < length board /\ i < length texts) ->
  length players = length texts ->
  exists texts' players',
    mark_board board squares texts players = Ok (texts', players') /\
    length texts' = length texts /\ length players' = length players /\
    (forall j t, texts !! j = Some t ->
       texts' !! j = Some (t ++ if decide (j ∈ squares)
                                then mark_label (default None (board !! j)) else [])) /\
    (forall j s, players !! j = Some s ->
       players' !! j = Some (s ∪ if decide (j ∈ squares)
                                 then mark_owner (default None (board !! j)) else ∅)).
Proof.
  revert texts players.
  induction squares as [|i rest IH]; intros texts players Hnd Hin Hlen.
  - exists texts, players. split; [done|]. split; [done|]. split; [done|]. split.
    + intros j t Hj. rewrite decide_False by apply not_elem_of_nil. by rewrite app_nil_r.
    + intros j s Hj. rewrite decide_False by apply not_elem_of_nil. rewrite Hj. f_equal.
      set_solver.
  - apply NoDup_cons in Hnd as [Hi Hnd]. simpl.
    destruct (Hin i) as [Hib Hit]; [by left|].
    apply lookup_lt_is_Some in Hib as [cb Hcb].
    rewrite (proj2 (getitem_Ok _ _ _) Hcb). simpl.
    assert (forall j, decide (j ∈ i :: rest) = decide (j ∈ i :: rest)) as _ by done.
    destruct cb as [[p idx]|].
    + destruct (append_at_Ok texts i (Classical p idx) Hit) as (t1 & -> & Hl1 & Ht1). simpl.
      rewrite <- Hlen in Hit.
      destruct (add_at_Ok players i p Hit) as (p1 & -> & Hp1 & Hs1). simpl.
      destruct (IH t1 p1 Hnd) as (t2 & p2 & -> & Hl2 & Hp2 & Ht2 & Hs2).
      { intros i' Hi'. rewrite Hl1. apply Hin. by right. }
      { congruence. }
      exists t2, p2. split; [done|]. split; [congruence|]. split; [congruence|]. split.
      * intros j t Hj. rewrite (Ht2 j _ (Ht1 j t Hj)), <- app_assoc. f_equal. f_equal.
        destruct (decide (i = j)) as [<-|Hne].
        -- rewrite decide_False by done. rewrite decide_True by (by left).
           rewrite Hcb. simpl. done.
        -- simpl. destruct (decide (j ∈ rest)).
           ++ rewrite decide_True by (by right). done.
           ++ rewrite decide_False; [done|]. intros [?|?]%elem_of_cons; congruence.
      * intros j s Hj. rewrite (Hs2 j _ (Hs1 j s Hj)). f_equal.
        destruct (decide (i = j)) as [<-|Hne].
        -- rewrite decide_False by done. rewrite decide_True by (by left).
           rewrite Hcb. simpl. set_solver.
        -- destruct (decide (j ∈ rest)).
           ++ rewrite decide_True by (by right). set_solver.
           ++ rewrite decide_False; [set_solver|]. intros [?|?]%elem_of_cons; congruence.
    + destruct (IH texts players Hnd) as (t2 & p2 & -> & Hl2 & Hp2 & Ht2 & Hs2).
      { intros i' Hi'. apply Hin. by right. }
      { done. }
      exists t2, p2. split; [done|]. split; [congruence|]. split; [congruence|]. split.
      * intros j t Hj. rewrite (Ht2 j _ Hj). f_equal. f_equal.
        destruct (decide (i = j)) as [<-|Hne].
        -- rewrite decide_False by done. rewrite decide_True by (by left).
           by rewrite Hcb.
        -- destruct (decide (j ∈ rest)).
           ++ rewrite decide_True by (by right). done.
           ++ rewrite decide_False; [done|]. intros [?|?]%elem_of_cons; congruence.
      * intros j s Hj. rewrite (Hs2 j _ Hj). f_equal.
        destruct (decide (i = j)) as [<-|Hne].
        -- rewrite decide_False by done. rewrite decide_True by (by left).
           rewrite Hcb. simpl. set_solver.
        -- destruct (decide (j ∈ rest)).
           ++ rewrite decide_True by (by right). done.
           ++ rewrite decide_False; [done|]. intros [?|?]%elem_of_cons; congruence.
Qed.

Lemma paint_Ok st temp texts players squares :
  (forall i, i ∈ squares ->
     i < length texts /\ i < length (collapsed_board st) /\ i < length players) ->
  paint st temp texts players squares =
  Ok ((fun i => cell_view st temp i (default [] (texts !! i))
                          (default None (collapsed_board st !! i))
                          (default ∅ (players !! i))) <$> squares).
Proof.
  induction squares as [|i rest IH]; intros Hin; [done|]. simpl.
  destruct (Hin i) as (Ht & Hb & Hp); [by left|].
  apply lookup_lt_is_Some in Ht as [t Ht]. apply lookup_lt_is_Some in Hb as [cb Hcb].
  apply lookup_lt_is_Some in Hp as [s Hs].
  rewrite (proj2 (getitem_Ok _ _ _) Ht), (proj2 (getitem_Ok _ _ _) Hcb),
    (proj2 (getitem_Ok _ _ _) Hs). simpl.
  rewrite IH by (intros i' Hi'; apply Hin; by right). simpl.
  by rewrite Ht, Hcb, Hs.
Qed.

Lemma update_board_display_rendered g :
  9 <= length (collapsed_board (logic g)) -> covered 9 (shown_moves (logic g)) ->
  update_board_display g = Ok (rendered g).
Proof.
  intros Hlen Hcov. unfold update_board_display, rendered.
  set (st := logic g) in *.
  destruct (mark_board_Ok (collapsed_board st) (seq 0 9) (replicate 9 []) (replicate 9 ∅))
    as (t1 & p1 & -> & Hl1 & Hp1 & Ht1 & Hs1).
  { apply NoDup_seq. }
  { intros i Hi%elem_of_seq. rewrite length_replicate. lia. }
  { by rewrite !length_replicate. }
  cbn [mbind result_bind rbind]. rewrite length_replicate in Hl1.
  rewrite length_replicate in Hp1.
  unfold shown_moves in Hcov. apply Forall_app in Hcov as [Hcov1 Hcov2].
  destruct (mark_moves_Ok false (moves st) t1 p1)
    as (t2 & p2 & -> & Hl2 & Hp2 & Ht2 & Hs2); [by rewrite Hl1|congruence|].
  cbn [mbind result_bind rbind marked] in *.
  assert (exists t3 p3,
    (if decide (mode st = COLLAPSE) then mark_moves true (collapse_moves st) t2 p2
     else Ok (t2, p2)) = Ok (t3, p3) /\
    length t3 = 9 /\ length p3 = 9 /\
    (forall j t, t2 !! j = Some t ->
       t3 !! j = Some (t ++ labels_on j
         (if decide (mode st = COLLAPSE)
          then filter (fun m => collapsed_to m = None) (collapse_moves st) else []))) /\
    (forall j s, p2 !! j = Some s ->
       p3 !! j = Some (s ∪ owners_on j
         (if decide (mode st = COLLAPSE)
          then filter (fun m => collapsed_to m = None) (collapse_moves st) else []))))
    as (t3 & p3 & -> & Hl3 & Hp3 & Ht3 & Hs3).
  { destruct (decide (mode st = COLLAPSE)).
    - destruct (mark_moves_Ok true (collapse_moves st) t2 p2)
        as (t3 & p3 & -> & Hl3 & Hp3 & Ht3 & Hs3); [by rewrite Hl2, Hl1|congruence|].
      exists t3, p3. split; [done|]. split; [congruence|]. split; [congruence|]. done.
    - exists t2, p2. split; [done|]. split; [congruence|]. split; [congruence|]. split.
      + intros j t Hj. by rewrite app_nil_r.
      + intros j s Hj. rewrite Hj. f_equal. unfold owners_on. simpl. set_solver. }
  cbn [mbind result_bind rbind].
  rewrite paint_Ok by (intros i Hi%elem_of_seq; lia).
  cbn [mbind result_bind rbind]. do 2 f_equal.
  apply list_fmap_ext. intros k i Hi. apply list_elem_of_lookup_2, elem_of_seq in Hi.
  assert (replicate 9 ([] : list Label) !! i = Some []) as Hr1
    by (apply lookup_replicate; split; [done|lia]).
  assert (replicate 9 (∅ : gset Player) !! i = Some ∅) as Hr2
    by (apply lookup_replicate; split; [done|lia]).
  rewrite (Ht3 i _ (Ht2 i _ (Ht1 i _ Hr1))), (Hs3 i _ (Hs2 i _ (Hs1 i _ Hr2))).
  destruct (decide (i ∈ seq 0 9)) as [_|Hout]; [|destruct Hout; apply elem_of_seq; lia].
  unfold view_of. cbn [default]. fold st. f_equal.
  - unfold shown_moves. by rewrite labels_on_app, <- !app_assoc.
  - unfold shown_moves, id. rewrite owners_on_app.
    generalize (mark_owner (default None (collapsed_board st !! i))).
    generalize (owners_on i (moves st)).
    generalize (owners_on i (if decide (mode st = COLLAPSE)
                             then filter (fun m => collapsed_to m = None) (collapse_moves st)
                             else [])).
    clear. intros A B C. set_solver.
Qed.

Lemma append_at_inv texts i x :
  match append_at texts i x with
  | Ok texts' => i < length texts /\ length texts' = length texts
  | Raise e => e = IndexError
  end.
Proof.
  unfold append_at. destruct (getitem texts i) as [xs|e] eqn:E; simpl.
  - apply getitem_Ok, lookup_lt_Some in E. by rewrite length_insert.
  - by apply getitem_Raise in E as [-> _].
Qed.

Lemma add_at_inv players i p :
  match add_at players i p with
  | Ok players' => True
  | Raise e => e = IndexError
  end.
Proof.
  unfold add_at. destruct (getitem players i) as [xs|e] eqn:E; simpl; [done|].
  by apply getitem_Raise in E as [-> _].
Qed.

Lemma mark_move_inv texts players m :
  match mark_move texts players m with
  | Ok (texts', _) =>
      ((cells m).1 < length texts /\ (cells m).2 < length texts) /\
      length texts' = length texts
  | Raise e => e = IndexError
  end.
Proof.
  unfold mark_move.
  pose proof (append_at_inv texts (cells m).1 (label_of m)) as H1.
  destruct (append_at texts (cells m).1 (label_of m)) as [t1|e]; simpl; [|done].
  pose proof (append_at_inv t1 (cells m).2 (label_of m)) as H2.
  destruct (append_at t1 (cells m).2 (label_of m)) as [t2|e]; simpl; [|done].
  pose proof (add_at_inv players (cells m).1 (player m)) as H3.
  destruct (add_at players (cells m).1 (player m)) as [p1|e]; simpl; [|done].
  pose proof (add_at_inv p1 (cells m).2 (player m)) as H4.
  destruct (add_at p1 (cells m).2 (player m)) as [p2|e]; simpl; [|done].
  lia.
Qed.

Lemma mark_moves_inv flag ms texts players :
  match mark_moves flag ms texts players with
  | Ok (texts', _) =>
      covered (length texts) (marked flag ms) /\ length texts' = length texts
  | Raise e => e = IndexError
  end.
Proof.
  revert texts players. induction ms as [|m ms IH]; intros texts players; simpl.
  - split; [|done]. destruct flag; constructor.
  - rewrite marked_cons.
    destruct (flag && bool_decide (collapsed_to m <> None)); [apply IH|].
    pose proof (mark_move_inv texts players m) as H1.
    destruct (mark_move texts players m) as [[t1 p1]|e]; simpl; [|done].
    destruct H1 as [Hm Hl1]. specialize (IH t1 p1).
    destruct (mark_moves flag ms t1 p1) as [[t2 p2]|e]; [|done].
    rewrite Hl1 in IH. destruct IH as [Hcov Hl2]. split; [|done]. by constructor.
Qed.

Lemma mark_board_inv board squares texts players :
  match mark_board board squares texts players with
  | Ok (texts', _) =>
      (forall i, i ∈ squares -> i < length board) /\ length texts' = length texts
  | Raise e => e = IndexError
  end.
Proof.
  revert texts players. induction squares as [|i rest IH]; intros texts players; simpl.
  - split; [|done]. by intros i ?%elem_of_nil.
  - destruct (getitem board i) as [cb|e] eqn:E; simpl;
      [|by apply getitem_Raise in E as [-> _]].
    apply getitem_Ok, lookup_lt_Some in E.
    assert (forall t p,
      match mark_board board rest t p with
      | Ok (texts', _) => (forall i, i ∈ rest -> i < length board) /\ length texts' = length t
      | Raise e => e = IndexError
      end ->
      length t = length texts ->
      match mark_board board rest t p with
      | Ok (texts', _) =>
          (forall i0, i0 ∈ i :: rest -> i0 < length board) /\ length texts' = length texts
      | Raise e => e = IndexError
      end) as Hstep.
    { intros t p H Hl. destruct (mark_board board rest t p) as [[t' p']|e]; [|done].
      destruct H as [Hin Hl']. split; [|congruence].
      intros i0 [->|?]%elem_of_cons; auto. }
    destruct cb as [[p idx]|]; [|apply Hstep; [apply IH|done]].
    pose proof (append_at_inv texts i (Classical p idx)) as H1.
    destruct (append_at texts i (Classical p idx)) as [t1|e]; simpl; [|done].
    pose proof (add_at_inv players i p) as H2.
    destruct (add_at players i p) as [p1|e]; simpl; [|done].
    apply Hstep; [apply IH|]. by destruct H1.
Qed.

Lemma paint_inv st temp texts players squares e :
  paint st temp texts players squares = Raise e -> e = IndexError.
Proof.
  induction squares as [|i rest IH]; simpl; [done|].
  destruct (getitem texts i) as [t|e1] eqn:E1; simpl;
    [|intros [= <-]; by apply getitem_Raise in E1 as [-> _]].
  destruct (getitem (collapsed_board st) i) as [cb|e2] eqn:E2; simpl;
    [|intros [= <-]; by apply getitem_Raise in E2 as [-> _]].
  destruct (getitem players i) as [s|e3] eqn:E3; simpl;
    [|intros [= <-]; by apply getitem_Raise in E3 as [-> _]].
  destruct (paint st temp texts players rest) as [vs|e4]; simpl; [done|].
  intros [= <-]. by apply IH.
Qed.

Lemma update_board_display_raises g :
  ~ (9 <= length (collapsed_board (logic g)) /\ covered 9 (shown_moves (logic g))) ->
  update_board_display g = Raise IndexError.
Proof.
  intros Hbad. unfold update_board_display.
  pose proof (mark_board_inv (collapsed_board (logic g)) (seq 0 9)
                (replicate 9 []) (replicate 9 ∅)) as H1.
  destruct (mark_board _ _ _ _) as [[t1 p1]|e]; cbn [mbind result_bind rbind];
    [|by rewrite H1].
  destruct H1 as [Hboard Hl1]. rewrite length_replicate in Hl1.
  pose proof (mark_moves_inv false (moves (logic g)) t1 p1) as H2.
  destruct (mark_moves false _ t1 p1) as [[t2 p2]|e]; cbn [mbind result_bind rbind];
    [|by rewrite H2].
  destruct H2 as [Hcov1 Hl2]. rewrite Hl1 in Hcov1. cbn [marked] in Hcov1.
  assert (9 <= length (collapsed_board (logic g))) as Hlen.
  { specialize (Hboard 8). rewrite elem_of_seq in Hboard. lia. }
  destruct (decide (mode (logic g) = COLLAPSE)) as [Hmode|Hmode].
  - pose proof (mark_moves_inv true (collapse_moves (logic g)) t2 p2) as H3.
    destruct (mark_moves true _ t2 p2) as [[t3 p3]|e]; cbn [mbind result_bind rbind];
      [|by rewrite H3].
    destruct H3 as [Hcov2 _]. rewrite Hl2, Hl1 in Hcov2. cbn [marked] in Hcov2.
    destruct Hbad. split; [done|]. unfold shown_moves. rewrite decide_True by done.
    by apply Forall_app.
  - destruct Hbad. split; [done|]. unfold shown_moves. rewrite decide_False by done.
    by rewrite app_nil_r.
Qed.

End Rendering.

(** ** Sessions of the window *)

Section Sessions.

Lemma legal_drawable st :
  legal st -> 9 <= length (collapsed_board st) /\ covered 9 (shown_moves st).
Proof.
  intros Hlegal. pose proof (legal_legal_inv _ Hlegal) as Hinv.
  split; [by rewrite (li_board _ Hinv)|]. unfold shown_moves. apply Forall_app. split.
  - apply Forall_forall. intros m Hm. rewrite <- (li_board _ Hinv).
    by apply free_pair_lt, Hinv.
  - destruct (decide (mode st = COLLAPSE)) as [Hmode|]; [|constructor].
    apply Forall_forall. intros m [_ Hm]%list_elem_of_filter.
    pose proof (legal_covered _ Hinv Hmode) as Hcov.
    rewrite (li_board _ Hinv) in Hcov. by eapply Forall_forall in Hcov.
Qed.

Lemma draw_legal g :
  legal (logic g) -> update_board_display g = Ok (rendered g).
Proof. intros [??]%legal_drawable. by apply update_board_display_rendered. Qed.

Lemma drawn_in_sync g :
  legal (logic g) -> in_sync (update_status (rendered g)).
Proof. intros Hlegal. split; [|done]. by rewrite draw_legal. Qed.

Lemma check_winner_total st :
  9 <= length (collapsed_board st) -> exists r, check_winner st = Ok r.
Proof.
  intros Hlen. unfold check_winner.
  destruct (scan_lines_spec (collapsed_board st) lines (mkWins [] [])) as (w & -> & _).
  { eapply Forall_impl; [apply lines_on_board|]. intros l. by apply on_board_mono. }
  simpl. destruct (wins_X w) as [|x xs], (wins_O w) as [|o os]; eauto.
  - destruct (min_by_sum o os). eauto.
  - destruct (min_by_sum x xs). eauto.
  - destruct (min_by_sum x xs), (min_by_sum o os).
    destruct (decide _); [eauto|]. destruct (decide _); eauto.
Qed.

Lemma announce_total g :
  legal (logic g) -> exists ds, announce_result_if_any g = Ok ds.
Proof.
  intros [Hlen _]%legal_drawable. unfold announce_result_if_any.
  destruct (check_winner_total _ Hlen) as [r ->]. simpl. eauto.
Qed.

Lemma after_collapse_legal g st :
  legal st ->
  exists ds,
    after_collapse g st = Ok (update_status (rendered (with_logic g st)), ds) /\
    (mode st = PLAY ->
     announce_result_if_any (update_status (rendered (with_logic g st))) = Ok ds).
Proof.
  intros Hlegal. unfold after_collapse.
  rewrite (draw_legal (with_logic g st)) by done. cbn [mbind result_bind rbind].
  destruct (decide (mode st = PLAY)); [|exists []; by split].
  destruct (announce_total (update_status (rendered (with_logic g st))) Hlegal)
    as [ds Hds].
  rewrite Hds. simpl. eauto.
Qed.

Lemma add_spooky_move_total st a b :
  mode st = PLAY -> a <> b -> exists st', add_spooky_move st a b = Ok st'.
Proof.
  intros Hmode Hne. destruct (would_create_loop st (a, b)) eqn:Hloop.
  - rewrite add_spooky_move_loop by done. eauto.
  - rewrite add_spooky_move_no_loop by done. eauto.
Qed.

(** In a legal session in COLLAPSE mode the engine accepts both cells of
    the move at the cursor. *)
Lemma legal_step st :
  legal st -> mode st = COLLAPSE ->
  exists mv,
    collapse_moves st !! collapse_index st = Some mv /\
    collapsed_board st !! (cells mv).1 = Some None /\
    collapsed_board st !! (cells mv).2 = Some None /\
    forall s, cell_in s (cells mv) = true ->
      exists st', collapse_step st s = Ok (true, st') /\ legal st' /\ mode st' = PLAY.
Proof.
  intros Hlegal Hmode. pose proof (legal_legal_inv _ Hlegal) as Hinv.
  destruct (li_episode _ Hinv Hmode) as (T & new & HT & Hidx & Hfresh & _).
  assert (collapse_moves st !! collapse_index st = Some new) as Hmv.
  { rewrite HT, Hidx, lookup_app_r, Nat.sub_diag by lia. done. }
  destruct (Hfresh new) as [_ (_ & H1 & H2)].
  { apply elem_of_app. right. by apply list_elem_of_singleton. }
  exists new. split; [done|]. split; [done|]. split; [done|]. intros s Hs.
  destruct (collapse_step_total st s Hmode (legal_covered _ Hinv Hmode)) as (b & st' & Hstep).
  assert (b = true) as ->.
  { pose proof Hstep as [_ Hcase]%collapse_step_cases.
    inversion Hcase as [Hend|mv Hmv' Hout|mv occupant Hmv' Hin Hocc|mv cms' board' Hmv' Hin];
      subst; simplify_eq; try done; [congruence|].
    apply cell_in_cases in Hs as [->| ->]; congruence. }
  exists st'. split; [done|]. split; [by eapply legal_collapse|].
  by eapply accepted_mode; [apply legal_reachable|].
Qed.

Lemma session_inv_drawn size g :
  legal (logic g) -> cell_size g = size ->
  (forall c, temp_first_cell g = Some c ->
     mode (logic g) = PLAY /\ collapsed_board (logic g) !! c = Some None) ->
  session_inv size (update_status (rendered g)).
Proof. intros Hlegal Hsize Htemp. split; try done. by apply drawn_in_sync. Qed.

Lemma handle_play_click_session size g idx :
  session_inv size g -> mode (logic g) = PLAY -> idx < 9 ->
  exists g' ds, handle_play_click g idx = Ok (g', ds) /\ session_inv size g'.
Proof.
  intros Hinv Hmode Hidx. pose proof (si_legal _ _ Hinv) as Hlegal.
  pose proof (li_board _ (legal_legal_inv _ Hlegal)) as Hlen.
  unfold handle_play_click.
  assert (idx < length (collapsed_board (logic g))) as [cb Hcb]%lookup_lt_is_Some by lia.
  rewrite (proj2 (getitem_Ok _ _ _) Hcb). cbn [mbind result_bind rbind].
  destruct cb as [occupant|]; [eauto|].
  destruct (temp_first_cell g) as [first|] eqn:Htemp.
  - destruct (decide (idx = first)) as [->|Hne]; [eauto|].
    destruct (si_temp _ _ Hinv first Htemp) as [_ Hfirst].
    destruct (add_spooky_move_total (logic g) first idx Hmode) as [st Hst]; [done|].
    rewrite Hst. cbn [mbind result_bind rbind].
    assert (legal st) as Hlegal' by (by apply (legal_place (logic g) first idx)).
    rewrite (draw_legal (with_temp (with_logic g st) None)) by done.
    cbn [mbind result_bind rbind]. do 2 eexists. split; [done|].
    apply session_inv_drawn; [done|apply Hinv|done].
  - rewrite (draw_legal (with_temp g (Some idx))) by done.
    cbn [mbind result_bind rbind]. do 2 eexists. split; [done|].
    apply session_inv_drawn; [done|apply Hinv|]. simpl. by intros c [= <-].
Qed.

Lemma session_temp_collapse size g :
  session_inv size g -> mode (logic g) = COLLAPSE -> temp_first_cell g = None.
Proof.
  intros Hinv Hmode. destruct (temp_first_cell g) as [c|] eqn:Htemp; [|done].
  destruct (si_temp _ _ Hinv c Htemp) as [? _]. congruence.
Qed.

Lemma after_collapse_session size g g0 st :
  session_inv size g -> mode (logic g) = COLLAPSE ->
  logic g0 = logic g -> cell_size g0 = cell_size g ->
  temp_first_cell g0 = temp_first_cell g ->
  legal st -> mode st = PLAY ->
  exists g' ds, after_collapse g0 st = Ok (g', ds) /\ session_inv size g' /\
    logic g' = st /\ announce_result_if_any g' = Ok ds.
Proof.
  intros Hinv Hmode Hl Hs Ht Hlegal Hplay.
  destruct (after_collapse_legal g0 st Hlegal) as (ds & -> & Hds).
  do 2 eexists. split; [done|]. split; [|by auto].
  apply session_inv_drawn; simpl; [done|rewrite Hs; apply Hinv|].
  rewrite Ht, (session_temp_collapse _ _ Hinv Hmode). done.
Qed.

Lemma handle_collapse_click_session size g idx :
  session_inv size g -> mode (logic g) = COLLAPSE ->
  exists g' ds, handle_collapse_click g idx = Ok (g', ds) /\ session_inv size g'.
Proof.
  intros Hinv Hmode. pose proof (si_legal _ _ Hinv) as Hlegal.
  destruct (legal_step _ Hlegal Hmode) as (mv & Hmv & Ha & Hb & Hstep).
  unfold handle_collapse_click.
  destruct (decide _) as [|_]; [eauto|].
  rewrite (proj2 (getitem_Ok _ _ _) Hmv). cbn [mbind result_bind rbind].
  destruct (cell_in idx (cells mv)) eqn:Hin; cbn [negb]; [|eauto].
  assert (collapsed_board (logic g) !! idx = Some None) as Hidx.
  { apply cell_in_cases in Hin as [->| ->]; done. }
  rewrite (proj2 (getitem_Ok _ _ _) Hidx). cbn [mbind result_bind rbind].
  destruct (Hstep idx Hin) as (st' & -> & Hlegal' & Hplay). cbn [mbind result_bind rbind negb].
  destruct (after_collapse_session size g g st' Hinv Hmode) as (g' & ds & ? & ? & _); eauto.
Qed.

Lemma on_cell_click_session size g idx :
  session_inv size g -> idx < 9 ->
  exists g' ds, on_cell_click g idx = Ok (g', ds) /\ session_inv size g'.
Proof.
  intros Hinv Hidx. unfold on_cell_click.
  destruct (decide (mode (logic g) = PLAY)) as [Hmode|Hmode].
  - by apply handle_play_click_session.
  - apply handle_collapse_click_session; [done|]. by destruct (mode (logic g)).
Qed.

Lemma reset_game_session size g :
  session_inv size g -> exists g', reset_game g = Ok g' /\ session_inv size g'.
Proof.
  intros Hinv. unfold reset_game.
  rewrite (draw_legal (with_temp (with_logic g reset) None)) by constructor.
  cbn [mbind result_bind rbind]. eexists. split; [done|].
  apply session_inv_drawn; [constructor|apply Hinv|done].
Qed.

Lemma update_status_with_status g s : update_status (with_status g s) = update_status g.
Proof. done. Qed.

Lemma quantum_collapse_session size g flip :
  session_inv size g ->
  exists g' ds, quantum_collapse_current_move g flip = Ok (g', ds) /\ session_inv size g'.
Proof.
  intros Hinv. pose proof (si_legal _ _ Hinv) as Hlegal.
  unfold quantum_collapse_current_move.
  destruct (decide (mode (logic g) <> COLLAPSE)) as [|Hmode%dec_stable]; [eauto|].
  destruct (legal_step _ Hlegal Hmode) as (mv & Hmv & Ha & Hb & Hstep).
  destruct (decide _) as [|_]; [eauto|].
  rewrite (proj2 (getitem_Ok _ _ _) Hmv). cbn [mbind result_bind rbind].
  destruct (cells mv) as [a b] eqn:Hcells. simpl in Ha, Hb.
  destruct flip as [bit|].
  - assert (cell_in (if decide (bit = 0) then a else b) (a, b) = true
            /\ collapsed_board (logic g) !! (if decide (bit = 0) then a else b) = Some None)
      as [Hin Hfree].
    { destruct (decide (bit = 0)); (split; [|done]);
        [apply (cell_in_fst (a, b))|apply (cell_in_snd (a, b))]. }
    rewrite (proj2 (getitem_Ok _ _ _) Hfree). cbn [mbind result_bind rbind].
    destruct (Hstep _ Hin) as (st' & -> & Hlegal' & Hplay).
    cbn [mbind result_bind rbind negb].
    match goal with |- context [after_collapse ?g0 st'] =>
      destruct (after_collapse_session size g g0 st' Hinv Hmode) as (g' & ds & ? & ? & _);
        eauto end.
  - rewrite update_status_with_status. destruct (si_sync _ _ Hinv) as [_ ->]. eauto.
Qed.

Lemma init_session size : exists g, init size = Ok g /\ session_inv size g.
Proof.
  unfold init. rewrite draw_legal by constructor. eexists. split; [done|].
  split; try done. constructor.
Qed.

Lemma square_of_pixel size x y :
  (0 < size)%Z ->
  ((0 <= x / size < 3)%Z /\ (0 <= y / size < 3)%Z <->
   (0 <= x < 3 * size)%Z /\ (0 <= y < 3 * size)%Z).
Proof.
  intros Hsize.
  pose proof (Z.div_mod x size). pose proof (Z.mod_pos_bound x size Hsize).
  pose proof (Z.div_mod y size). pose proof (Z.mod_pos_bound y size Hsize).
  split; intros [??]; split; nia.
Qed.

Lemma handle_session size g e :
  session_inv size g -> size <> 0%Z ->
  exists g' ds, handle g e = inr (g', ds) /\ session_inv size g'.
Proof.
  intros Hinv Hsize. destruct e as [x y| |flip]; cbn [handle].
  - unfold on_canvas_click. rewrite (si_size _ _ Hinv).
    rewrite decide_False by done.
    destruct (decide _) as [[Hcol Hrow]|]; [|eauto].
    destruct (on_cell_click_session size g (Z.to_nat (y / size * 3 + x / size)) Hinv)
      as (g' & ds & -> & ?); [lia|eauto].
  - destruct (reset_game_session size g Hinv) as (g' & -> & ?). eauto.
  - destruct (quantum_collapse_session size g flip Hinv) as (g' & ds & -> & ?). eauto.
Qed.

Lemma handle_preserves size g e g' ds :
  session_inv size g -> handle g e = inr (g', ds) -> session_inv size g'.
Proof.
  intros Hinv Hstep. destruct (decide (size = 0%Z)) as [Hz|Hnz].
  - destruct e as [x y| |flip]; cbn [handle] in Hstep.
    + unfold on_canvas_click in Hstep. rewrite (si_size _ _ Hinv) in Hstep.
      by rewrite decide_True in Hstep.
    + destruct (reset_game_session size g Hinv) as (g1 & Hg1 & ?).
      rewrite Hg1 in Hstep. by simplify_eq.
    + destruct (quantum_collapse_session size g flip Hinv) as (g1 & ds1 & Hg1 & ?).
      rewrite Hg1 in Hstep. by simplify_eq.
  - destruct (handle_session size g e Hinv Hnz) as (g1 & ds1 & Hg1 & ?).
    rewrite Hg1 in Hstep. by simplify_eq.
Qed.

Lemma session_session_inv size g : session size g -> session_inv size g.
Proof.
  induction 1 as [g Hinit|g e g' ds _ IH Hstep].
  - destruct (init_session size) as (g0 & Hg0 & ?). rewrite Hg0 in Hinit. by simplify_eq.
  - by eapply handle_preserves.
Qed.

End Sessions.

Section Window.

Lemma run_session size g es g' : session size g -> run g es = Some g' -> session size g'.
Proof.
  revert g. induction es as [|e es IH]; intros g Hg; simpl.
  - by intros [= <-].
  - destruct (handle g e) as [|[g1 ds]] eqn:He; [done|]. apply IH.
    by eapply session_event.
Qed.

Lemma start_session : session 100 start.
Proof. apply session_init. vm_compute. reflexivity. Qed.

Lemma loop_closed_session : session 100 loop_closed.
Proof.
  apply (run_session 100 start
           [click_on 1; click_on 2; click_on 0; click_on 1; click_on 0; click_on 2]).
  - exact start_session.
  - vm_compute. reflexivity.
Qed.

Lemma labels_on_nil i ms :
  (forall m, m ∈ ms -> cell_in i (cells m) = false) -> labels_on i ms = [].
Proof.
  induction ms as [|m ms IH]; intros Hout; [done|].
  unfold labels_on in *. csimpl. rewrite IH by (intros m' Hm'; apply Hout; by right).
  assert (cell_in i (cells m) = false) as Hm by (apply Hout; by left).
  apply not_true_iff_false in Hm. rewrite cell_in_cases in Hm.
  rewrite !decide_False by (intros ?; apply Hm; auto). done.
Qed.

Lemma legal_shown_free st m :
  legal st -> m ∈ shown_moves st -> free_pair (collapsed_board st) (cells m).
Proof.
  intros Hlegal Hm. pose proof (legal_legal_inv _ Hlegal) as Hinv.
  unfold shown_moves in Hm. apply elem_of_app in Hm as [Hm|Hm]; [by apply Hinv|].
  destruct (decide (mode st = COLLAPSE)) as [Hmode|]; [|by apply elem_of_nil in Hm].
  apply list_elem_of_filter in Hm as [_ Hm].
  destruct (li_episode _ Hinv Hmode) as (T & new & HT & _ & Hfresh & _).
  rewrite HT in Hm. by apply Hfresh.
Qed.

Lemma redraw_lines_shown st : redraw_lines st = segment_of <$> shown_moves st.
Proof.
  unfold redraw_lines, shown_moves. rewrite fmap_app. by destruct (decide _).
Qed.

Lemma elem_of_owners_on p i ms : p ∈ owners_on i ms <-> plays_on p i ms.
Proof.
  unfold owners_on, plays_on. rewrite elem_of_list_to_set, list_elem_of_fmap. split.
  - intros (m & -> & [Hin Hm]%list_elem_of_filter). eauto.
  - intros (m & Hm & <- & Hin). exists m. split; [done|]. by apply list_elem_of_filter.
Qed.

(** X14: [update_board_display] draws the board when the board has at
    least nine squares and every shown move lies on the squares 0..8,
    and raises [IndexError] otherwise.  When it draws, only the canvas
    changes.  There is one segment for every shown move, between its
    two cells and in the ink of its player.  An occupied square shows
    the label of its classical mark, then the labels of the shown moves
    on it, in the fill and ink of the owner of the mark, in the
    classical font and without outline.  An unoccupied square shows the
    labels of the shown moves on it, on the default fill and in the
    spooky font; it is outlined exactly when the engine is in PLAY mode
    and the square is the selected first square; its ink is that of X
    when only X has a shown move on it, that of O when only O has, the
    mixed ink when both have, and black when none has. *)
Theorem update_board_display_spec g :
  (9 <= length (collapsed_board (logic g)) /\ covered 9 (shown_moves (logic g)) ->
   exists g',
     update_board_display g = Ok g' /\
     logic g' = logic g /\ cell_size g' = cell_size g /\
     temp_first_cell g' = temp_first_cell g /\ status_var g' = status_var g /\
     line_ids g' =
       (fun m => ((cells m).1, (cells m).2, match player m with X => x_fg | O => o_fg end))
         <$> shown_moves (logic g) /\
     length (board_canvas g') = 9 /\
     forall i v, board_canvas g' !! i = Some v ->
       match collapsed_board (logic g) !! i with
       | Some (Some (p, k)) =>
           cv_text v = Classical p k :: labels_on i (shown_moves (logic g)) /\
           cv_fill v = match p with X => x_classical_bg | O => o_classical_bg end /\
           cv_ink v = match p with X => x_fg | O => o_fg end /\
           cv_font v = classical_font /\
           cv_outline v = false
       | _ =>
           cv_text v = labels_on i (shown_moves (logic g)) /\
           cv_fill v = default_bg /\
           cv_font v = spooky_font /\
           (cv_outline v = true <->
            mode (logic g) = PLAY /\ temp_first_cell g = Some i) /\
           (cv_ink v = x_fg <->
            plays_on X i (shown_moves (logic g)) /\ ~ plays_on O i (shown_moves (logic g))) /\
           (cv_ink v = o_fg <->
            plays_on O i (shown_moves (logic g)) /\ ~ plays_on X i (shown_moves (logic g))) /\
           (cv_ink v = mixed_fg <->
            plays_on X i (shown_moves (logic g)) /\ plays_on O i (shown_moves (logic g))) /\
           (cv_ink v = black <->
            ~ plays_on X i (shown_moves (logic g)) /\ ~ plays_on O i (shown_moves (logic g)))
       end) /\
  (~ (9 <= length (collapsed_board (logic g)) /\ covered 9 (shown_moves (logic g))) ->
   update_board_display g = Raise IndexError).
Proof.
  split; [|apply update_board_display_raises].
  intros [Hlen Hcov]. exists (rendered g).
  split; [by apply update_board_display_rendered|].
  do 4 (split; [done|]). split; [apply redraw_lines_shown|].
  split; [done|].
  intros i v Hv. cbn [board_canvas rendered] in Hv.
  apply list_lookup_fmap_Some in Hv as (i' & -> & Hi).
  apply lookup_seq in Hi as [-> Hi]. simpl. unfold view_of.
  destruct (collapsed_board (logic g) !! i) as [[[p k]|]|] eqn:Hcb; simpl.
  - done.
  - split; [done|]. split; [done|]. split; [done|]. split.
    { rewrite andb_true_iff, !bool_decide_eq_true. done. }
    pose proof (elem_of_owners_on X i (shown_moves (logic g))) as HX.
    pose proof (elem_of_owners_on O i (shown_moves (logic g))) as HO.
    rewrite <- HX, <- HO.
    assert (forall q, q ∈ (∅ ∪ owners_on i (shown_moves (logic g)) : gset Player) <->
                      q ∈ owners_on i (shown_moves (logic g))) as Hq by set_solver.
    clear HX HO.
    destruct (decide (X ∈ owners_on i (shown_moves (logic g)))) as [HX|HX],
             (decide (O ∈ owners_on i (shown_moves (logic g)))) as [HO|HO].
    + rewrite !bool_decide_eq_true_2 by (by apply Hq). simpl. naive_solver.
    + rewrite (bool_decide_eq_true_2 (X ∈ _)) by (by apply Hq).
      rewrite (bool_decide_eq_false_2 (O ∈ _)) by (by rewrite Hq). simpl. naive_solver.
    + rewrite (bool_decide_eq_false_2 (X ∈ _)) by (by rewrite Hq).
      rewrite (bool_decide_eq_true_2 (O ∈ _)) by (by apply Hq). simpl. naive_solver.
    + rewrite (bool_decide_eq_false_2 (X ∈ _)) by (by rewrite Hq).
      rewrite (bool_decide_eq_false_2 (O ∈ _)) by (by rewrite Hq). simpl. naive_solver.
  - apply lookup_ge_None in Hcb. lia.
Qed.

Lemma update_board_display_spec_witness :
  exists g',
    update_board_display (sample_gui two_moves) = Ok g' /\
    line_ids g' = [(1, 2, x_fg); (0, 1, o_fg)].
Proof.
  destruct (proj1 (update_board_display_spec (sample_gui two_moves)))
    as (g' & Hdraw & _ & _ & _ & _ & Hlines & _).
  - split; [vm_compute; lia|repeat constructor; simpl; lia].
  - exists g'. split; [exact Hdraw|exact Hlines].
Defined.

(** X15: the window always shows the state of the engine.  In every
    state of a session, drawing the board and the status line again
    changes nothing; an occupied square shows its classical mark alone,
    in the colours of its owner and without outline; an unoccupied
    square shows the labels of the pending moves on it, and is outlined
    exactly when it is the selected first square; there is one segment
    for every pending move. *)
Theorem session_display size g :
  session size g ->
  in_sync g /\
  status_var g = status_text (logic g) (temp_first_cell g) /\
  line_ids g = segment_of <$> shown_moves (logic g) /\
  length (board_canvas g) = 9 /\
  forall i v, board_canvas g !! i = Some v ->
    match collapsed_board (logic g) !! i with
    | Some (Some (p, k)) =>
        v = {| cv_fill := if p is X then x_classical_bg else o_classical_bg;
               cv_outline := false;
               cv_text := [Classical p k];
               cv_ink := if p is X then x_fg else o_fg;
               cv_font := classical_font |}
    | _ =>
        cv_fill v = default_bg /\ cv_font v = spooky_font /\
        cv_text v = labels_on i (shown_moves (logic g)) /\
        cv_outline v = bool_decide (temp_first_cell g = Some i)
    end.
Proof.
  intros Hinv%session_session_inv. pose proof (si_legal _ _ Hinv) as Hlegal.
  destruct (si_sync _ _ Hinv) as [Hdraw Hstatus]. split; [done|].
  rewrite draw_legal in Hdraw by done. injection Hdraw as Hdraw.
  split; [by rewrite <- Hstatus at 1|].
  split; [rewrite <- Hdraw at 1; apply redraw_lines_shown|].
  split; [by rewrite <- Hdraw at 1|].
  intros i v Hv. rewrite <- Hdraw in Hv at 1. cbn [board_canvas rendered] in Hv.
  apply list_lookup_fmap_Some in Hv as (i' & -> & Hi).
  apply lookup_seq in Hi as [-> Hi]. simpl. unfold view_of.
  destruct (collapsed_board (logic g) !! i) as [[[p k]|]|] eqn:Hcb; simpl.
  - rewrite labels_on_nil; [done|]. intros m Hm.
    destruct (legal_shown_free _ m Hlegal Hm) as (_ & H1 & H2).
    apply cell_in_false; congruence.
  - split; [done|]. split; [done|]. split; [done|].
    destruct (decide (temp_first_cell g = Some i)) as [Ht|Ht].
    + destruct (si_temp _ _ Hinv i Ht) as [Hmode _].
      by rewrite !bool_decide_eq_true_2.
    + rewrite (bool_decide_eq_false_2 _ Ht). apply andb_false_r.
  - split; [done|]. split; [done|]. split; [done|].
    destruct (decide (temp_first_cell g = Some i)) as [Ht|Ht].
    + destruct (si_temp _ _ Hinv i Ht) as [_ Hfree]. congruence.
    + rewrite (bool_decide_eq_false_2 _ Ht). apply andb_false_r.
Qed.

Lemma session_display_witness :
  in_sync loop_closed /\ length (board_canvas loop_closed) = 9.
Proof.
  destruct (session_display 100 loop_closed loop_closed_session) as (H1 & _ & _ & H2 & _).
  split; [exact H1|exact H2].
Defined.

(** X16: in a session of a window whose cell size is not zero, no event
    raises: every click on the canvas, every press of "New Game" and
    every press of "Quantum collapse", whatever the coin does, is
    handled and returns a state of the window. *)
Theorem session_never_raises size g e :
  session size g -> size <> 0%Z ->
  exists g' ds, handle g e = inr (g', ds).
Proof.
  intros Hinv%session_session_inv Hsize.
  destruct (handle_session size g e Hinv Hsize) as (g' & ds & ? & _). eauto.
Qed.

Lemma session_never_raises_witness :
  exists g' ds, handle loop_closed (QuantumCollapse (Some 1)) = inr (g', ds).
Proof.
  apply (session_never_raises 100 loop_closed (QuantumCollapse (Some 1))
           loop_closed_session).
  lia.
Defined.

(** X17: the window only plays legal sessions.  In every state of a
    session the engine has been driven by placements on two unoccupied
    squares only; a selected first square is unoccupied and is kept in
    PLAY mode only; outside an episode every implicated move is
    resolved. *)
Theorem session_legal size g :
  session size g ->
  legal (logic g) /\
  (forall c, temp_first_cell g = Some c ->
     mode (logic g) = PLAY /\ collapsed_board (logic g) !! c = Some None) /\
  (mode (logic g) = PLAY ->
   Forall (fun m => is_Some (collapsed_to m)) (collapse_moves (logic g))).
Proof.
  intros Hinv%session_session_inv. split; [apply Hinv|]. split; [apply Hinv|].
  intros Hmode. apply Forall_forall.
  by apply (li_done _ (legal_legal_inv _ (si_legal _ _ Hinv))).
Qed.

Lemma session_legal_witness : legal (logic loop_closed).
Proof. exact (proj1 (session_legal 100 loop_closed loop_closed_session)). Defined.

(** X18: the quantum collapse in a session.  During an episode the bit
    of the coin decides alone: on 0 the engine is given the first cell
    of the move at the cursor, on any other bit the second; the engine
    accepts it, the episode ends, and the only message boxes are those
    of the result; the fall-backs for occupied cells and for a rejected
    selection are never taken.  When the coin raises, the error box is
    shown and the window stays as it was. *)
Theorem quantum_collapse_in_session size g :
  session size g -> mode (logic g) = COLLAPSE ->
  exists mv,
    collapse_moves (logic g) !! collapse_index (logic g) = Some mv /\
    quantum_collapse_current_move g None = Ok (g, [QuantumError]) /\
    forall bit, exists st' g' ds,
      collapse_step (logic g) (if decide (bit = 0) then (cells mv).1 else (cells mv).2)
        = Ok (true, st') /\
      quantum_collapse_current_move g (Some bit) = Ok (g', ds) /\
      logic g' = st' /\ mode st' = PLAY /\ announce_result_if_any g' = Ok ds.
Proof.
  intros Hinv%session_session_inv Hmode. pose proof (si_legal _ _ Hinv) as Hlegal.
  destruct (legal_step _ Hlegal Hmode) as (mv & Hmv & Ha & Hb & Hstep).
  exists mv. split; [done|].
  assert (~ length (collapse_moves (logic g)) <= collapse_index (logic g)) as Hcur.
  { apply lookup_lt_Some in Hmv. lia. }
  unfold quantum_collapse_current_move.
  rewrite decide_False by (by intros ?). rewrite decide_False by done.
  rewrite (proj2 (getitem_Ok _ _ _) Hmv). cbn [mbind result_bind rbind].
  destruct (cells mv) as [a b] eqn:Hcells. cbn [fst snd] in *. split.
  - rewrite update_status_with_status. by destruct (si_sync _ _ Hinv) as [_ ->].
  - intros bit.
    assert (cell_in (if decide (bit = 0) then a else b) (a, b) = true
            /\ collapsed_board (logic g) !! (if decide (bit = 0) then a else b) = Some None)
      as [Hin Hfree].
    { destruct (decide (bit = 0)); (split; [|done]);
        [apply (cell_in_fst (a, b))|apply (cell_in_snd (a, b))]. }
    rewrite (proj2 (getitem_Ok _ _ _) Hfree). cbn [mbind result_bind rbind].
    destruct (Hstep _ Hin) as (st' & Hst' & Hlegal' & Hplay). rewrite Hst'.
    cbn [mbind result_bind rbind negb].
    match goal with |- context [after_collapse ?g0 st'] =>
      destruct (after_collapse_session size g g0 st' Hinv Hmode)
        as (g' & ds & Hafter & _ & Hlogic & Hds); try done;
      rewrite Hafter end.
    exists st', g', ds. split; [done|]. split; [|done].
    rewrite decide_False by (by intros ?). by rewrite decide_False.
Qed.

Lemma quantum_collapse_in_session_witness :
  exists mv,
    collapse_moves (logic loop_closed) !! collapse_index (logic loop_closed) = Some mv /\
    quantum_collapse_current_move loop_closed None = Ok (loop_closed, [QuantumError]).
Proof.
  destruct (quantum_collapse_in_session 100 loop_closed loop_closed_session eq_refl)
    as (mv & H1 & H2 & _).
  exists mv. split; [exact H1|exact H2].
Defined.

(** X19: [handle_collapse_click] only gives the engine a selection that
    the engine accepts.  In COLLAPSE mode a click either changes nothing
    (the cursor is past the end, or the engine would reject the square,
    and then a message box says so), or the engine accepts it and the
    window is drawn anew; the return after [not accepted] is never
    taken. *)
Theorem handle_collapse_click_cases g idx g' ds :
  mode (logic g) = COLLAPSE -> handle_collapse_click g idx = Ok (g', ds) ->
  (g' = g /\
   ((ds = [] /\ length (collapse_moves (logic g)) <= collapse_index (logic g)) \/
    ((ds = [NotACell] \/ ds = [SquareOccupied]) /\
     collapse_step (logic g) idx = Ok (false, logic g)))) \/
  (exists st', collapse_step (logic g) idx = Ok (true, st') /\
               after_collapse g st' = Ok (g', ds)).
Proof.
  intros Hmode. unfold handle_collapse_click.
  destruct (decide _) as [Hend|Hcur]; [intros [= <- <-]; left; auto|].
  destruct (getitem (collapse_moves (logic g)) (collapse_index (logic g)))
    as [mv|e] eqn:Hmv; cbn [mbind result_bind rbind]; [|done].
  apply getitem_Ok in Hmv.
  destruct (cell_in idx (cells mv)) eqn:Hin; cbn [negb].
  2:{ intros [= <- <-]. left. split; [done|]. right. split; [auto|].
      apply collapse_step_cases. split; [done|]. by econstructor 2. }
  destruct (getitem (collapsed_board (logic g)) idx) as [cb|e] eqn:Hcb;
    cbn [mbind result_bind rbind]; [|done].
  apply getitem_Ok in Hcb. destruct cb as [occupant|].
  { intros [= <- <-]. left. split; [done|]. right. split; [auto|].
    apply collapse_step_cases. split; [done|]. by econstructor 3. }
  destruct (collapse_step (logic g) idx) as [[accepted st']|e] eqn:Hstep;
    cbn [mbind result_bind rbind]; [|done].
  pose proof Hstep as [_ Hcase]%collapse_step_cases.
  assert (accepted = true) as ->.
  { inversion Hcase; subst; simplify_eq; try done; congruence. }
  cbn [negb]. intros Hafter. right. eauto.
Qed.

Lemma handle_collapse_click_cases_witness :
  exists st', collapse_step episode 0 = Ok (true, st').
Proof.
  destruct (handle_collapse_click_cases (sample_gui episode) 0
              (update_status (rendered (sample_gui collapsed))) [])
    as [[Hsame _]|(st' & Hstep & _)].
  - reflexivity.
  - vm_compute. reflexivity.
  - discriminate Hsame.
  - exists st'. exact Hstep.
Defined.

(** X20: the squares of the canvas.  With a positive cell size, a click
    anywhere inside the square of row [row] and column [col] is a click
    on square [3 * row + col], and a click outside the nine squares does
    nothing; with a cell size of zero every click raises
    [ZeroDivisionError]. *)
Theorem on_canvas_click_squares g :
  (cell_size g = 0%Z -> forall x y, on_canvas_click g x y = inl ZeroDivisionError) /\
  ((0 < cell_size g)%Z ->
   (forall row col dx dy,
      row < 3 -> col < 3 ->
      (0 <= dx < cell_size g)%Z -> (0 <= dy < cell_size g)%Z ->
      on_canvas_click g (Z.of_nat col * cell_size g + dx) (Z.of_nat row * cell_size g + dy)
      = returned (on_cell_click g (3 * row + col))) /\
   (forall x y,
      ~ ((0 <= x < 3 * cell_size g)%Z /\ (0 <= y < 3 * cell_size g)%Z) ->
      on_canvas_click g x y = inr (g, []))).
Proof.
  split; [|intros Hsize; split].
  - intros Hz x y. unfold on_canvas_click. by rewrite decide_True.
  - intros row col dx dy Hrow Hcol Hdx Hdy. unfold on_canvas_click.
    rewrite decide_False by lia.
    assert ((Z.of_nat col * cell_size g + dx) / cell_size g = Z.of_nat col)%Z as ->.
    { rewrite Z.add_comm, Z.div_add by lia. rewrite Z.div_small by lia. lia. }
    assert ((Z.of_nat row * cell_size g + dy) / cell_size g = Z.of_nat row)%Z as ->.
    { rewrite Z.add_comm, Z.div_add by lia. rewrite Z.div_small by lia. lia. }
    rewrite decide_True by lia.
    replace (Z.to_nat (Z.of_nat row * 3 + Z.of_nat col)) with (3 * row + col) by lia.
    done.
  - intros x y Hout. unfold on_canvas_click. rewrite decide_False by lia.
    rewrite decide_False; [done|]. by rewrite square_of_pixel.
Qed.

Lemma on_canvas_click_squares_witness :
  on_canvas_click start 250 150 = returned (on_cell_click start 5).
Proof.
  apply (proj1 (proj2 (on_canvas_click_squares start) eq_refl) 1 2 50%Z 50%Z);
    (lia || (simpl; lia)).
Defined.

End Window.

(** ** No move is lost *)

Section Conservation.

Lemma pending_resolved ms :
  (forall m, m ∈ ms -> is_Some (collapsed_to m)) -> pending ms = [].
Proof.
  intros Hres. unfold pending. induction ms as [|m ms IH]; [done|].
  rewrite filter_cons. destruct (Hres m) as [c Hc]; [by left|].
  rewrite decide_False by congruence. apply IH. intros m' Hm'. apply Hres. by right.
Qed.

Lemma counter_sum_incr c p :
  count_X (counter_incr c p) + count_O (counter_incr c p) = S (count_X c + count_O c).
Proof. destruct p; simpl; lia. Qed.

Lemma legal_tokens_length st :
  legal st ->
  length (tokens st) = count_X (move_counter st) + count_O (move_counter st).
Proof.
  induction 1 as [|st a b st' Hlegal IH Ha Hb Hplace|st s b st' Hlegal IH Hstep].
  - done.
  - pose proof (reachable_inv st (legal_reachable _ Hlegal)) as Hinv.
    pose proof (legal_legal_inv _ Hlegal) as Hlinv.
    place_cases Hplace; unfold tokens in *; simpl; rewrite counter_sum_incr, <- IH.
    + rewrite (pending_resolved (collapse_moves st)) by (by apply Hlinv).
      rewrite pending_unresolved.
      2:{ intros m [[_ Hm]%list_elem_of_filter| ->%list_elem_of_singleton]%elem_of_app;
            [by apply (inv_ledger st)|done]. }
      rewrite app_nil_r, !length_app, !length_fmap, length_app. simpl.
      pose proof (filter_app_complement (fun m => (cells m).1 ∈ involved st a b) (moves st))
        as Hperm.
      apply Permutation_length in Hperm. rewrite length_app in Hperm. lia.
    + rewrite !length_app, !length_fmap, length_app. simpl. lia.
  - pose proof (reachable_inv st (legal_reachable _ Hlegal)) as Hinv.
    apply collapse_step_cases in Hstep as [Hmode Hcase].
    destruct Hcase as [?|?|?|mv cms' board' Hmv Hin Hfree Hprop]; try done.
    destruct (inv_cursor st Hinv Hmode) as (mv' & Hmv' & Hnone).
    assert (mv' = mv) as -> by congruence.
    apply propagate_forcings in Hprop.
    pose proof (tokens_forcings (ident <$> moves st) _ _ Hprop) as Hperm. simpl in Hperm.
    rewrite (tokens_resolve _ _ _ _ _ _ Hmv Hnone Hfree) in Hperm.
    unfold tokens in *. simpl. by rewrite Hperm.
Qed.

(** X21: in a session whose placements are all on unoccupied squares no
    move is ever lost: the identities in play (the classical marks, the
    ledger and the unresolved implicated moves) are exactly the moves
    placed so far, move [n] of player [p] for every [n] from 1 to the
    counter of [p], each of them once. *)
Theorem legal_no_move_lost st :
  legal st ->
  NoDup (tokens st) /\
  forall p n, (p, n) ∈ tokens st <-> 1 <= n <= counter_get (move_counter st) p.
Proof.
  intros Hlegal.
  destruct (tokens_inv_reachable st (legal_reachable _ Hlegal)) as [Hnd Hb].
  split; [done|].
  set (all := (pair X <$> seq 1 (count_X (move_counter st))) ++
              (pair O <$> seq 1 (count_O (move_counter st)))).
  assert (forall p n, (p, n) ∈ all <-> 1 <= n <= counter_get (move_counter st) p) as Hall.
  { intros p n. unfold all. rewrite elem_of_app, !list_elem_of_fmap.
    split.
    - intros [(k & [= -> ->] & Hk%elem_of_seq)|(k & [= -> ->] & Hk%elem_of_seq)];
        simpl; lia.
    - intros Hn. destruct p; [left|right]; exists n; (split; [done|]);
        apply elem_of_seq; simpl in Hn; lia. }
  assert (tokens st ≡ₚ all) as Hperm.
  { apply submseteq_length_Permutation.
    - apply NoDup_submseteq; [done|]. intros [p n] Ht. apply Hall. apply (Hb (p, n) Ht).
    - rewrite (legal_tokens_length st Hlegal). unfold all.
      by rewrite length_app, !length_fmap, !length_seq. }
  intros p n. by rewrite Hperm.
Qed.

Lemma legal_no_move_lost_witness :
  NoDup (tokens collapsed) /\ (X, 1) ∈ tokens collapsed.
Proof.
  destruct (legal_no_move_lost collapsed) as [Hnd Hall].
  - exact (legal_collapse episode 0 true collapsed episode_legal run_collapsed).
  - split; [exact Hnd|]. apply Hall. vm_compute. lia.
Defined.

End Conservation.
